(** * NutriScan-AI client side: service worker and page controller

    A shallow embedding of [static/sw.js] and [static/js/main.js].

    The scripts are event handlers over browser state.  Each handler is
    written here as a function over the part of the browser state it
    touches: the service worker's listeners as promises over the cache
    storage, the chat widget's as statements over the widget's state,
    the page's start-up as a script that may throw.  The browser
    interfaces the scripts call (CacheStorage, Cache, fetch,
    DOMTokenList, getElementById, ...) are modelled after their
    standards and named after the calls they stand for.  An [async]
    function is cut at its [await]: the part before it is one handler,
    the part after it another, run when the awaited request ends.

    The first half of the file holds the embedding, one module per part
    of the scripts; the second half holds the properties, one module per
    embedding module. *)

From stdpp Require Import base list strings pretty.
From Stdlib Require Import ZArith QArith Qround Lia Ascii.
From Stdlib Require Import Floats.SpecFloat.
Close Scope Q_scope.

Local Open Scope string_scope.
Local Open Scope list_scope.

(** ** Offline cache controller ([static/sw.js]) *)

Module SW.

(** [const CACHE_NAME] and [const urlsToCache]. *)
Definition CACHE_NAME : string := "fruitveg-cache-v2".

Definition urlsToCache : list string :=
  [ "/";
    "/login";
    "/static/css/style.css";
    "/static/js/main.js";
    "/static/manifest.json";
    "/static/images/android-chrome-192x192.png";
    "/static/images/android-chrome-512x512.png";
    "/static/images/apple-touch-icon.png";
    "/static/images/favicon-16x16.png";
    "/static/images/favicon-32x32.png";
    "/static/images/favicon.ico" ].

(** A request: its method, its URL (serialised; a URL of the worker's
    origin is written from the path on, as the script writes it) and its
    header list.  A response: its status, the field values of its [Vary]
    header (what the standard's "get, decode and split" gives; empty when
    the response has no such header) and its body. *)
Record request := Request {
  req_method : string;
  req_url : string;
  req_headers : list (string * string) }.
Record response := Response {
  resp_status : Z;
  resp_vary : list string;
  resp_body : string }.

#[global] Instance request_eq_dec : EqDecision request.
Proof. solve_decision. Defined.
#[global] Instance response_eq_dec : EqDecision response.
Proof. solve_decision. Defined.

(** The request [fetch(url)] and [cache.addAll([url])] build from a URL:
    [new Request(url)] has the method GET and an empty header list. *)
Definition GET (url : string) : request := Request "GET" url [].

(** A URL serialised with the "exclude fragment" flag: what comes before
    the first [#]. *)
Fixpoint url_without_fragment (url : string) : string :=
  match url with
  | EmptyString => EmptyString
  | String a rest =>
      if decide (a = "#"%char) then EmptyString
      else String a (url_without_fragment rest)
  end.

(** Header names are compared byte-case-insensitively. *)
Definition lower_ascii (a : ascii) : ascii :=
  let n := nat_of_ascii a in
  if bool_decide (65 ≤ n ≤ 90)%nat then ascii_of_nat (n + 32) else a.

Fixpoint lower (s : string) : string :=
  match s with
  | EmptyString => EmptyString
  | String a s' => String (lower_ascii a) (lower s')
  end.

(** "Get" a header from a header list: the values of the headers of that
    name, in order, joined with a comma and a space; [None] (null) when
    the list has no header of that name. *)
Definition header_get (name : string) (hs : list (string * string)) : option string :=
  match (filter (λ h, lower h.1 = lower name) hs).*2 with
  | [] => None
  | v :: vs => Some (foldl (λ acc v', acc +:+ ", " +:+ v') v vs)
  end.

(** A [Cache] is an ordered list of request/response pairs; a
    [CacheStorage] is an ordered list of named caches (insertion order,
    which is the order [caches.keys()] and [caches.match()] follow). *)
Abbreviation cache := (list (request * response)).
Abbreviation cache_storage := (list (string * list (request * response))).

(** "Request matches cached item" of the Cache interface, with the
    default options, for the query [q] and the stored pair [e]: the
    stored request is a GET, the URLs are equal up to their fragments,
    and for every field value of the stored response's [Vary] header the
    value is not [*] and the stored request and the query carry the same
    value for the header it names. *)
Definition matches_cached_item (q : request) (e : request * response) : Prop :=
  req_method e.1 = "GET" ∧
  url_without_fragment (req_url q) = url_without_fragment (req_url e.1) ∧
  Forall (λ field, field ≠ "*" ∧
                   header_get field (req_headers e.1) = header_get field (req_headers q))
    (resp_vary e.2).

#[global] Instance matches_cached_item_dec q e : Decision (matches_cached_item q e).
Proof. unfold matches_cached_item. apply _. Defined.

(** What [cache.match(q)] looks for: [matchAll] gives nothing for a query
    that is not a GET, and the stored pairs that match the query
    otherwise. *)
Definition request_matches (q : request) (e : request * response) : Prop :=
  req_method q = "GET" ∧ matches_cached_item q e.

#[global] Instance request_matches_dec q e : Decision (request_matches q e).
Proof. unfold request_matches. apply _. Defined.

(** [cache.match]: the first stored entry that matches, in insertion order. *)
Fixpoint cache_match (q : request) (c : cache) : option response :=
  match c with
  | [] => None
  | e :: c' =>
      if decide (request_matches q e) then Some e.2 else cache_match q c'
  end.

(** [cache.put], as [addAll] runs it on a request it built: the stored
    pairs the request matches ("query cache") are taken out and the new
    pair is appended. *)
Definition cache_put (q : request) (r : response) (c : cache) : cache :=
  filter (λ e, ¬ matches_cached_item q e) c ++ [(q, r)].

Definition has_cache (name : string) (cs : cache_storage) : bool :=
  bool_decide (name ∈ cs.*1).

(** [caches.match]: the caches are searched in insertion order. *)
Fixpoint storage_match (q : request) (cs : cache_storage) : option response :=
  match cs with
  | [] => None
  | (_, c) :: cs' =>
      match cache_match q c with
      | Some r => Some r
      | None => storage_match q cs'
      end
  end.

Definition storage_open (name : string) (cs : cache_storage) : cache_storage :=
  if has_cache name cs then cs else cs ++ [(name, [])].

Definition storage_delete (name : string) (cs : cache_storage) : cache_storage :=
  filter (λ e, e.1 ≠ name) cs.

Definition storage_update (name : string) (f : cache -> cache)
    (cs : cache_storage) : cache_storage :=
  (λ e, if decide (e.1 = name) then (e.1, f e.2) else e) <$> cs.

Fixpoint storage_lookup (name : string) (cs : cache_storage) : option cache :=
  match cs with
  | [] => None
  | (n, c) :: cs' => if decide (n = name) then Some c else storage_lookup name cs'
  end.

(** Every call the worker makes on the browser is logged, in order. *)
Inductive op :=
  | OpOpen (name : string)
  | OpKeys
  | OpDelete (name : string)
  | OpMatch (q : request)
  | OpFetch (q : request)
  | OpPut (name : string) (q : request).

Record world := World { caches : cache_storage; oplog : list op }.

(** Promises: a computation either fulfils with a value or rejects. *)
Inductive settled (A : Type) :=
  | Fulfilled (a : A)
  | Rejected (reason : string).
Arguments Fulfilled {A} a.
Arguments Rejected {A} reason.

Definition promise (A : Type) := world -> settled A * world.

Definition resolve {A} (a : A) : promise A := fun w => (Fulfilled a, w).
Definition reject {A} (reason : string) : promise A := fun w => (Rejected reason, w).

(** [p.then(k)] *)
Definition and_then {A B} (p : promise A) (k : A -> promise B) : promise B :=
  fun w =>
    match p w with
    | (Fulfilled a, w') => k a w'
    | (Rejected e, w') => (Rejected e, w')
    end.

Notation "'let!' x ':=' p 'in' k" := (and_then p (fun x => k))
  (at level 10, x pattern, p at level 100, k at level 200, only parsing).

Definition log (o : op) : promise unit :=
  fun w => (Fulfilled (), World (caches w) (oplog w ++ [o])).

(** [Promise.all(xs.map(f))]: every promise of the list is started, in
    order, whether or not an earlier one rejects; the combined promise
    rejects with the first rejection and fulfils with all the values
    otherwise. *)
Fixpoint start_all {A} (ps : list (promise A)) (w : world)
    : list (settled A) * world :=
  match ps with
  | [] => ([], w)
  | p :: ps' =>
      let '(r, w1) := p w in
      let '(rs, w2) := start_all ps' w1 in
      (r :: rs, w2)
  end.

Fixpoint all_settled {A} (rs : list (settled A)) : settled (list A) :=
  match rs with
  | [] => Fulfilled []
  | Rejected e :: _ => Rejected e
  | Fulfilled a :: rs' =>
      match all_settled rs' with
      | Fulfilled l => Fulfilled (a :: l)
      | Rejected e => Rejected e
      end
  end.

Definition promise_all {A} (ps : list (promise A)) : promise (list A) :=
  fun w => let '(rs, w') := start_all ps w in (all_settled rs, w').

(** The responses [cache.addAll] accepts: the status is an ok status
    (200 to 299) and not 206, and the [Vary] header does not hold [*]. *)
Definition addAll_accepts (r : response) : Prop :=
  (200 ≤ resp_status r ≤ 299)%Z ∧ resp_status r ≠ 206%Z ∧ "*" ∉ resp_vary r.

#[global] Instance addAll_accepts_dec r : Decision (addAll_accepts r).
Proof. unfold addAll_accepts. apply _. Defined.

(** A batch of pairs to put in which a later request matches an
    earlier pair. *)
Fixpoint batch_conflict (es : cache) : Prop :=
  match es with
  | [] => False
  | e :: es' => Exists (λ e', matches_cached_item e'.1 e) es' ∨ batch_conflict es'
  end.

#[global] Instance batch_conflict_dec es : Decision (batch_conflict es).
Proof. induction es as [|e es IH]; cbn; apply _. Defined.

Section Handlers.

(** The network: what a request yields, [None] being a network error. *)
Variable net : request -> option response.

(** [fetch(request)] *)
Definition fetch (q : request) : promise response :=
  let! _ := log (OpFetch q) in
  match net q with
  | Some r => resolve r
  | None => reject "TypeError: Failed to fetch"
  end.

(** [caches.open(name)]: creates the cache when there is none; the
    value is a handle on the named cache. *)
Definition caches_open (name : string) : promise string :=
  let! _ := log (OpOpen name) in
  fun w => (Fulfilled name, World (storage_open name (caches w)) (oplog w)).

(** [caches.keys()] *)
Definition caches_keys : promise (list string) :=
  let! _ := log OpKeys in
  fun w => (Fulfilled ((caches w).*1), w).

(** [caches.delete(name)]: fulfils with whether the cache existed. *)
Definition caches_delete (name : string) : promise bool :=
  let! _ := log (OpDelete name) in
  fun w => (Fulfilled (has_cache name (caches w)),
            World (storage_delete name (caches w)) (oplog w)).

(** [caches.match(request)]: the value is the response or [undefined]. *)
Definition caches_match (q : request) : promise (option response) :=
  let! _ := log (OpMatch q) in
  fun w => (Fulfilled (storage_match q (caches w)), w).

(** The fetching half of [cache.addAll]: every URL is requested; a
    network error rejects, and so does a response whose status is not
    an ok status (200 to 299) or is 206, or whose [Vary] header holds
    [*]. *)
Definition addAll_fetch (url : string) : promise (request * response) :=
  let! r := fetch (GET url) in
  if decide (addAll_accepts r) then resolve (GET url, r)
  else reject "TypeError: Request failed".

(** The storing half of [cache.addAll]: it runs only once every
    response is in, as one batch. *)
Definition addAll_store (name : string) (e : request * response) : promise unit :=
  let! _ := log (OpPut name e.1) in
  fun w => (Fulfilled (),
            World (storage_update name (cache_put e.1 e.2) (caches w)) (oplog w)).

(** [cache.addAll(urls)] on the cache called [name]: the batch is
    refused, and nothing stored, when a request of the batch matches a
    pair an earlier request of the batch adds. *)
Definition cache_addAll (name : string) (urls : list string) : promise unit :=
  let! es := promise_all (addAll_fetch <$> urls) in
  if decide (batch_conflict es) then reject "InvalidStateError"
  else
    let! _ := promise_all (addAll_store name <$> es) in
    resolve ().

(** The [install] listener: the promise handed to [event.waitUntil]. *)
Definition on_install : promise unit :=
  let! c := caches_open CACHE_NAME in
  cache_addAll c urlsToCache.

(** The [activate] listener. *)
Definition on_activate : promise (list bool) :=
  let! cacheNames := caches_keys in
  promise_all
    (caches_delete <$>
       filter (λ name, name ≠ CACHE_NAME) cacheNames).

(** The [fetch] listener: the promise handed to [event.respondWith].
    A [Response] object is truthy, so [response || fetch(...)] takes
    the right operand exactly when the match gave [undefined]. *)
Definition on_fetch (q : request) : promise response :=
  let! response := caches_match q in
  match response with
  | Some r => resolve r
  | None => fetch q
  end.

(** The URLs [cache.addAll] gets a response for that it accepts. *)
Definition accepted (url : string) : Prop :=
  ∃ r, net (GET url) = Some r ∧ addAll_accepts r.

#[global] Instance accepted_dec url : Decision (accepted url).
Proof.
  unfold accepted. destruct (net (GET url)) as [r|].
  - destruct (decide (addAll_accepts r)) as [Hr|Hr].
    + left. by exists r.
    + right. intros (r' & [= <-] & Hr'). by apply Hr.
  - right. by intros (r & [=] & _).
Defined.

End Handlers.

End SW.

(** ** JavaScript strings and values as [static/js/main.js] uses them *)

Module JS.

(** A JavaScript string is kept as the bytes of its UTF-8 encoding. *)
Definition bytes (codes : list nat) : string :=
  Strings.String.string_of_list_ascii (ascii_of_nat <$> codes).

(** The double quote character. *)
Definition dq : string := bytes [34].

(** The white space and line terminators [String.prototype.trim] strips:
    U+0009..U+000D, U+0020, U+00A0, U+1680, U+2000..U+200A, U+2028,
    U+2029, U+202F, U+205F, U+3000 and U+FEFF. *)
Definition whitespace : list string :=
  [ bytes [9]; bytes [10]; bytes [11]; bytes [12]; bytes [13]; bytes [32];
    bytes [194; 160];
    bytes [225; 154; 128];
    bytes [226; 128; 128]; bytes [226; 128; 129]; bytes [226; 128; 130];
    bytes [226; 128; 131]; bytes [226; 128; 132]; bytes [226; 128; 133];
    bytes [226; 128; 134]; bytes [226; 128; 135]; bytes [226; 128; 136];
    bytes [226; 128; 137]; bytes [226; 128; 138];
    bytes [226; 128; 168]; bytes [226; 128; 169];
    bytes [226; 128; 175];
    bytes [226; 129; 159];
    bytes [227; 128; 128];
    bytes [239; 187; 191] ].

Fixpoint strip_prefix (p s : string) : option string :=
  match p, s with
  | EmptyString, _ => Some s
  | String _ _, EmptyString => None
  | String a p', String b s' => if decide (a = b) then strip_prefix p' s' else None
  end.

(** The rest of [s] after one leading character of [ws], if it has one. *)
Fixpoint strip_one (ws : list string) (s : string) : option string :=
  match ws with
  | [] => None
  | p :: ws' =>
      match strip_prefix p s with
      | Some rest => Some rest
      | None => strip_one ws' s
      end
  end.

Fixpoint strip_leading (ws : list string) (fuel : nat) (s : string) : string :=
  match fuel with
  | O => s
  | S fuel' =>
      match strip_one ws s with
      | Some rest => strip_leading ws fuel' rest
      | None => s
      end
  end.

Definition trimStart (s : string) : string :=
  strip_leading whitespace (String.length s) s.

Definition trimEnd (s : string) : string :=
  String.rev (strip_leading (String.rev <$> whitespace) (String.length s) (String.rev s)).

(** [s.trim()] *)
Definition trim (s : string) : string := trimEnd (trimStart s).

(** [xs.join('')] *)
Definition join_empty (xs : list string) : string :=
  foldr String.append EmptyString xs.

(** [xs.join(',')] *)
Fixpoint join_comma (xs : list string) : string :=
  match xs with
  | [] => EmptyString
  | [x] => x
  | x :: xs' => x +:+ "," +:+ join_comma xs'
  end.

(** Truthiness of a string: only the empty string is falsy. *)
Definition truthy (s : string) : bool := negb (bool_decide (s = EmptyString)).

(** Truthiness of a value that is [null] or a string. *)
Definition truthy_opt (text : option string) : bool :=
  match text with
  | None => false
  | Some s => truthy s
  end.

(** *** [JSON.stringify] of a string *)

Definition hex_digit (n : nat) : ascii :=
  ascii_of_nat (if decide (n < 10) then 48 + n else 87 + n).

(** The escape of one character (QuoteJSONString): the quote, the
    backslash and the control characters are escaped, the rest is kept. *)
Definition json_escape (a : ascii) : string :=
  let n := nat_of_ascii a in
  if decide (n = 34) then bytes [92; 34]
  else if decide (n = 92) then bytes [92; 92]
  else if decide (n = 8) then bytes [92; 98]
  else if decide (n = 12) then bytes [92; 102]
  else if decide (n = 10) then bytes [92; 110]
  else if decide (n = 13) then bytes [92; 114]
  else if decide (n = 9) then bytes [92; 116]
  else if decide (n < 32) then
    bytes [92; 117; 48; 48] +:+
      String (hex_digit (n `div` 16)) (String (hex_digit (n `mod` 16)) EmptyString)
  else String a EmptyString.

Fixpoint json_escape_all (s : string) : string :=
  match s with
  | EmptyString => EmptyString
  | String a s' => json_escape a +:+ json_escape_all s'
  end.

Definition json_quote (s : string) : string := dq +:+ json_escape_all s +:+ dq.

(** [JSON.stringify({ prompt })] for a string [prompt]. *)
Definition stringify_prompt (prompt : string) : string :=
  "{" +:+ json_quote "prompt" +:+ ":" +:+ json_quote prompt +:+ "}".

(** *** Parsed JSON values *)

(** What [res.json()] can fulfil with.  A number is kept by the text
    [String(n)] gives for it. *)
#[warnings="-register-all"]
Inductive json :=
  | JNull
  | JBool (b : bool)
  | JNum (text : string)
  | JStr (s : string)
  | JArr (items : list json)
  | JObj (fields : list (string * json)).

(** [String(v)], which is what a template literal makes of [v]. *)
Fixpoint to_string (v : json) : string :=
  match v with
  | JNull => "null"
  | JBool true => "true"
  | JBool false => "false"
  | JNum text => text
  | JStr s => s
  | JArr items =>
      join_comma
        ((fix each (l : list json) : list string :=
            match l with
            | [] => []
            | JNull :: l' => EmptyString :: each l'
            | x :: l' => to_string x :: each l'
            end) items)
  | JObj _ => "[object Object]"
  end.

(** [`${v}`] for a value that may be [undefined]. *)
Definition template (v : option json) : string :=
  match v with
  | None => "undefined"
  | Some x => to_string x
  end.

Fixpoint field (name : string) (fields : list (string * json)) : option json :=
  match fields with
  | [] => None
  | (k, v) :: fields' => if decide (k = name) then Some v else field name fields'
  end.

(** [const { reply } = v]: destructuring [null] throws (the outer
    [None]); a value with no such property gives [undefined] (the inner
    [None]). *)
Definition destructure_reply (v : json) : option (option json) :=
  match v with
  | JNull => None
  | JObj fields => Some (field "reply" fields)
  | _ => Some None
  end.

End JS.

(** ** [element.classList] *)

Module DOM.

(** A [DOMTokenList] is an ordered set of class names. *)
Definition classList_contains (c : string) (l : list string) : bool :=
  bool_decide (c ∈ l).

Definition classList_remove (c : string) (l : list string) : list string :=
  filter (λ x, x ≠ c) l.

Definition classList_add (c : string) (l : list string) : list string :=
  if decide (c ∈ l) then l else l ++ [c].

Definition classList_toggle (c : string) (l : list string) : list string :=
  if decide (c ∈ l) then classList_remove c l else l ++ [c].

(** How a listener or a script ends. *)
Inductive completion :=
  | Normal
  | Throws (error : string).

End DOM.

(** ** BerryBot chat widget ([static/js/main.js], lines 89 to 168) *)

Module Chat.
Import JS DOM.

(** An element made by [document.createElement('div')]; [node_id] tells
    two elements with equal contents apart. *)
Record node := Node { node_id : nat; className : string; innerHTML : string }.

#[global] Instance node_eq_dec : EqDecision node.
Proof. solve_decision. Defined.

(** The arguments of a [fetch] call. *)
Record fetch_call := FetchCall {
  fc_url : string;
  fc_method : string;
  fc_headers : list (string * string);
  fc_body : string }.

(** How a request ends: [fetch] rejects, [res.json()] rejects, or
    [res.json()] fulfils with a value. *)
Inductive outcome :=
  | NetworkError
  | NotJSON
  | Body (v : json).

(** What the widget does to the page and the browser, in order. *)
Inductive effect :=
  | AppendChild (n : node)
  | RemoveChild (id : nat)
  | SetInputValue (s : string)
  | Fetch (k : nat) (c : fetch_call)
  | UnhandledRejection (k : nat) (reason : string)
  | StartRecognition (lang : string) (interimResults : bool)
  | Alert (msg : string).

(** The state the handlers share: the class list of [#berrybot-panel],
    the children of [#berrybot-messages], the value of [#berrybot-text],
    the variable [typingEl] (the identity of the element it holds), the
    number of elements created and of requests sent so far, and the
    requests whose [await] has not resumed yet. *)
Record chat := Chat_ {
  panel : list string;
  messages : list node;
  inputValue : string;
  typingEl : option nat;
  created : nat;
  sent : nat;
  pending : list nat;
  trace : list effect }.

Definition emit (e : effect) (st : chat) : chat :=
  Chat_ (panel st) (messages st) (inputValue st) (typingEl st) (created st)
        (sent st) (pending st) (trace st ++ [e]).

Definition set_panel (p : list string) (st : chat) : chat :=
  Chat_ p (messages st) (inputValue st) (typingEl st) (created st)
        (sent st) (pending st) (trace st).

Definition set_messages (ms : list node) (st : chat) : chat :=
  Chat_ (panel st) ms (inputValue st) (typingEl st) (created st)
        (sent st) (pending st) (trace st).

Definition set_inputValue (s : string) (st : chat) : chat :=
  Chat_ (panel st) (messages st) s (typingEl st) (created st)
        (sent st) (pending st) (trace st).

Definition set_typingEl (t : option nat) (st : chat) : chat :=
  Chat_ (panel st) (messages st) (inputValue st) t (created st)
        (sent st) (pending st) (trace st).

Definition set_created (n : nat) (st : chat) : chat :=
  Chat_ (panel st) (messages st) (inputValue st) (typingEl st) n
        (sent st) (pending st) (trace st).

Definition set_sent (n : nat) (st : chat) : chat :=
  Chat_ (panel st) (messages st) (inputValue st) (typingEl st) (created st)
        n (pending st) (trace st).

Definition set_pending (ks : list nat) (st : chat) : chat :=
  Chat_ (panel st) (messages st) (inputValue st) (typingEl st) (created st)
        (sent st) ks (trace st).

(** Statements run one after the other. *)
Definition then_ (c1 c2 : chat → chat) : chat → chat := λ st, c2 (c1 st).
Infix ">>" := then_ (at level 61, left associativity).

Definition skip : chat → chat := λ st, st.

(** [`<div class="bubble">${text}</div>`] *)
Definition bubble (text : string) : string :=
  "<div class=" +:+ dq +:+ "bubble" +:+ dq +:+ ">" +:+ text +:+ "</div>".

Definition typing_text : string := "🍓 BerryBot is typing…".

(** [msgContainer.appendChild(el)] for a freshly created [el]. *)
Definition appendChild (n : node) : chat → chat :=
  (λ st, set_messages (messages st ++ [n]) st) >> emit (AppendChild n).

(** [function appendTypingIndicator()] *)
Definition appendTypingIndicator : chat → chat := λ st,
  let el := Node (created st) "message bot" (bubble typing_text) in
  (set_created (S (created st)) >>
   set_typingEl (Some (node_id el)) >>
   appendChild el) st.

(** [function removeTypingIndicator()]: [typingEl?.remove()] takes the
    element out of its parent, if it has one. *)
Definition removeTypingIndicator : chat → chat := λ st,
  match typingEl st with
  | None => st
  | Some id =>
      (set_messages (filter (λ n, node_id n ≠ id) (messages st)) >>
       emit (RemoveChild id)) st
  end.

(** [function appendMessage(who, text)] *)
Definition appendMessage (who text : string) : chat → chat := λ st,
  let msgEl := Node (created st) ("message " +:+ who) (bubble text) in
  (set_created (S (created st)) >> appendChild msgEl) st.

(** The [fetch] call of [sendMessage]. *)
Definition berrybot_call (prompt : string) : fetch_call :=
  FetchCall "/api/berrybot" "POST"
    [("Content-Type", "application/json")] (stringify_prompt prompt).

(** [text ?? inputField.value.trim()] *)
Definition prompt_of (text : option string) (st : chat) : string :=
  match text with
  | Some t => t
  | None => trim (inputValue st)
  end.

(** [async function sendMessage(text = null)], up to its first [await]:
    the request goes out and the rest of the body waits for it. *)
Definition sendMessage (text : option string) : chat → chat := λ st,
  let prompt := prompt_of text st in
  if negb (truthy prompt) then st
  else
    (appendMessage "user" prompt >>
     (if negb (truthy_opt text) then
        set_inputValue EmptyString >> emit (SetInputValue EmptyString)
      else skip) >>
     appendTypingIndicator >>
     (λ st', (emit (Fetch (sent st') (berrybot_call prompt)) >>
              set_pending (pending st' ++ [sent st']) >>
              set_sent (S (sent st'))) st')) st.

(** The promise [sendMessage] returns rejects; no caller keeps the
    promise, so nothing handles the rejection. *)
Definition rejects (k : nat) (reason : string) : chat → chat :=
  emit (UnhandledRejection k reason).

(** The rest of [sendMessage], run when request [k] ends with [o].  The
    two [await]s are taken in one step: nothing of the widget is read or
    written between them. *)
Definition sendMessage_resume (k : nat) (o : outcome) : chat → chat := λ st,
  if decide (k ∈ pending st) then
    (set_pending (filter (λ j, j ≠ k) (pending st)) >>
     match o with
     | NetworkError => rejects k "TypeError: Failed to fetch"
     | NotJSON => rejects k "SyntaxError: Unexpected token"
     | Body v =>
         match destructure_reply v with
         | None => rejects k "TypeError: Cannot destructure property"
         | Some reply =>
             removeTypingIndicator >> appendMessage "bot" (template reply)
         end
     end) st
  else st.

(** What happens to the widget. *)
Inductive event :=
  | ToggleClick
  | VoiceClick (supported : bool)
  | VoiceResult (transcripts : list string)
  | SendClick
  | KeyPress (key : string)
  | Input (value : string)
  | Response (k : nat) (o : outcome).

(** The [click] listener of [#berrybot-toggle]. *)
Definition on_toggle_click : chat → chat := λ st,
  ((λ st, set_panel (classList_toggle "hidden" (panel st)) st) >>
   (λ st, set_panel (classList_toggle "visible" (panel st)) st)) st.

(** The [click] listener of [#voice-btn]; [supported] is whether
    [window] has [SpeechRecognition] or [webkitSpeechRecognition]. *)
Definition on_voice_click (supported : bool) : chat → chat :=
  (λ st, set_panel (classList_remove "hidden" (panel st)) st) >>
  (λ st, set_panel (classList_add "visible" (panel st)) st) >>
  (if supported then emit (StartRecognition "en-US" false)
   else emit (Alert "Speech recognition not supported in this browser.")).

(** The [result] listener of the recognition: [transcripts] are the
    [r[0].transcript] of the results. *)
Definition on_voice_result (transcripts : list string) : chat → chat :=
  sendMessage (Some (trim (join_empty transcripts))).

(** The [click] listener of [#berrybot-send]. *)
Definition on_send_click : chat → chat := sendMessage None.

(** The [keypress] listener of [#berrybot-text]. *)
Definition on_keypress (key : string) : chat → chat :=
  if decide (key = "Enter") then sendMessage None else skip.

Definition step (e : event) : chat → chat :=
  match e with
  | ToggleClick => on_toggle_click
  | VoiceClick supported => on_voice_click supported
  | VoiceResult transcripts => on_voice_result transcripts
  | SendClick => on_send_click
  | KeyPress key => on_keypress key
  | Input value => set_inputValue value
  | Response k o => sendMessage_resume k o
  end.

Fixpoint run (es : list event) (st : chat) : chat :=
  match es with
  | [] => st
  | e :: es' => run es' (step e st)
  end.

(** The widget when the page has loaded: the panel hidden, no message. *)
Definition loaded : chat :=
  Chat_ ["hidden"] [] EmptyString None 0 0 [] [].

(** Every element of the transcript was created by the widget, and every
    request still waited for was sent by it. *)
Definition wf (st : chat) : Prop :=
  (∀ n, n ∈ messages st → node_id n < created st) ∧
  (∀ k, k ∈ pending st → k < sent st).

(** The requests of a trace, in order. *)
Definition fetches (tr : list effect) : list fetch_call :=
  omap (λ e, match e with Fetch _ c => Some c | _ => None end) tr.

(** An element of the transcript that no pending continuation can take
    out: it is not the element [typingEl] holds, unless no request is
    waited for. *)
Definition stuck (n : node) (st : chat) : Prop :=
  n ∈ messages st ∧
  node_id n < created st ∧
  (typingEl st = Some (node_id n) → pending st = []).

(** While the request [k] of a send is the only one that can be waited
    for as [typingEl] holds the send's placeholder, the placeholder
    stays in the transcript. *)
Definition held_for (n : node) (k : nat) (st : chat) : Prop :=
  n ∈ messages st ∧
  node_id n < created st ∧
  (typingEl st = Some (node_id n) → ∀ j, j ∈ pending st → j = k).

End Chat.

(** ** Tab switching ([static/js/main.js], lines 8 to 15) *)

Module Tabs.
Import DOM.

(** An element of the page, as far as the listener looks at it: its
    [id] attribute, its class list and its [data-tab] attribute.  The
    document is the list of its elements in document order; an element is
    known by its position. *)
Record element := Element {
  el_id : option string;
  classes : list string;
  data_tab : option string }.

Definition set_classes (f : list string → list string) (e : element) : element :=
  Element (el_id e) (f (classes e)) (data_tab e).

(** [document.getElementById(key)]: the first element, in document
    order, whose id is [key]; an empty key names no element. *)
Fixpoint first_with_id (key : string) (doc : list element) : option nat :=
  match doc with
  | [] => None
  | e :: doc' =>
      if decide (el_id e = Some key) then Some 0
      else S <$> first_with_id key doc'
  end.

Definition getElementById (key : string) (doc : list element) : option nat :=
  if decide (key = EmptyString) then None else first_with_id key doc.

(** [document.querySelectorAll('.' + cls).forEach(x => x.classList.remove('active'))] *)
Definition deactivate_all (cls : string) (doc : list element) : list element :=
  (λ e, if decide (cls ∈ classes e)
        then set_classes (classList_remove "active") e else e) <$> doc.

(** [x.classList.add('active')] on the element at position [i]. *)
Definition activate (i : nat) (doc : list element) : list element :=
  alter (set_classes (classList_add "active")) i doc.

(** [btn.dataset.tab] as [getElementById] reads it: a missing attribute
    gives [undefined], which is looked up as the string of that name. *)
Definition dataset_tab (btn : element) : string :=
  default "undefined" (data_tab btn).

(** The [click] listener of the tab button at position [i]. *)
Definition on_tab_click (i : nat) (doc : list element) : completion * list element :=
  match doc !! i with
  | None => (Normal, doc)
  | Some btn =>
      let doc1 := deactivate_all "tab-btn" doc in
      let doc2 := deactivate_all "tab-content" doc1 in
      let doc3 := activate i doc2 in
      match getElementById (dataset_tab btn) doc3 with
      | Some j => (Normal, activate j doc3)
      | None =>
          (Throws "TypeError: Cannot read properties of null (reading 'classList')",
           doc3)
      end
  end.

Definition is_active (e : element) : Prop := "active" ∈ classes e.
Definition is_button (e : element) : Prop := "tab-btn" ∈ classes e.
Definition is_panel (e : element) : Prop := "tab-content" ∈ classes e.

End Tabs.
(** ** Numbers ([Number] values of the scripts)

    A JavaScript number is an IEEE 754 binary64 value: here a
    [spec_float] of the Standard Library's specification of
    floating-point arithmetic, with a precision of 53 digits. *)

Module Number.

Local Open Scope Z_scope.

Definition prec : Z := 53.
Definition emax : Z := 1024.

(** The number an integer literal such as [360] stands for. *)
Definition of_Z (z : Z) : spec_float := binary_normalize prec emax z 0 false.

(** [x * y]: the exact product, rounded to nearest, ties to even. *)
Definition mul (x y : spec_float) : spec_float := SFmul prec emax x y.

(** What [Math.floor] gives: an integer, or the [NaN] or the infinity it
    was given. *)
Inductive floored :=
  | Int (z : Z)
  | NotANumber
  | Infinite (negative : bool).

(** [Math.floor(x)] *)
Definition floor (x : spec_float) : floored :=
  match x with
  | S754_zero _ => Int 0
  | S754_finite s m e => Int (Z.shiftl (cond_Zopp s (Z.pos m)) e)
  | S754_nan => NotANumber
  | S754_infinity s => Infinite s
  end.

(** [n + x] for an integer [n] and a floored [x]; the sum of two
    integers is exact below 2^53. *)
Definition plus (n : Z) (x : floored) : floored :=
  match x with
  | Int z => Int (n + z)
  | other => other
  end.

(** [`${x}`] for a floored [x]: the decimal digits of an integer (below
    10^21). *)
Definition to_string (x : floored) : string :=
  match x with
  | Int z => pretty z
  | NotANumber => "NaN"
  | Infinite false => "Infinity"
  | Infinite true => "-Infinity"
  end.

(** What [Math.random()] gives: a number with positive sign, greater
    than or equal to +0 and less than 1. *)
Definition random_value (r : spec_float) : Prop :=
  valid_binary prec emax r = true ∧
  match r with
  | S754_zero false => True
  | S754_finite false m e => e < 0 ∧ Z.pos m < 2 ^ (- e)
  | _ => False
  end.

(** The value of a finite number, as a rational. *)
Definition to_Q (x : spec_float) : Q :=
  match x with
  | S754_finite s m e =>
      if e <? 0 then cond_Zopp s (Z.pos m) # Z.to_pos (2 ^ (- e))
      else inject_Z (cond_Zopp s (Z.pos m) * 2 ^ e)
  | _ => 0%Q
  end.

(** Where the digits shifted out of a mantissa stand against half a unit
    of the last place kept ([unit] is that unit, [rem] what was shifted
    out). *)
Definition loc_of (rem unit : Z) : location :=
  if rem =? 0 then loc_Exact else loc_Inexact (2 * rem ?= unit).

(** [mrs] is the mantissa [M] shifted right by [k] digits. *)
Definition shifted (M : Z) (k : Z) (mrs : shr_record) : Prop :=
  0 ≤ shr_m mrs ∧
  ∃ rem, M = shr_m mrs * 2 ^ k + rem ∧ 0 ≤ rem < 2 ^ k ∧
         loc_of_shr_record mrs = loc_of rem (2 ^ k).

End Number.


(** ** Fortune spinner ([static/js/main.js], lines 64 to 87) *)

Module Spinner.
Import JS Number.

Definition fortunes : list string :=
  [ "🍌 Tip: Keep bananas away from apples to slow ripening!";
    "🥝 Fact: Kiwis have more vitamin C than oranges!";
    "🍇 Challenge: Try a fruit you’ve never eaten this week!";
    "🍍 Tip: Pineapple helps with digestion!";
    "🍓 Fact: Strawberries are the only fruit with seeds on the outside!" ].

(** [Math.floor(Math.random() * n)], for the number [r] that
    [Math.random()] gave. *)
Definition random_below (r : spec_float) (n : Z) : floored :=
  floor (mul r (of_Z n)).

(** [xs[i]]: [undefined] for what is not an index of the array. *)
Definition index (xs : list string) (i : floored) : option string :=
  match i with
  | Int z => if decide (0 ≤ z)%Z then xs !! Z.to_nat z else None
  | _ => None
  end.

(** [`${x}`] for a string that may be [undefined]. *)
Definition template_string (x : option string) : string := default "undefined" x.

(** The least random value whose product with 5 rounds to [i] or more:
    [i / 5] lowered by a fifth of half a unit of the last place of the
    numbers just below [i]. *)
Definition threshold (i : Z) : Q :=
  if (i <=? 0)%Z then 0%Q
  else let u := (2 ^ (54 - Z.log2_up i))%Z in (i * u - 1)%Z # Z.to_pos (5 * u).

(** A callback handed to the browser and not run yet. *)
Inductive task :=
  | AnimationFrame
  | Timeout (ms : nat).

#[global] Instance task_eq_dec : EqDecision task.
Proof. solve_decision. Defined.

(** The options of a [confetti] call; [origin_y] in tenths. *)
Record confetti_call := Confetti {
  particleCount : nat;
  spread : nat;
  origin_y_tenths : nat }.

(** The style of [#fruitWheel], the content of [#spinResult], the
    callbacks waited for and the [confetti] calls made. *)
Record spinner := Spinner_ {
  transition : string;
  transform : string;
  resultHTML : string;
  waiting : list task;
  confetti : list confetti_call }.

Fixpoint take_task (t : task) (ts : list task) : option (list task) :=
  match ts with
  | [] => None
  | t' :: ts' =>
      if decide (t' = t) then Some ts' else (t' ::.) <$> take_task t ts'
  end.

(** [function spinWheel()], the [click] listener of [#spinBtn]. *)
Definition spinWheel (st : spinner) : spinner :=
  Spinner_ "none" "rotate(0deg)" (resultHTML st)
    (waiting st ++ [AnimationFrame]) (confetti st).

(** The callback given to [requestAnimationFrame]; [r] is what
    [Math.random()] gives it. *)
Definition on_frame (r : spec_float) (st : spinner) : spinner :=
  match take_task AnimationFrame (waiting st) with
  | None => st
  | Some rest =>
      let rotation := plus (360 * 3) (random_below r 360) in
      Spinner_ "transform 2s ease-out"
        ("rotate(" +:+ to_string rotation +:+ "deg)")
        (resultHTML st) (rest ++ [Timeout 2000]) (confetti st)
  end.

(** The callback given to [setTimeout]; [r] is what [Math.random()]
    gives it. *)
Definition on_timeout (r : spec_float) (st : spinner) : spinner :=
  match take_task (Timeout 2000) (waiting st) with
  | None => st
  | Some rest =>
      let fortune :=
        index fortunes (random_below r (Z.of_nat (length fortunes))) in
      Spinner_ (transition st) (transform st)
        ("<h3>" +:+ template_string fortune +:+ "</h3>")
        rest (confetti st ++ [Confetti 60 50 6])
  end.

(** The wheel at rest, before any spin. *)
Definition at_rest : spinner := Spinner_ EmptyString EmptyString EmptyString [] [].

End Spinner.

(** ** Page initialisation ([static/js/main.js], the [DOMContentLoaded]
    listener) and the produce chart (lines 169 to 217) *)

Module Page.
Import JS DOM.

(** The elements the listener looks up with [document.getElementById]
    as it starts. *)
Inductive elem :=
  | ImageInput | PreviewImage | PreviewContainer
  | FruitWheel | SpinResult | SpinBtn
  | BerrybotToggle | BerrybotPanel | BerrybotMessages | BerrybotText
  | BerrybotSend | VoiceBtn
  | ChartToggle | ProduceChart.

#[global] Instance elem_eq_dec : EqDecision elem.
Proof. solve_decision. Defined.

Definition element_id (e : elem) : string :=
  match e with
  | ImageInput => "image-input"
  | PreviewImage => "preview-image"
  | PreviewContainer => "preview-container"
  | FruitWheel => "fruitWheel"
  | SpinResult => "spinResult"
  | SpinBtn => "spinBtn"
  | BerrybotToggle => "berrybot-toggle"
  | BerrybotPanel => "berrybot-panel"
  | BerrybotMessages => "berrybot-messages"
  | BerrybotText => "berrybot-text"
  | BerrybotSend => "berrybot-send"
  | VoiceBtn => "voice-btn"
  | ChartToggle => "chartToggle"
  | ProduceChart => "produceChart"
  end.

Record produce := Produce {
  name : string;
  benefit : string;
  color : string;
  emoji : string }.

Definition produceList : list produce :=
  [ Produce "Orange" "Rich in Vitamin C" "#FFA500" "🍊";
    Produce "Pomegranate" "Boosts Blood Health" "#C62828" "🍎";
    Produce "Spinach" "Good for Overall Health" "#2E7D32" "🥬";
    Produce "Pumpkin" "Aids Digestion & Gut Health" "#F57C00" "🎃";
    Produce "Apple" "High in Fiber & Vitamin C" "#D32F2F" "🍏";
    Produce "Blueberry" "Packed with Antioxidants" "#303F9F" "🫐";
    Produce "Avocado" "Heart-Healthy Monounsaturated Fats" "#4CAF50" "🥑";
    Produce "Tomato" "Rich in Lycopene & Vitamins A, C" "#E53935" "🍅";
    Produce "Carrot" "Supports Eye Health with Beta-Carotene" "#FB8C00" "🥕";
    Produce "Broccoli" "High in Fiber & Vitamins K, C" "#388E3C" "🥦";
    Produce "Kiwi" "Vitamin C Powerhouse & Dietary Fiber" "#7CB342" "🥝";
    Produce "Strawberry" "Antioxidant-Rich & Vitamin C Boost" "#E91E63" "🍓";
    Produce "Mango" "Rich in Vitamins A & C" "#FFB300" "🥭";
    Produce "Cucumber" "Hydrating & Low-Calorie Snack" "#81C784" "🥒";
    Produce "Pineapple" "Aids Digestion with Bromelain" "#FF9800" "🍍";
    Produce "Banana" "Great Source of Potassium" "#FDD835" "🍌";
    Produce "Watermelon" "Hydrating & Rich in Vitamins A, C" "#FF5252" "🍉" ].

(** What a page has when the listener runs: which of the elements
    exist, and how many [.tab-btn] elements there are. *)
Record page := Page_ {
  present : elem → bool;
  tabButtons : nat }.

Inductive target :=
  | TabButton (i : nat)
  | Elem (e : elem).

(** One flip card of the chart: its [--color] property and the
    [innerHTML] of its [.hex-card-inner]. *)
Record card := Card { card_color : string; card_inner : string }.

(** What the listener does to the page, in order. *)
Inductive effect :=
  | ConsoleLog (msg : string)
  | AddListener (t : target) (event : string)
  | DefineGlobal (name : string)
  | SetInnerHTML (e : elem) (html : string)
  | AppendCard (c : card).

(** A piece of the script: it adds to what was done so far, and either
    goes on or throws, which ends the listener. *)
Definition script := list effect → completion * list effect.

Definition emit (e : effect) : script := λ done, (Normal, done ++ [e]).
Definition nothing : script := λ done, (Normal, done).
Definition throw (error : string) : script := λ done, (Throws error, done).

Definition seq_ (s1 s2 : script) : script := λ done,
  match s1 done with
  | (Normal, done') => s2 done'
  | (Throws error, done') => (Throws error, done')
  end.
Infix ">>>" := seq_ (at level 62, left associativity).

(** [xs.forEach(f)] *)
Fixpoint for_each {A} (xs : list A) (f : A → script) : script :=
  match xs with
  | [] => nothing
  | x :: xs' => f x >>> for_each xs' f
  end.

Section Init.

Variable p : page.

(** [el?.addEventListener(event, ...)] *)
Definition listen_if_present (e : elem) (event : string) : script :=
  if present p e then emit (AddListener (Elem e) event) else nothing.

(** [el.addEventListener(event, ...)] *)
Definition listen (e : elem) (event : string) : script :=
  if present p e then emit (AddListener (Elem e) event)
  else throw "TypeError: Cannot read properties of null (reading 'addEventListener')".

Definition nl : string := bytes [10].

(** The template literal assigned to [inner.innerHTML]. *)
Definition card_html (item : produce) : string :=
  nl +:+
  "      <div class=" +:+ dq +:+ "hex-card-front" +:+ dq +:+ ">" +:+ nl +:+
  "        <div class=" +:+ dq +:+ "emoji" +:+ dq +:+ ">" +:+ emoji item +:+ "</div>" +:+ nl +:+
  "        <div class=" +:+ dq +:+ "name" +:+ dq +:+ ">" +:+ name item +:+ "</div>" +:+ nl +:+
  "      </div>" +:+ nl +:+
  "      <div class=" +:+ dq +:+ "hex-card-back" +:+ dq +:+ ">" +:+ benefit item +:+ "</div>" +:+ nl +:+
  "    ".

(** The card [produceList.forEach] builds for one item. *)
Definition card_of (item : produce) : card := Card (color item) (card_html item).

(** The body of [if (chartPanel) { ... }]. *)
Definition render_grid : script :=
  emit (SetInnerHTML ProduceChart EmptyString) >>>
  for_each produceList (λ item, emit (AppendCard (card_of item))).

(** The [DOMContentLoaded] listener. *)
Definition init : completion * list effect :=
  (emit (ConsoleLog "main.js loaded") >>>
   for_each (seq 0 (tabButtons p)) (λ i, emit (AddListener (TabButton i) "click")) >>>
   listen_if_present ImageInput "change" >>>
   emit (DefineGlobal "openCamera") >>>
   emit (DefineGlobal "captureImage") >>>
   listen_if_present SpinBtn "click" >>>
   listen_if_present BerrybotToggle "click" >>>
   listen_if_present VoiceBtn "click" >>>
   listen_if_present BerrybotSend "click" >>>
   listen_if_present BerrybotText "keypress" >>>
   listen ChartToggle "click" >>>
   (if present p ProduceChart then render_grid else nothing)) [].

End Init.

(** The [click] listener of [#chartToggle], on the class list of the
    chart panel ([None] when [chartPanel] is [null]); the second
    component tells whether [confetti] was called. *)
Definition on_chartToggle_click (chartPanel : option (list string))
    : completion * option (list string) * bool :=
  match chartPanel with
  | None =>
      (Throws "TypeError: Cannot read properties of null (reading 'classList')",
       None, false)
  | Some classes => (Normal, Some (classList_toggle "revealed" classes), true)
  end.

(** The elements whose listener is registered behind [?.]. *)
Definition guarded : list (elem * string) :=
  [ (ImageInput, "change"); (SpinBtn, "click"); (BerrybotToggle, "click");
    (VoiceBtn, "click"); (BerrybotSend, "click"); (BerrybotText, "keypress") ].

Definition is_grid_effect (e : effect) : bool :=
  match e with
  | SetInnerHTML _ _ | AppendCard _ => true
  | _ => false
  end.

(** The cards appended to the chart panel, in order. *)
Definition cards (done : list effect) : list card :=
  omap (λ e, match e with AppendCard c => Some c | _ => None end) done.

(** A script that goes on after doing [l]. *)
Definition emits (s : script) (l : list effect) : Prop :=
  ∀ done, s done = (Normal, done ++ l).

(** A page given by the list of the elements it has. *)
Definition page_with (els : list elem) (tabs : nat) : page :=
  Page_ (λ e, bool_decide (e ∈ els)) tabs.

End Page.

(** ** Image preview ([static/js/main.js], lines 17 to 31) *)

Module Preview.
Import DOM.

(** A file of the input's [FileList]. *)
Record file := File { file_name : string; file_type : string }.

#[global] Instance file_eq_dec : EqDecision file.
Proof. solve_decision. Defined.

(** The [src] of [#preview-image], the class list of
    [#preview-container], the files an object URL was made for (the
    browser keeps each until the URL is revoked) and the number of
    [confetti] calls. *)
Record preview := Preview_ {
  src : string;
  boxClasses : list string;
  objectURLs : list file;
  confettiCalls : nat }.

(** [URL.createObjectURL(file)]: a URL no earlier call gave, here
    numbered by the calls made so far. *)
Definition createObjectURL (st : preview) : string :=
  "blob:" +:+ pretty (length (objectURLs st)).

(** The [change] listener of [#image-input]; [files] is
    [imageInput.files]. *)
Definition on_change (files : list file) (st : preview) : preview :=
  match head files with
  | None =>
      Preview_ EmptyString (classList_remove "has-image" (boxClasses st))
        (objectURLs st) (confettiCalls st)
  | Some file =>
      Preview_ (createObjectURL st) (classList_add "has-image" (boxClasses st))
        (objectURLs st ++ [file]) (S (confettiCalls st))
  end.

(** One selection after the other. *)
Fixpoint selections (sels : list (list file)) (st : preview) : preview :=
  match sels with
  | [] => st
  | files :: sels' => selections sels' (on_change files st)
  end.

End Preview.

(** * Properties of the offline cache controller *)

Module SWSpec.
Import SW.

(** ** Generic facts on the promise combinators *)

Lemma all_settled_fulfilled {A} (l : list A) :
  all_settled (Fulfilled <$> l) = Fulfilled l.
Proof. induction l as [|a l IH]; csimpl; [done|]. by rewrite IH. Qed.

Lemma all_settled_rejected {A} (rs : list (settled A)) :
  (∃ e, Rejected e ∈ rs) → ∃ e, all_settled rs = Rejected e.
Proof.
  induction rs as [|r rs IH]; intros [e He].
  - by apply elem_of_nil in He.
  - destruct r as [a|e']; simpl; [|by eexists].
    apply elem_of_cons in He as [He|He]; [done|].
    destruct IH as [e'' ->]; by eexists.
Qed.

(** ** Activation *)

Lemma caches_delete_run (n : string) (w : world) :
  caches_delete n w =
    (Fulfilled (has_cache n (caches w)),
     World (storage_delete n (caches w)) (oplog w ++ [OpDelete n])).
Proof. reflexivity. Qed.

Lemma start_all_cons {A} (p : promise A) (ps : list (promise A)) (w : world) :
  start_all (p :: ps) w =
    ((p w).1 :: (start_all ps (p w).2).1, (start_all ps (p w).2).2).
Proof. simpl. destruct (p w) as [r w1]. simpl. by destruct (start_all ps w1). Qed.

Lemma start_all_delete (ns : list string) (w : world) :
  ∃ bs, start_all (caches_delete <$> ns) w =
        (Fulfilled <$> bs,
         World (foldl (λ cs n, storage_delete n cs) (caches w) ns)
               (oplog w ++ (OpDelete <$> ns))).
Proof.
  revert w. induction ns as [|n ns IH]; intros w.
  - exists []. destruct w; simpl. by rewrite app_nil_r.
  - rewrite fmap_cons, start_all_cons, caches_delete_run. cbn [fst snd].
    destruct (IH (World (storage_delete n (caches w)) (oplog w ++ [OpDelete n])))
      as [bs ->].
    exists (has_cache n (caches w) :: bs). cbn [fst snd caches oplog foldl].
    by rewrite fmap_cons, <- app_assoc.
Qed.

Lemma foldl_storage_delete (ns : list string) (cs : cache_storage) :
  foldl (λ cs n, storage_delete n cs) cs ns = filter (λ e, e.1 ∉ ns) cs.
Proof.
  revert cs. induction ns as [|n ns IH]; intros cs; cbn [foldl].
  - induction cs as [|e cs IHcs]; [done|].
    rewrite filter_cons_True by (cbn; apply not_elem_of_nil). by rewrite <- IHcs.
  - rewrite IH. unfold storage_delete. rewrite list_filter_filter.
    apply list_filter_iff. intros e. rewrite not_elem_of_cons. tauto.
Qed.

Lemma filter_iff_on {A} (P Q : A → Prop)
    `{!∀ x, Decision (P x), !∀ x, Decision (Q x)} (l : list A) :
  (∀ x, x ∈ l → P x ↔ Q x) → filter P l = filter Q l.
Proof.
  induction l as [|a l IH]; intros HPQ; [done|].
  rewrite !filter_cons.
  rewrite IH by (intros x Hx; apply HPQ; by apply list_elem_of_further).
  apply decide_ext, HPQ, list_elem_of_here.
Qed.

Lemma filter_fst_eq {B} (x : string) (l : list (string * B)) :
  (filter (λ e, e.1 = x) l).*1 = filter (λ n, n = x) l.*1.
Proof.
  induction l as [|[n b] l IH]; [done|]. rewrite fmap_cons.
  rewrite !filter_cons. cbn [fst]. destruct (decide (n = x)); csimpl; by rewrite IH.
Qed.

Lemma filter_eq_NoDup (x : string) (l : list string) :
  NoDup l → filter (λ n, n = x) l = if decide (x ∈ l) then [x] else [].
Proof.
  induction 1 as [|n l Hn Hl IH]; [done|].
  rewrite filter_cons, IH. destruct (decide (n = x)) as [->|Hne].
  - rewrite decide_False by done. rewrite decide_True by apply list_elem_of_here. done.
  - destruct (decide (x ∈ l)) as [Hx|Hx].
    + rewrite decide_True by (by apply list_elem_of_further). done.
    + rewrite decide_False; [done|]. rewrite not_elem_of_cons. naive_solver.
Qed.


(** ** Installation *)

Lemma fetch_run (net : request → option response) (q : request) (w : world) :
  fetch net q w =
    (match net q with
     | Some r => Fulfilled r
     | None => Rejected "TypeError: Failed to fetch"
     end, World (caches w) (oplog w ++ [OpFetch q])).
Proof. unfold fetch, and_then, log. cbn [caches oplog]. by destruct (net q). Qed.

Lemma addAll_fetch_run (net : request → option response) (url : string) (w : world) :
  ∃ res, addAll_fetch net url w =
           (res, World (caches w) (oplog w ++ [OpFetch (GET url)]))
         ∧ (accepted net url →
              ∃ r, net (GET url) = Some r ∧ addAll_accepts r ∧ res = Fulfilled (GET url, r))
         ∧ (¬ accepted net url → ∃ e, res = Rejected e).
Proof.
  unfold addAll_fetch, and_then, accepted. rewrite fetch_run.
  destruct (net (GET url)) as [r|].
  - destruct (decide (addAll_accepts r)) as [Hr|Hr]; eexists;
      (split; [reflexivity|]); split.
    + intros _. by exists r.
    + intros []. by exists r.
    + intros (r' & [= <-] & Hr'). done.
    + intros _. by eexists.
  - eexists. split; [reflexivity|]. split.
    + by intros (r & [=] & _).
    + intros _. by eexists.
Qed.

Lemma start_all_addAll_fetch (net : request → option response)
    (urls : list string) (w : world) :
  ∃ rs, start_all (addAll_fetch net <$> urls) w =
          (rs, World (caches w) (oplog w ++ (OpFetch ∘ GET <$> urls)))
        ∧ (Forall (accepted net) urls →
             ∃ es, rs = Fulfilled <$> es
                   ∧ Forall2 (λ url e, e.1 = GET url ∧ net (GET url) = Some e.2
                                       ∧ addAll_accepts e.2) urls es)
        ∧ (¬ Forall (accepted net) urls → ∃ e, Rejected e ∈ rs).
Proof.
  revert w. induction urls as [|url urls IH]; intros w.
  - exists []. split; [destruct w; cbn; by rewrite app_nil_r|]. split.
    + intros _. exists []. split; [done|constructor].
    + intros []. constructor.
  - rewrite fmap_cons, start_all_cons.
    destruct (addAll_fetch_run net url w) as (res & -> & Hyes & Hno). cbn [fst snd].
    destruct (IH (World (caches w) (oplog w ++ [OpFetch (GET url)])))
      as (rs & -> & Hall & Hnot).
    exists (res :: rs). cbn [fst snd caches oplog].
    split; [by rewrite fmap_cons, <- app_assoc|]. split.
    + intros [Hurl Hurls]%Forall_cons.
      destruct (Hyes Hurl) as (r & Hr & Hacc & ->).
      destruct (Hall Hurls) as (es & -> & Hes). exists ((GET url, r) :: es).
      split; [done|]. by constructor.
    + intros Hn. destruct (decide (accepted net url)) as [Hurl|Hurl].
      * destruct Hnot as [e He].
        { intros Hurls. apply Hn. by constructor. }
        exists e. by apply list_elem_of_further.
      * destruct (Hno Hurl) as (e & ->). exists e. apply list_elem_of_here.
Qed.

Lemma storage_update_compose (name : string) (f g : cache → cache)
    (cs : cache_storage) :
  storage_update name f (storage_update name g cs) = storage_update name (f ∘ g) cs.
Proof.
  unfold storage_update. rewrite <- list_fmap_compose. apply list_fmap_ext.
  intros _ [n c] _. cbn. destruct (decide (n = name)); cbn; [|by rewrite decide_False].
  by rewrite decide_True.
Qed.

Lemma storage_update_id (name : string) (cs : cache_storage) :
  storage_update name (λ c, c) cs = cs.
Proof.
  unfold storage_update. rewrite <- (list_fmap_id cs) at 2. apply list_fmap_ext.
  intros _ [n c] _. cbn. by destruct (decide (n = name)).
Qed.

Lemma addAll_store_run (name : string) (e : request * response) (w : world) :
  addAll_store name e w =
    (Fulfilled (),
     World (storage_update name (cache_put e.1 e.2) (caches w))
           (oplog w ++ [OpPut name e.1])).
Proof. reflexivity. Qed.

Lemma start_all_addAll_store (name : string) (es : list (request * response))
    (w : world) :
  ∃ us, start_all (addAll_store name <$> es) w =
          (Fulfilled <$> us,
           World (storage_update name
                    (λ c, foldl (λ c e, cache_put e.1 e.2 c) c es) (caches w))
                 (oplog w ++ (OpPut name ∘ fst <$> es))).
Proof.
  revert w. induction es as [|e es IH]; intros w.
  - exists []. cbn. by rewrite storage_update_id, app_nil_r; destruct w.
  - rewrite fmap_cons, start_all_cons.
    rewrite addAll_store_run. cbn [fst snd].
    destruct (IH (World (storage_update name (cache_put e.1 e.2) (caches w))
                        (oplog w ++ [OpPut name e.1]))) as (us & ->).
    exists (() :: us). cbn [fst snd caches oplog].
    by rewrite storage_update_compose, fmap_cons, <- app_assoc.
Qed.

(** ** Looking a request up *)

Lemma cache_match_app (q : request) (c1 c2 : cache) :
  cache_match q (c1 ++ c2) =
    match cache_match q c1 with
    | Some r => Some r
    | None => cache_match q c2
    end.
Proof.
  induction c1 as [|e c1 IH]; [done|]. cbn [app cache_match].
  by destruct (decide (request_matches q e)).
Qed.

Lemma cache_match_miss (q : request) (c : cache) :
  Forall (λ e, ¬ request_matches q e) c → cache_match q c = None.
Proof.
  induction 1 as [|e c He _ IH]; [done|]. cbn [cache_match].
  by rewrite decide_False.
Qed.

Lemma cache_match_hit (q : request) (e : request * response) (before after : cache) :
  request_matches q e →
  Forall (λ e', ¬ request_matches q e') before →
  cache_match q (before ++ e :: after) = Some e.2.
Proof.
  intros He Hbefore. rewrite cache_match_app, (cache_match_miss q before Hbefore).
  cbn [cache_match]. by rewrite decide_True.
Qed.

(** [caches.match] goes through the caches in order, so through their
    entries in order. *)
Lemma storage_match_concat (q : request) (cs : cache_storage) :
  storage_match q cs = cache_match q (concat cs.*2).
Proof.
  induction cs as [|[n c] cs IH]; [done|].
  rewrite fmap_cons. cbn [storage_match snd concat].
  by rewrite cache_match_app, IH.
Qed.

(** ** What an install stores *)

Lemma matches_own (url : string) (r : response) :
  addAll_accepts r → matches_cached_item (GET url) (GET url, r).
Proof.
  intros (_ & _ & Hvary). split; [done|]. split; [done|].
  apply Forall_forall. intros field Hfield. split; [|done]. by intros ->.
Qed.

Lemma matches_other (url url' : string) (r : response) :
  url_without_fragment url ≠ url_without_fragment url' →
  ¬ matches_cached_item (GET url) (GET url', r).
Proof. intros Hne (_ & Heq & _). done. Qed.

Lemma filter_all {A} (P : A → Prop) `{!∀ x, Decision (P x)} (l : list A) :
  Forall P l → filter P l = l.
Proof.
  induction 1 as [|x l Hx _ IH]; [done|]. by rewrite filter_cons_True, IH.
Qed.

Lemma filter_none {A} (P : A → Prop) `{!∀ x, Decision (P x)} (l : list A) :
  Forall (λ x, ¬ P x) l → filter P l = [].
Proof.
  induction 1 as [|x l Hx _ IH]; [done|]. by rewrite filter_cons_False, IH.
Qed.

(** Storing the entries of URLs that differ before their fragments, one
    after the other, takes out the entries the requests for these URLs
    match and keeps the others. *)
Lemma foldl_cache_put (net : request → option response)
    (urls : list string) (es : list (request * response)) :
  Forall2 (λ url e, e.1 = GET url ∧ net (GET url) = Some e.2 ∧ addAll_accepts e.2)
    urls es →
  NoDup (url_without_fragment <$> urls) →
  ∀ c : cache,
    foldl (λ c e, cache_put e.1 e.2 c) c es =
      filter (λ x, Forall (λ url, ¬ matches_cached_item (GET url) x) urls) c ++ es.
Proof.
  induction 1 as [|u [q r] urls es (Hq & Hr & Hacc) Hes IH]; intros Hnd c.
  - cbn [foldl]. rewrite app_nil_r. symmetry. apply filter_all.
    apply Forall_forall. intros x _. constructor.
  - rewrite fmap_cons in Hnd. apply NoDup_cons in Hnd as [Hu Hnd].
    cbn in Hq. subst q. cbn [foldl fst snd]. rewrite (IH Hnd). unfold cache_put.
    rewrite filter_app, list_filter_filter, <- app_assoc. f_equal.
    + apply list_filter_iff. intros x. rewrite Forall_cons. tauto.
    + rewrite filter_cons_True, filter_nil; [done|].
      apply Forall_forall. intros u' Hu'. apply matches_other.
      intros Heq. apply Hu. rewrite <- Heq. by apply list_elem_of_fmap_2.
Qed.

Lemma cache_match_stored (net : request → option response)
    (urls : list string) (es : list (request * response)) :
  Forall2 (λ url e, e.1 = GET url ∧ net (GET url) = Some e.2 ∧ addAll_accepts e.2)
    urls es →
  NoDup (url_without_fragment <$> urls) →
  ∀ url, url ∈ urls →
    ∃ r, net (GET url) = Some r ∧ addAll_accepts r ∧ (GET url, r) ∈ es ∧
         cache_match (GET url) es = Some r.
Proof.
  induction 1 as [|u [q r] urls es (Hq & Hr & Hacc) Hes IH]; intros Hnd url Hurl.
  { by apply elem_of_nil in Hurl. }
  rewrite fmap_cons in Hnd. apply NoDup_cons in Hnd as [Hu Hnd].
  cbn in Hq, Hr, Hacc. subst q. cbn [cache_match].
  destruct (decide (url = u)) as [->|Hne].
  - exists r. split; [done|]. split; [done|]. split; [apply list_elem_of_here|].
    rewrite decide_True; [done|]. split; [done|]. by apply matches_own.
  - apply elem_of_cons in Hurl as [|Hurl]; [done|].
    destruct (IH Hnd url Hurl) as (r' & Hr' & Hacc' & Hin & Hm).
    exists r'. split; [done|]. split; [done|].
    split; [by apply list_elem_of_further|].
    rewrite decide_False; [done|]. intros [_ Hm'].
    revert Hm'. apply matches_other. intros Heq. apply Hu. rewrite <- Heq.
    by apply list_elem_of_fmap_2.
Qed.

Lemma cache_match_kept (urls : list string) (url : string) (c : cache) :
  url ∈ urls →
  cache_match (GET url)
    (filter (λ x, Forall (λ url, ¬ matches_cached_item (GET url) x) urls) c) = None.
Proof.
  intros Hurl. apply cache_match_miss, Forall_forall.
  intros x [Hx _]%list_elem_of_filter [_ Hm].
  rewrite Forall_forall in Hx. by apply (Hx url).
Qed.

Lemma urlsToCache_NoDup : NoDup (url_without_fragment <$> urlsToCache).
Proof. apply (bool_decide_unpack _). vm_compute. exact I. Qed.

Lemma storage_lookup_opened (name : string) (cs : cache_storage) :
  storage_lookup name (storage_open name cs) =
    Some (default [] (storage_lookup name cs)).
Proof.
  unfold storage_open, has_cache. case_bool_decide as Hin.
  - induction cs as [|[n c] cs IH]; [by apply elem_of_nil in Hin|].
    cbn [storage_lookup]. destruct (decide (n = name)); [done|].
    apply IH. rewrite fmap_cons in Hin. apply elem_of_cons in Hin as [Heq|]; [|done].
    cbn in Heq. congruence.
  - induction cs as [|[n c] cs IH]; cbn.
    + by rewrite decide_True.
    + rewrite fmap_cons, not_elem_of_cons in Hin. destruct Hin as [Hne Hin].
      cbn in Hne. rewrite decide_False by congruence. cbn [storage_lookup] .
      rewrite decide_False by congruence. by apply IH.
Qed.

Lemma storage_lookup_update (name : string) (f : cache → cache) (cs : cache_storage) :
  storage_lookup name (storage_update name f cs) = f <$> storage_lookup name cs.
Proof.
  induction cs as [|[n c] cs IH]; [done|]. cbn.
  destruct (decide (n = name)) as [->|Hne]; cbn.
  - by rewrite decide_True.
  - by rewrite decide_False.
Qed.

Lemma storage_lookup_open (name : string) (cs : cache_storage) :
  is_Some (storage_lookup name (storage_open name cs)).
Proof.
  unfold storage_open, has_cache.
  destruct (bool_decide_reflect (name ∈ cs.*1)) as [Hin|Hnin].
  - induction cs as [|[n c] cs IH]; [by apply elem_of_nil in Hin|].
    cbn. destruct (decide (n = name)); [by eexists|].
    apply IH. rewrite fmap_cons in Hin. apply elem_of_cons in Hin as [|]; [cbn in *; congruence|done].
  - clear Hnin. induction cs as [|[n c] cs IH]; cbn.
    + rewrite decide_True by done. by eexists.
    + destruct (decide (n = name)); [by eexists|done].
Qed.

(** The requests for URLs that differ before their fragments do not
    match one another's pairs. *)
Lemma no_batch_conflict (net : request → option response)
    (urls : list string) (es : list (request * response)) :
  Forall2 (λ url e, e.1 = GET url ∧ net (GET url) = Some e.2 ∧ addAll_accepts e.2)
    urls es →
  NoDup (url_without_fragment <$> urls) →
  ¬ batch_conflict es.
Proof.
  induction 1 as [|u [q r] urls es (Hq & _) Hes IH]; intros Hnd; [by intros []|].
  rewrite fmap_cons in Hnd. apply NoDup_cons in Hnd as [Hu Hnd].
  cbn in Hq. subst q. cbn [batch_conflict]. intros [Hex|Hrest]; [|by apply IH].
  apply Exists_exists in Hex as ([q' r'] & Hin & _ & Heq & _). cbn in Heq.
  apply Hu. clear -Hes Hin Heq.
  induction Hes as [|u' [q'' r''] urls es (Hq'' & _) Hes IH].
  { by apply elem_of_nil in Hin. }
  cbn in Hq''. subst q''. rewrite fmap_cons.
  apply elem_of_cons in Hin as [[= -> _]|Hin].
  - cbn in Heq. rewrite <- Heq. apply list_elem_of_here.
  - apply list_elem_of_further. by apply IH.
Qed.

(** What the install listener leaves, when every URL is accepted and
    when one is not. *)
Lemma on_install_run (net : request → option response) (w : world) :
  (Forall (accepted net) urlsToCache →
     ∃ es,
       Forall2 (λ url e, e.1 = GET url ∧ net (GET url) = Some e.2 ∧ addAll_accepts e.2)
         urlsToCache es ∧
       on_install net w =
         (Fulfilled (),
          World (storage_update CACHE_NAME
                   (λ c, foldl (λ c e, cache_put e.1 e.2 c) c es)
                   (storage_open CACHE_NAME (caches w)))
                (oplog w ++ OpOpen CACHE_NAME ::
                   (OpFetch ∘ GET <$> urlsToCache) ++
                   (OpPut CACHE_NAME ∘ fst <$> es)))) ∧
  (¬ Forall (accepted net) urlsToCache →
     ∃ e,
       on_install net w =
         (Rejected e,
          World (storage_open CACHE_NAME (caches w))
                (oplog w ++ OpOpen CACHE_NAME :: (OpFetch ∘ GET <$> urlsToCache)))).
Proof.
  destruct (start_all_addAll_fetch net urlsToCache
              (World (storage_open CACHE_NAME (caches w)) (oplog w ++ [OpOpen CACHE_NAME])))
    as (rs & Hrun & Hall & Hnot). cbn [caches oplog] in Hrun.
  split.
  - intros Hacc. destruct (Hall Hacc) as (es & -> & Hes). exists es. split; [done|].
    destruct (start_all_addAll_store CACHE_NAME es
                (World (storage_open CACHE_NAME (caches w))
                   ((oplog w ++ [OpOpen CACHE_NAME]) ++ (OpFetch ∘ GET <$> urlsToCache))))
      as (us & Hstore). cbn [caches oplog] in Hstore.
    unfold on_install, cache_addAll, caches_open, and_then, log, promise_all, resolve.
    cbn [caches oplog]. rewrite Hrun, all_settled_fulfilled.
    rewrite decide_False by (by apply (no_batch_conflict net urlsToCache), urlsToCache_NoDup).
    rewrite Hstore, all_settled_fulfilled.
    by rewrite <- !app_assoc.
  - intros Hacc. destruct (all_settled_rejected rs (Hnot Hacc)) as [e He]. exists e.
    unfold on_install, cache_addAll, caches_open, and_then, log, promise_all.
    cbn [caches oplog]. rewrite Hrun, He. by rewrite <- app_assoc.
Qed.

(** The versioned cache after an install that stored [es]. *)
Lemma installed_cache (net : request → option response)
    (es : list (request * response)) (cs : cache_storage) :
  Forall2 (λ url e, e.1 = GET url ∧ net (GET url) = Some e.2 ∧ addAll_accepts e.2)
    urlsToCache es →
  storage_lookup CACHE_NAME
    (storage_update CACHE_NAME (λ c, foldl (λ c e, cache_put e.1 e.2 c) c es)
       (storage_open CACHE_NAME cs)) =
    Some (filter (λ x, Forall (λ url, ¬ matches_cached_item (GET url) x) urlsToCache)
            (default [] (storage_lookup CACHE_NAME cs)) ++ es).
Proof.
  intros Hes. rewrite storage_lookup_update, storage_lookup_opened.
  cbn [fmap option_fmap option_map].
  by rewrite (foldl_cache_put net urlsToCache es Hes urlsToCache_NoDup).
Qed.

(** C1 (as amended). The fetch listener answers from the cache when a
    pair of the cache storage matches the request, with no call to the
    network: the answer is the response of the first pair, in the order
    of the caches and of their pairs, that matches as [caches.match]
    matches (the request is a GET, the URLs are equal up to the
    fragment, the headers the stored response varies on agree).  When no
    pair matches, the listener calls the network once and hands on what
    the network gave (its response or its failure).  In both cases the
    cache storage is left as it was: the only browser calls are the
    match and, on a miss, the one fetch. *)
Theorem fetch_cache_first_then_network (net : request → option response)
    (q : request) (w : world) :
  let matches (e : request * response) :=
    req_method q = "GET" ∧ req_method e.1 = "GET" ∧
    url_without_fragment (req_url q) = url_without_fragment (req_url e.1) ∧
    ∀ field, field ∈ resp_vary e.2 →
      field ≠ "*" ∧
      header_get field (req_headers e.1) = header_get field (req_headers q) in
  (∀ before e after,
     concat (caches w).*2 = before ++ e :: after →
     matches e →
     (∀ e', e' ∈ before → ¬ matches e') →
     on_fetch net q w =
       (Fulfilled e.2, World (caches w) (oplog w ++ [OpMatch q]))) ∧
  ((∀ e, e ∈ concat (caches w).*2 → ¬ matches e) →
     ∃ res, on_fetch net q w =
              (res, World (caches w) (oplog w ++ [OpMatch q; OpFetch q]))
            ∧ match net q with
              | Some r => res = Fulfilled r
              | None => ∃ e, res = Rejected e
              end).
Proof.
  cbv zeta.
  assert (Hspec : ∀ e,
    request_matches q e ↔
    req_method q = "GET" ∧ req_method e.1 = "GET" ∧
    url_without_fragment (req_url q) = url_without_fragment (req_url e.1) ∧
    ∀ field, field ∈ resp_vary e.2 →
      field ≠ "*" ∧
      header_get field (req_headers e.1) = header_get field (req_headers q)).
  { intros e. unfold request_matches, matches_cached_item. rewrite Forall_forall. tauto. }
  unfold on_fetch, caches_match, and_then, log. cbn [caches oplog].
  rewrite storage_match_concat. split.
  - intros before e after -> He Hbefore.
    rewrite (cache_match_hit q e before after); [done|by apply Hspec|].
    apply Forall_forall. intros e' He'. rewrite Hspec. by apply Hbefore.
  - intros Hmiss. rewrite (cache_match_miss q).
    2:{ apply Forall_forall. intros e He. rewrite Hspec. by apply Hmiss. }
    unfold fetch, and_then, log. cbn [caches oplog].
    rewrite <- app_assoc. cbn [app].
    destruct (net q) as [r|]; eexists; (split; [reflexivity|]); eauto.
Qed.

(** C1 as the claim words it fails for a request that differs from the
    stored request by its fragment: no stored request is the request for
    [/login#top], and yet the listener answers it from the pair stored
    for [/login] and does not call the network. *)
Lemma fragment_request_answered_from_cache :
  let net q := Some (Response 200 [] ("network " +:+ req_url q)) in
  let w := World [(CACHE_NAME, [(GET "/", Response 200 [] "home");
                                (GET "/login", Response 200 [] "login")])] [] in
  let q := GET "/login#top" in
  (∀ e, e ∈ concat (caches w).*2 → e.1 ≠ q) ∧
  on_fetch net q w = (Fulfilled (Response 200 [] "login"), World (caches w) [OpMatch q]).
Proof.
  cbv zeta. split; [|vm_compute; reflexivity].
  intros e He. cbn in He. repeat (apply elem_of_cons in He as [->|He]; [discriminate|]).
  by apply elem_of_nil in He.
Qed.

(** A request that no pair matches goes to the network; so does a
    request whose [Accept] header differs from the stored request's when
    the stored response varies on it. *)
Example fetch_examples :
  let net q := Some (Response 200 [] ("network " +:+ req_url q)) in
  let html := Request "GET" "/page" [("Accept", "text/html")] in
  let json := Request "GET" "/page" [("accept", "application/json")] in
  let w := World [(CACHE_NAME, [(GET "/", Response 200 [] "home");
                                (html, Response 200 ["Accept"] "page")])] [] in
  on_fetch net (GET "/about") w =
    (Fulfilled (Response 200 [] "network /about"),
     World (caches w) [OpMatch (GET "/about"); OpFetch (GET "/about")]) ∧
  on_fetch net html w =
    (Fulfilled (Response 200 ["Accept"] "page"), World (caches w) [OpMatch html]) ∧
  on_fetch net json w =
    (Fulfilled (Response 200 [] "network /page"),
     World (caches w) [OpMatch json; OpFetch json]).
Proof. cbv zeta. repeat split; vm_compute; reflexivity. Qed.

(** C2 (as amended). From a cache storage with distinct names, activation
    issues [caches.delete] for exactly the names other than [CACHE_NAME],
    and leaves exactly the caches named [CACHE_NAME]: that one cache when
    it was there at the start, none otherwise. *)
Theorem activate_keeps_only_current (w : world) :
  NoDup (caches w).*1 →
  ∃ bs w',
    on_activate w = (Fulfilled bs, w') ∧
    oplog w' =
      oplog w ++ OpKeys :: (OpDelete <$> filter (λ n, n ≠ CACHE_NAME) (caches w).*1) ∧
    caches w' = filter (λ e, e.1 = CACHE_NAME) (caches w) ∧
    (caches w').*1 = (if has_cache CACHE_NAME (caches w) then [CACHE_NAME] else []).
Proof.
  intros Hnd. unfold on_activate, caches_keys, and_then, log, promise_all.
  cbn [caches oplog].
  destruct (start_all_delete (filter (λ n, n ≠ CACHE_NAME) (caches w).*1)
              (World (caches w) (oplog w ++ [OpKeys]))) as [bs ->].
  exists bs. eexists. rewrite all_settled_fulfilled. split; [reflexivity|].
  cbn [caches oplog].
  assert (Hc : foldl (λ cs n, storage_delete n cs) (caches w)
                 (filter (λ n, n ≠ CACHE_NAME) (caches w).*1)
               = filter (λ e, e.1 = CACHE_NAME) (caches w)).
  { rewrite foldl_storage_delete. apply filter_iff_on. intros e He.
    rewrite list_elem_of_filter. split.
    - intros Hn. destruct (decide (e.1 = CACHE_NAME)) as [|Hne]; [done|].
      destruct Hn. split; [done|]. by apply list_elem_of_fmap_2.
    - intros -> [Hne _]. done. }
  split; [by rewrite <- app_assoc|]. split; [done|].
  rewrite Hc, filter_fst_eq, filter_eq_NoDup by done.
  unfold has_cache. case_bool_decide; [by rewrite decide_True|by rewrite decide_False].
Qed.

(** Activation from the previous version's cache and the current one. *)
Lemma activate_keeps_only_current_witness :
  ∃ bs w',
    on_activate (World [("fruitveg-cache-v1", []); (CACHE_NAME, [])] []) = (Fulfilled bs, w') ∧
    (caches w').*1 = [CACHE_NAME].
Proof.
  destruct (activate_keeps_only_current
              (World [("fruitveg-cache-v1", []); (CACHE_NAME, [])] []))
    as (bs & w' & H1 & _ & _ & H2).
  - apply (bool_decide_unpack _). vm_compute. exact I.
  - exists bs, w'. split; [exact H1|exact H2].
Defined.

(** C2 as the claim words it fails when the current cache is not among
    the starting caches: activation only deletes, so no cache is left. *)
Lemma activate_without_current_cache :
  let w := World [("fruitveg-cache-v1", [])] [] in
  NoDup (caches w).*1 ∧
  caches (on_activate w).2 = [] ∧
  ¬ (∃ c, caches (on_activate w).2 = [(CACHE_NAME, c)]).
Proof.
  cbn zeta. split; [|split].
  - cbn. apply NoDup_singleton.
  - vm_compute. reflexivity.
  - intros [c Hc]. vm_compute in Hc. discriminate Hc.
Qed.


(** C7. The install listener opens the cache [CACHE_NAME] and requests
    the eleven listed URLs.  When the network answers every one of them
    with a response [cache.addAll] accepts (an ok status other than 206,
    no [Vary: *]), the install promise fulfils, a pair is stored for
    each URL and each URL is answered from that cache with the response
    the network gave.  When one of them is not so answered (a network
    error or a response [cache.addAll] does not accept) the install
    promise rejects and nothing is stored: the storage is as
    [caches.open] left it, the versioned cache holding what it held
    before, and the only browser calls are the open and the eleven
    fetches. *)
Theorem install_all_or_nothing (net : request → option response) (w : world) :
  length urlsToCache = 11 ∧
  ((∀ url, url ∈ urlsToCache →
      ∃ r, net (GET url) = Some r ∧
           (200 ≤ resp_status r ≤ 299)%Z ∧ resp_status r ≠ 206%Z ∧ "*" ∉ resp_vary r) →
     ∃ (w' : world) (c es : cache),
       on_install net w = (Fulfilled (), w') ∧
       oplog w' =
         oplog w ++ OpOpen CACHE_NAME :: (OpFetch ∘ GET <$> urlsToCache) ++
           (OpPut CACHE_NAME ∘ fst <$> es) ∧
       es.*1 = GET <$> urlsToCache ∧
       storage_lookup CACHE_NAME (caches w') = Some c ∧
       ∀ url, url ∈ urlsToCache →
         ∃ r, net (GET url) = Some r ∧ (GET url, r) ∈ c ∧
              cache_match (GET url) c = Some r) ∧
  ((∃ url, url ∈ urlsToCache ∧
      ∀ r, net (GET url) = Some r →
        ¬ ((200 ≤ resp_status r ≤ 299)%Z ∧ resp_status r ≠ 206%Z ∧ "*" ∉ resp_vary r)) →
     ∃ e w',
       on_install net w = (Rejected e, w') ∧
       caches w' = storage_open CACHE_NAME (caches w) ∧
       storage_lookup CACHE_NAME (caches w') =
         Some (default [] (storage_lookup CACHE_NAME (caches w))) ∧
       oplog w' = oplog w ++ OpOpen CACHE_NAME :: (OpFetch ∘ GET <$> urlsToCache)).
Proof.
  split; [reflexivity|].
  destruct (on_install_run net w) as [Hyes Hno]. split.
  - intros Hall.
    destruct Hyes as (es & Hes & ->); [by apply Forall_forall|].
    eexists _, _, es. split; [reflexivity|]. cbn [caches oplog].
    split; [done|]. split.
    { clear -Hes. induction Hes as [|u [q r] urls es (Hq & _) _ IH]; [done|].
      rewrite !fmap_cons. cbn in Hq. cbn [fst]. by rewrite Hq, IH. }
    split; [by apply (installed_cache net)|].
    intros url Hurl.
    destruct (cache_match_stored net urlsToCache es Hes urlsToCache_NoDup url Hurl)
      as (r & Hr & _ & Hin & Hm).
    exists r. split; [done|]. split; [rewrite elem_of_app; by right|].
    by rewrite cache_match_app, cache_match_kept, Hm.
  - intros (url & Hurl & Hbad).
    destruct Hno as (e & ->).
    { rewrite Forall_forall. intros Hall. destruct (Hall url Hurl) as (r & Hr & Hacc).
      by apply (Hbad r). }
    exists e. eexists. split; [reflexivity|]. cbn [caches oplog].
    split; [done|]. split; [apply storage_lookup_opened|done].
Qed.

(** An install with [/login] unreachable, or answered with the status
    206, stores nothing; with every URL answered with the status 200 the
    cache holds the eleven entries. *)
Example install_examples :
  let offline q := if decide (req_url q = "/login") then None
                   else Some (Response 200 [] (req_url q)) in
  let partial q := Some (Response (if decide (req_url q = "/login") then 206 else 200)
                           [] (req_url q)) in
  let online q := Some (Response 200 [] (req_url q)) in
  let w := World [] [] in
  (on_install offline w).1 = Rejected "TypeError: Failed to fetch" ∧
  caches (on_install offline w).2 = [(CACHE_NAME, [])] ∧
  (on_install partial w).1 = Rejected "TypeError: Request failed" ∧
  caches (on_install partial w).2 = [(CACHE_NAME, [])] ∧
  (on_install online w).1 = Fulfilled () ∧
  (length <$> storage_lookup CACHE_NAME (caches (on_install online w).2)) = Some 11.
Proof. cbv zeta. repeat split; vm_compute; reflexivity. Qed.

(** A batch in which the second request matches the pair of the first
    is refused, and nothing is stored. *)
Example addAll_conflict_example :
  let net q := Some (Response 200 [] (req_url q)) in
  let w := World [("c", [])] [] in
  (cache_addAll net "c" ["/a"; "/a#top"] w).1 = Rejected "InvalidStateError" ∧
  caches (cache_addAll net "c" ["/a"; "/a#top"] w).2 = [("c", [])].
Proof. cbv zeta. split; vm_compute; reflexivity. Qed.

End SWSpec.

(** * Properties of [classList] *)

Module DOMSpec.
Import DOM.

Lemma classList_remove_spec (c x : string) (l : list string) :
  x ∈ classList_remove c l ↔ x ≠ c ∧ x ∈ l.
Proof. unfold classList_remove. by rewrite list_elem_of_filter. Qed.

Lemma classList_add_spec (c x : string) (l : list string) :
  x ∈ classList_add c l ↔ x = c ∨ x ∈ l.
Proof.
  unfold classList_add. destruct (decide (c ∈ l)) as [Hc|Hc].
  - split; [by right|]. intros [-> | H]; done.
  - rewrite elem_of_app, list_elem_of_singleton. tauto.
Qed.

Lemma classList_toggle_spec (c x : string) (l : list string) :
  x ∈ classList_toggle c l ↔ (x = c ∧ c ∉ l) ∨ (x ≠ c ∧ x ∈ l).
Proof.
  unfold classList_toggle. destruct (decide (c ∈ l)) as [Hc|Hc].
  - rewrite classList_remove_spec. tauto.
  - rewrite elem_of_app, list_elem_of_singleton.
    destruct (decide (x = c)) as [->|Hne]; tauto.
Qed.

Lemma classList_toggle_self (c : string) (l : list string) :
  c ∈ classList_toggle c l ↔ c ∉ l.
Proof. rewrite classList_toggle_spec. intuition congruence. Qed.

Lemma classList_toggle_other (c d : string) (l : list string) :
  c ≠ d → c ∈ classList_toggle d l ↔ c ∈ l.
Proof. intros Hne. rewrite classList_toggle_spec. intuition congruence. Qed.

End DOMSpec.

(** * Properties of the string helpers *)

Module JSSpec.
Import JS.

Lemma strip_one_whitespace (p rest : string) :
  p ∈ whitespace → strip_one whitespace (p +:+ rest) = Some rest.
Proof.
  unfold whitespace. intros H.
  repeat (apply elem_of_cons in H as [-> | H]; [vm_compute; reflexivity|]).
  by apply elem_of_nil in H.
Qed.

Lemma whitespace_nonempty (p : string) : p ∈ whitespace → (1 ≤ String.length p)%nat.
Proof.
  unfold whitespace. intros H.
  repeat (apply elem_of_cons in H as [-> | H]; [vm_compute; lia|]).
  by apply elem_of_nil in H.
Qed.

Lemma string_length_app (s1 s2 : string) :
  String.length (s1 +:+ s2) = String.length s1 + String.length s2.
Proof.
  induction s1 as [|a s1 IH]; [done|].
  change (S (String.length (s1 +:+ s2)) = S (String.length s1) + String.length s2).
  by rewrite IH.
Qed.

Lemma join_empty_cons (p : string) (pieces : list string) :
  join_empty (p :: pieces) = p +:+ join_empty pieces.
Proof. reflexivity. Qed.

Lemma strip_leading_blank (pieces : list string) (fuel : nat) :
  Forall (λ p, p ∈ whitespace) pieces →
  (length pieces ≤ fuel)%nat →
  strip_leading whitespace fuel (join_empty pieces) = EmptyString.
Proof.
  intros Hws. revert fuel. induction Hws as [|p pieces Hp _ IH]; intros fuel Hfuel.
  - by destruct fuel.
  - destruct fuel as [|fuel]; [cbn in Hfuel; lia|].
    rewrite join_empty_cons. cbn [strip_leading]. rewrite strip_one_whitespace by done.
    apply IH. cbn in Hfuel. lia.
Qed.

Lemma join_empty_length (pieces : list string) :
  Forall (λ p, p ∈ whitespace) pieces →
  (length pieces ≤ String.length (join_empty pieces))%nat.
Proof.
  induction 1 as [|p pieces Hp _ IH]; [done|].
  rewrite join_empty_cons, string_length_app. cbn [length].
  apply whitespace_nonempty in Hp. lia.
Qed.

(** A string made of white space only trims to the empty string. *)
Lemma trim_blank (pieces : list string) :
  Forall (λ p, p ∈ whitespace) pieces →
  trim (join_empty pieces) = EmptyString.
Proof.
  intros Hws. unfold trim, trimStart.
  rewrite strip_leading_blank; [reflexivity|done|by apply join_empty_length].
Qed.

(** The body of the request for the prompt [hello]. *)
Example stringify_prompt_hello :
  stringify_prompt "hello" =
    "{" +:+ dq +:+ "prompt" +:+ dq +:+ ":" +:+ dq +:+ "hello" +:+ dq +:+ "}".
Proof. reflexivity. Qed.

Example trim_examples :
  trim "  hello world  " = "hello world" ∧
  trim (bytes [9; 10; 32]) = EmptyString ∧
  trim (bytes [194; 160] +:+ "a b" +:+ bytes [226; 128; 168]) = "a b".
Proof. repeat split. Qed.

End JSSpec.

(** * Properties of the chat widget *)

Module ChatSpec.
Import JS DOM Chat DOMSpec.

(** Unfolds the statements of a handler down to the record they build. *)
Ltac chat_unfold :=
  cbv beta iota zeta delta
    [then_ skip rejects appendMessage appendTypingIndicator
     removeTypingIndicator appendChild emit set_panel set_messages
     set_inputValue set_typingEl set_created set_sent set_pending
     panel messages inputValue typingEl created sent pending trace node_id
     prompt_of destructure_reply negb].

Lemma truthy_nonempty (s : string) : s ≠ EmptyString → truthy s = true.
Proof. intros Hs. unfold truthy. by rewrite bool_decide_false. Qed.

Lemma truthy_opt_prompt (text : option string) (st : chat) :
  prompt_of text st ≠ EmptyString →
  truthy_opt text = match text with None => false | Some _ => true end.
Proof. destruct text as [t|]; [|done]. cbn. apply truthy_nonempty. Qed.

(** The state [sendMessage] leaves when the prompt is not empty. *)
Lemma sendMessage_run (text : option string) (st : chat) :
  prompt_of text st ≠ EmptyString →
  sendMessage text st =
    let prompt := prompt_of text st in
    let user := Node (created st) "message user" (bubble prompt) in
    let typing := Node (S (created st)) "message bot" (bubble typing_text) in
    Chat_ (panel st)
      (messages st ++ [user; typing])
      (match text with None => EmptyString | Some _ => inputValue st end)
      (Some (S (created st)))
      (S (S (created st)))
      (S (sent st))
      (pending st ++ [sent st])
      (trace st ++ AppendChild user ::
         match text with None => [SetInputValue EmptyString] | Some _ => [] end ++
         [AppendChild typing; Fetch (sent st) (berrybot_call prompt)]).
Proof.
  intros Hp. unfold sendMessage.
  rewrite (truthy_nonempty _ Hp), (truthy_opt_prompt _ _ Hp).
  destruct st, text as [t|]; chat_unfold; rewrite <- ?app_assoc; reflexivity.
Qed.

Lemma sendMessage_blank (text : option string) (st : chat) :
  prompt_of text st = EmptyString → sendMessage text st = st.
Proof. intros Hp. unfold sendMessage. by rewrite Hp. Qed.

(** The state the rest of [sendMessage] leaves when the body can be
    destructured. *)
Lemma sendMessage_resume_reply (k : nat) (v : json) (reply : option json)
    (st : chat) :
  k ∈ pending st →
  destructure_reply v = Some reply →
  sendMessage_resume k (Body v) st =
    let bot := Node (created st) "message bot" (bubble (template reply)) in
    Chat_ (panel st)
      (match typingEl st with
       | None => messages st
       | Some id => filter (λ n, node_id n ≠ id) (messages st)
       end ++ [bot])
      (inputValue st) (typingEl st) (S (created st)) (sent st)
      (filter (λ j, j ≠ k) (pending st))
      (trace st ++
         match typingEl st with None => [] | Some id => [RemoveChild id] end ++
         [AppendChild bot]).
Proof.
  intros Hk Hv. unfold sendMessage_resume. rewrite decide_True by done.
  rewrite Hv.
  destruct st as [p ms iv [id|] c s pd tr]; chat_unfold;
    rewrite <- ?app_assoc; reflexivity.
Qed.

(** The state the rest of [sendMessage] leaves when the request fails. *)
Lemma sendMessage_resume_failure (k : nat) (o : outcome) (st : chat) :
  k ∈ pending st →
  o = NetworkError ∨ o = NotJSON ∨ (∃ v, o = Body v ∧ destructure_reply v = None) →
  ∃ reason,
    sendMessage_resume k o st =
      Chat_ (panel st) (messages st) (inputValue st) (typingEl st)
        (created st) (sent st) (filter (λ j, j ≠ k) (pending st))
        (trace st ++ [UnhandledRejection k reason]).
Proof.
  intros Hk [-> | [-> | (v & -> & Hv)]]; unfold sendMessage_resume;
    rewrite decide_True by done; rewrite ?Hv; chat_unfold; eexists; reflexivity.
Qed.

Lemma filter_fresh_id (ms : list node) (id : nat) :
  (∀ n, n ∈ ms → node_id n < id) → filter (λ n, node_id n ≠ id) ms = ms.
Proof.
  induction ms as [|m ms IH]; intros Hlt; [done|].
  rewrite filter_cons_True.
  - rewrite IH; [done|]. intros n Hn. apply Hlt. by apply list_elem_of_further.
  - specialize (Hlt m (list_elem_of_here _ _)). cbn. lia.
Qed.

Lemma filter_drop_last (ks : list nat) (k : nat) :
  (∀ j, j ∈ ks → j < k) → filter (λ j, j ≠ k) (ks ++ [k]) = ks.
Proof.
  intros Hlt. rewrite filter_app, filter_cons_False, filter_nil, app_nil_r by (cbn; tauto).
  induction ks as [|j ks IH]; [done|].
  rewrite filter_cons_True.
  - rewrite IH; [done|]. intros i Hi. apply Hlt. by apply list_elem_of_further.
  - specialize (Hlt j (list_elem_of_here _ _)). cbn. lia.
Qed.


(** ** Elements that stay in the transcript *)

Lemma stuck_sendMessage (n : node) (text : option string) (st : chat) :
  stuck n st → stuck n (sendMessage text st).
Proof.
  intros (Hin & Hid & Hty).
  destruct (decide (prompt_of text st = EmptyString)) as [Hp|Hp].
  { rewrite sendMessage_blank by done. done. }
  rewrite sendMessage_run by done. unfold stuck. cbn.
  split; [rewrite elem_of_app; by left|].
  split; [lia|]. intros [=]. lia.
Qed.

Lemma stuck_resume (n : node) (k : nat) (o : outcome) (st : chat) :
  stuck n st → stuck n (sendMessage_resume k o st).
Proof.
  intros (Hin & Hid & Hty).
  destruct (decide (k ∈ pending st)) as [Hk|Hk];
    [|unfold sendMessage_resume; by rewrite decide_False].
  assert (Hne : typingEl st ≠ Some (node_id n)).
  { intros Heq. rewrite (Hty Heq) in Hk. by apply elem_of_nil in Hk. }
  assert (Hfail : ∀ reason,
    stuck n (Chat_ (panel st) (messages st) (inputValue st) (typingEl st)
               (created st) (sent st) (filter (λ j, j ≠ k) (pending st))
               (trace st ++ [UnhandledRejection k reason]))).
  { intros reason. unfold stuck. cbn. done. }
  destruct o as [| |v].
  - destruct (sendMessage_resume_failure k NetworkError st Hk) as [r ->]; auto.
  - destruct (sendMessage_resume_failure k NotJSON st Hk) as [r ->]; auto.
  - destruct (destructure_reply v) as [reply|] eqn:Hv.
    + rewrite (sendMessage_resume_reply k v reply st Hk Hv). unfold stuck. cbn.
      split; [|split; [lia|done]].
      rewrite elem_of_app. left.
      destruct (typingEl st) as [id|]; [|done].
      apply list_elem_of_filter. split; [|done]. congruence.
    + destruct (sendMessage_resume_failure k (Body v) st Hk) as [r ->]; eauto.
Qed.

Lemma stuck_step (n : node) (e : event) (st : chat) :
  stuck n st → stuck n (step e st).
Proof.
  destruct e as [|supported|transcripts| |key|value|k o]; cbn [step].
  - intros H. destruct st. exact H.
  - intros H. destruct st, supported; exact H.
  - apply stuck_sendMessage.
  - apply stuck_sendMessage.
  - unfold on_keypress. destruct (decide (key = "Enter")); [apply stuck_sendMessage|done].
  - intros H. destruct st. exact H.
  - apply stuck_resume.
Qed.

Lemma stuck_run (n : node) (es : list event) (st : chat) :
  stuck n st → stuck n (run es st).
Proof.
  revert st. induction es as [|e es IH]; intros st Hst; [done|].
  cbn [run]. apply IH. by apply stuck_step.
Qed.


(** ** Well-formed states *)

Lemma wf_loaded : wf loaded.
Proof. split; cbn; intros ? H; by apply elem_of_nil in H. Qed.

Lemma wf_sendMessage (text : option string) (st : chat) :
  wf st → wf (sendMessage text st).
Proof.
  intros (Hms & Hpd).
  destruct (decide (prompt_of text st = EmptyString)) as [Hp|Hp].
  { by rewrite sendMessage_blank. }
  rewrite sendMessage_run by done. split; cbn [messages created pending sent].
  - intros n. rewrite elem_of_app, !elem_of_cons, elem_of_nil.
    intros [Hn | [-> | [-> | []]]]; [specialize (Hms n Hn)|cbn..]; lia.
  - intros k. rewrite elem_of_app, list_elem_of_singleton.
    intros [Hk | ->]; [specialize (Hpd k Hk)|]; lia.
Qed.

Lemma wf_resume (k : nat) (o : outcome) (st : chat) :
  wf st → wf (sendMessage_resume k o st).
Proof.
  intros (Hms & Hpd).
  destruct (decide (k ∈ pending st)) as [Hk|Hk];
    [|unfold sendMessage_resume; by rewrite decide_False].
  assert (Hpd' : ∀ j, j ∈ filter (λ j, j ≠ k) (pending st) → j < sent st).
  { intros j [_ Hj]%list_elem_of_filter. by apply Hpd. }
  assert (Hfail : ∀ reason,
    wf (Chat_ (panel st) (messages st) (inputValue st) (typingEl st)
          (created st) (sent st) (filter (λ j, j ≠ k) (pending st))
          (trace st ++ [UnhandledRejection k reason]))).
  { intros reason. by split. }
  destruct o as [| |v].
  - destruct (sendMessage_resume_failure k NetworkError st Hk) as [r ->]; auto.
  - destruct (sendMessage_resume_failure k NotJSON st Hk) as [r ->]; auto.
  - destruct (destructure_reply v) as [reply|] eqn:Hv.
    + rewrite (sendMessage_resume_reply k v reply st Hk Hv).
      split; cbn [messages created pending sent]; [|done].
      intros n. rewrite elem_of_app, list_elem_of_singleton.
      intros [Hn | ->]; [|cbn; lia].
      assert (n ∈ messages st) as Hn'.
      { destruct (typingEl st); [|done]. by apply list_elem_of_filter in Hn as [_ ?]. }
      specialize (Hms n Hn'). lia.
    + destruct (sendMessage_resume_failure k (Body v) st Hk) as [r ->]; eauto.
Qed.

(** Every state the widget reaches from the loaded page is well formed. *)
Lemma wf_run (es : list event) (st : chat) : wf st → wf (run es st).
Proof.
  revert st. induction es as [|e es IH]; intros st Hst; [done|].
  cbn [run]. apply IH.
  destruct e as [|supported|transcripts| |key|value|k o]; cbn [step].
  - by destruct st.
  - by destruct st, supported.
  - by apply wf_sendMessage.
  - by apply wf_sendMessage.
  - unfold on_keypress. destruct (decide (key = "Enter")); [by apply wf_sendMessage|done].
  - by destruct st.
  - by apply wf_resume.
Qed.

(** ** The requests of a trace *)

Lemma fetches_app (l1 l2 : list effect) : fetches (l1 ++ l2) = fetches l1 ++ fetches l2.
Proof. apply omap_app. Qed.

Lemma fetches_sendMessage (text : option string) (st : chat) :
  fetches (trace (sendMessage text st)) =
    fetches (trace st) ++
      (if decide (prompt_of text st = EmptyString) then []
       else [berrybot_call (prompt_of text st)]).
Proof.
  destruct (decide (prompt_of text st = EmptyString)) as [Hp|Hp].
  - by rewrite sendMessage_blank, app_nil_r.
  - rewrite sendMessage_run by done. cbn [trace]. rewrite fetches_app. f_equal.
    by destruct text.
Qed.

Lemma fetches_resume (k : nat) (o : outcome) (st : chat) :
  fetches (trace (sendMessage_resume k o st)) = fetches (trace st).
Proof.
  destruct (decide (k ∈ pending st)) as [Hk|Hk];
    [|unfold sendMessage_resume; by rewrite decide_False].
  assert (Hfail : ∀ reason,
    fetches (trace st ++ [UnhandledRejection k reason]) = fetches (trace st)).
  { intros reason. by rewrite fetches_app, app_nil_r. }
  destruct o as [| |v].
  - destruct (sendMessage_resume_failure k NetworkError st Hk) as [r ->]; [auto|].
    apply Hfail.
  - destruct (sendMessage_resume_failure k NotJSON st Hk) as [r ->]; [auto|].
    apply Hfail.
  - destruct (destructure_reply v) as [reply|] eqn:Hv.
    + rewrite (sendMessage_resume_reply k v reply st Hk Hv). cbn [trace].
      rewrite fetches_app. destruct (typingEl st); by rewrite app_nil_r.
    + destruct (sendMessage_resume_failure k (Body v) st Hk) as [r ->]; [eauto|].
      apply Hfail.
Qed.

(** ** What the events in between leave alone *)

(** What the rest of [sendMessage] does to the widget's state. *)
Lemma resume_fields (k : nat) (o : outcome) (st : chat) :
  k ∈ pending st →
  let st' := sendMessage_resume k o st in
  typingEl st' = typingEl st ∧
  pending st' = filter (λ j, j ≠ k) (pending st) ∧
  ((messages st' = messages st ∧ created st' = created st) ∨
   (∃ text,
      messages st' =
        match typingEl st with
        | None => messages st
        | Some id => filter (λ n, node_id n ≠ id) (messages st)
        end ++ [Node (created st) "message bot" (bubble text)] ∧
      created st' = S (created st))).
Proof.
  intros Hk. cbv zeta.
  assert (Hfail : ∀ o', o' = NetworkError ∨ o' = NotJSON ∨
                        (∃ v, o' = Body v ∧ destructure_reply v = None) →
    typingEl (sendMessage_resume k o' st) = typingEl st ∧
    pending (sendMessage_resume k o' st) = filter (λ j, j ≠ k) (pending st) ∧
    ((messages (sendMessage_resume k o' st) = messages st ∧
      created (sendMessage_resume k o' st) = created st) ∨
     (∃ text,
        messages (sendMessage_resume k o' st) =
          match typingEl st with
          | None => messages st
          | Some id => filter (λ n, node_id n ≠ id) (messages st)
          end ++ [Node (created st) "message bot" (bubble text)] ∧
        created (sendMessage_resume k o' st) = S (created st)))).
  { intros o' Ho'. destruct (sendMessage_resume_failure k o' st Hk Ho') as [reason ->].
    cbn [typingEl pending messages created]. split; [done|]. split; [done|]. by left. }
  destruct o as [| |v]; [apply Hfail; auto..|].
  destruct (destructure_reply v) as [reply|] eqn:Hv; [|apply Hfail; eauto].
  rewrite (sendMessage_resume_reply k v reply st Hk Hv).
  cbn [typingEl pending messages created]. split; [done|]. split; [done|].
  right. by eexists.
Qed.

Lemma resume_not_pending (k : nat) (o : outcome) (st : chat) :
  k ∉ pending st → sendMessage_resume k o st = st.
Proof. intros Hk. unfold sendMessage_resume. by rewrite decide_False. Qed.

(** An event never lowers the number of elements created and never
    empties [typingEl]; a request stays waited for until its own
    response comes. *)
Lemma step_grows (e : event) (st : chat) :
  (created st ≤ created (step e st))%nat ∧
  (is_Some (typingEl st) → is_Some (typingEl (step e st))) ∧
  (∀ k, k ∈ pending st → (∀ o, e ≠ Response k o) → k ∈ pending (step e st)).
Proof.
  assert (Hsend : ∀ text,
    (created st ≤ created (sendMessage text st))%nat ∧
    (is_Some (typingEl st) → is_Some (typingEl (sendMessage text st))) ∧
    (∀ k, k ∈ pending st → (∀ o, e ≠ Response k o) → k ∈ pending (sendMessage text st))).
  { intros text. destruct (decide (prompt_of text st = EmptyString)) as [Hp|Hp].
    - rewrite sendMessage_blank by done. split; [lia|]. split; auto.
    - rewrite sendMessage_run by done. cbn [created typingEl pending].
      split; [lia|]. split; [by eexists|]. intros k Hk _. rewrite elem_of_app. by left. }
  destruct e as [|supported|transcripts| |key|value|k o]; cbn [step].
  - destruct st. cbn. split; [lia|]. split; auto.
  - destruct st, supported; cbn; (split; [lia|]); split; auto.
  - apply Hsend.
  - apply Hsend.
  - unfold on_keypress. destruct (decide (key = "Enter")); [apply Hsend|].
    unfold skip. split; [lia|]. split; auto.
  - destruct st. cbn. split; [lia|]. split; auto.
  - destruct (decide (k ∈ pending st)) as [Hk|Hk].
    + destruct (resume_fields k o st Hk) as (Hty & Hpd & Hms). cbv zeta in *.
      split; [destruct Hms as [[_ ->] | (? & _ & ->)]; lia|].
      split; [by rewrite Hty|].
      intros j Hj Hne. rewrite Hpd. apply list_elem_of_filter. split; [|done].
      intros ->. by apply (Hne o).
    + rewrite resume_not_pending by done. split; [lia|]. split; auto.
Qed.

Lemma run_grows (es : list event) (st : chat) :
  (created st ≤ created (run es st))%nat ∧
  (is_Some (typingEl st) → is_Some (typingEl (run es st))) ∧
  (∀ k, k ∈ pending st → (∀ o, Response k o ∉ es) → k ∈ pending (run es st)).
Proof.
  revert st. induction es as [|e es IH]; intros st.
  { split; [done|]. split; auto. }
  cbn [run]. destruct (step_grows e st) as (Hc & Hty & Hpd).
  destruct (IH (step e st)) as (Hc' & Hty' & Hpd').
  split; [lia|]. split; [auto|].
  intros k Hk Hes. apply Hpd'.
  - apply Hpd; [done|]. intros o ->. apply (Hes o), list_elem_of_here.
  - intros o Ho. apply (Hes o). by apply list_elem_of_further.
Qed.

(** The requests of a trace only grow. *)
Lemma fetches_step_grows (e : event) (st : chat) :
  ∃ new, fetches (trace (step e st)) = fetches (trace st) ++ new.
Proof.
  destruct e as [|supported|transcripts| |key|value|k o]; cbn [step].
  - exists []. destruct st. cbn. by rewrite app_nil_r.
  - exists []. destruct st, supported; cbn; rewrite fetches_app; cbn;
      by rewrite !app_nil_r.
  - eexists. apply fetches_sendMessage.
  - eexists. apply fetches_sendMessage.
  - unfold on_keypress. destruct (decide (key = "Enter")).
    + eexists. apply fetches_sendMessage.
    + exists []. by rewrite app_nil_r.
  - exists []. destruct st. cbn. by rewrite app_nil_r.
  - exists []. by rewrite fetches_resume, app_nil_r.
Qed.

Lemma fetches_run_grows (es : list event) (st : chat) :
  ∃ new, fetches (trace (run es st)) = fetches (trace st) ++ new.
Proof.
  revert st. induction es as [|e es IH]; intros st.
  { exists []. by rewrite app_nil_r. }
  cbn [run]. destruct (IH (step e st)) as [new2 ->].
  destruct (fetches_step_grows e st) as [new1 ->].
  exists (new1 ++ new2). by rewrite app_assoc.
Qed.

Lemma app_same_nil {A} (l new : list A) : l ++ new = l → new = [].
Proof.
  intros H. apply (app_inv_head l). by rewrite app_nil_r.
Qed.

(** An event that sends no request leaves [typingEl] as it was; when it
    is not a response either, it leaves the transcript and the requests
    waited for as they were. *)
Lemma step_no_request (e : event) (st : chat) :
  fetches (trace (step e st)) = fetches (trace st) →
  typingEl (step e st) = typingEl st ∧
  ((∀ k o, e ≠ Response k o) →
     messages (step e st) = messages st ∧ created (step e st) = created st ∧
     pending (step e st) = pending st).
Proof.
  assert (Hsend : ∀ text,
    fetches (trace (sendMessage text st)) = fetches (trace st) →
    sendMessage text st = st).
  { intros text. rewrite fetches_sendMessage.
    destruct (decide (prompt_of text st = EmptyString)) as [Hp|Hp].
    - intros _. by apply sendMessage_blank.
    - intros H%app_same_nil. discriminate H. }
  destruct e as [|supported|transcripts| |key|value|k o]; cbn [step].
  - intros _. by destruct st.
  - intros _. by destruct st, supported.
  - unfold on_voice_result. intros Hf. by rewrite (Hsend _ Hf).
  - unfold on_send_click. intros Hf. by rewrite (Hsend _ Hf).
  - unfold on_keypress. destruct (decide (key = "Enter")); [|done].
    intros Hf. by rewrite (Hsend _ Hf).
  - intros _. by destruct st.
  - intros _. split; [|intros Hne; by destruct (Hne k o)].
    destruct (decide (k ∈ pending st)) as [Hk|Hk].
    + by destruct (resume_fields k o st Hk) as (Hty & _).
    + by rewrite resume_not_pending.
Qed.

Lemma run_no_request (es : list event) (st : chat) :
  fetches (trace (run es st)) = fetches (trace st) →
  typingEl (run es st) = typingEl st ∧
  (Forall (λ e, ∀ k o, e ≠ Response k o) es →
     messages (run es st) = messages st ∧ created (run es st) = created st ∧
     pending (run es st) = pending st).
Proof.
  revert st. induction es as [|e es IH]; intros st; [done|].
  cbn [run]. intros Hf.
  destruct (fetches_run_grows es (step e st)) as [new2 H2].
  destruct (fetches_step_grows e st) as [new1 H1].
  rewrite H2, H1, <- app_assoc in Hf. apply app_same_nil in Hf.
  apply app_eq_nil in Hf as [-> ->]. rewrite app_nil_r in H1, H2.
  destruct (IH (step e st) H2) as (Hty & Hrest).
  destruct (step_no_request e st H1) as (Hty1 & Hrest1).
  split; [congruence|].
  intros [He Hes]%Forall_cons.
  destruct (Hrest Hes) as (-> & -> & ->). by apply Hrest1.
Qed.

(** ** The send operation *)

(** C3 (as amended). A send with a prompt that is not empty does, in
    order: append the user message, clear the input when the prompt came
    from the input field (and only then), append the typing placeholder
    and post [{prompt: text}] to [/api/berrybot] once.  When the reply
    [{reply: text}] comes, whatever events came in between, the rest of
    the send takes the element that [typingEl] holds out of the
    transcript and appends the bot message.  When no other request was
    sent in between, [typingEl] still holds this send's placeholder,
    which is then no longer in the transcript; when in addition no
    response to another send came in between, the transcript has gained
    the user message and the bot message and nothing else. *)
Theorem send_then_reply (st : chat) (text : option string)
    (between : list event) (reply : string) :
  wf st →
  prompt_of text st ≠ EmptyString →
  (∀ o, Response (sent st) o ∉ between) →
  let prompt := prompt_of text st in
  let user := Node (created st) "message user" (bubble prompt) in
  let typing := Node (S (created st)) "message bot" (bubble typing_text) in
  let st1 := sendMessage text st in
  let st2 := run between st1 in
  let st3 := sendMessage_resume (sent st) (Body (JObj [("reply", JStr reply)])) st2 in
  let bot := Node (created st2) "message bot" (bubble reply) in
  trace st1 =
    trace st ++
      AppendChild user ::
      match text with None => [SetInputValue EmptyString] | Some _ => [] end ++
      [AppendChild typing;
       Fetch (sent st)
         (FetchCall "/api/berrybot" "POST" [("Content-Type", "application/json")]
            (stringify_prompt prompt))] ∧
  messages st1 = messages st ++ [user; typing] ∧
  inputValue st1 = match text with None => EmptyString | Some _ => inputValue st end ∧
  typingEl st1 = Some (node_id typing) ∧
  (∃ held,
     typingEl st2 = Some held ∧
     trace st3 = trace st2 ++ [RemoveChild held; AppendChild bot] ∧
     messages st3 = filter (λ n, node_id n ≠ held) (messages st2) ++ [bot]) ∧
  (fetches (trace st2) = fetches (trace st1) →
     typingEl st2 = Some (node_id typing) ∧ typing ∉ messages st3) ∧
  (fetches (trace st2) = fetches (trace st1) →
   Forall (λ e, ∀ k o, e ≠ Response k o) between →
     messages st3 =
       messages st ++ [user; Node (S (S (created st))) "message bot" (bubble reply)] ∧
     pending st3 = pending st).
Proof.
  intros (Hms & Hpd) Hp Hbetween. cbv zeta.
  pose proof (sendMessage_run text st Hp) as Hrun. cbv zeta in Hrun.
  set (st1 := sendMessage text st) in *.
  assert (Htr1 : trace st1 = trace st ++
            AppendChild (Node (created st) "message user" (bubble (prompt_of text st))) ::
            match text with None => [SetInputValue EmptyString] | Some _ => [] end ++
            [AppendChild (Node (S (created st)) "message bot" (bubble typing_text));
             Fetch (sent st) (berrybot_call (prompt_of text st))]) by by rewrite Hrun.
  assert (Hms1 : messages st1 = messages st ++
            [Node (created st) "message user" (bubble (prompt_of text st));
             Node (S (created st)) "message bot" (bubble typing_text)]) by by rewrite Hrun.
  assert (Hin1 : inputValue st1 =
            match text with None => EmptyString | Some _ => inputValue st end)
    by by rewrite Hrun.
  assert (Hty1 : typingEl st1 = Some (S (created st))) by by rewrite Hrun.
  assert (Hc1 : created st1 = S (S (created st))) by by rewrite Hrun.
  assert (Hpd1 : pending st1 = pending st ++ [sent st]) by by rewrite Hrun.
  clearbody st1. clear Hrun.
  destruct (run_grows between st1) as (Hc2 & Hty2 & Hpd2).
  assert (Hk : sent st ∈ pending (run between st1)).
  { apply Hpd2; [|done]. rewrite Hpd1, elem_of_app. right. apply list_elem_of_here. }
  destruct Hty2 as [held Hheld]; [by rewrite Hty1|].
  pose proof (sendMessage_resume_reply (sent st) (JObj [("reply", JStr reply)])
                (Some (JStr reply)) (run between st1) Hk eq_refl) as Hres.
  cbv zeta in Hres. rewrite Hheld in Hres.
  cbn [template to_string] in Hres.
  split; [done|]. split; [done|]. split; [done|]. split; [done|].
  split; [|split].
  - exists held. split; [done|]. rewrite Hres. cbn [trace messages]. done.
  - intros Hf. destruct (run_no_request between st1 Hf) as [Hty _].
    rewrite Hty1 in Hty. split; [done|].
    rewrite Hres. cbn [messages]. rewrite Hheld in Hty. injection Hty as ->.
    rewrite elem_of_app, list_elem_of_filter, list_elem_of_singleton. cbn [node_id].
    intros [[Hne _] | [=]]; [done|]. lia.
  - intros Hf Hquiet. destruct (run_no_request between st1 Hf) as [Hty Hrest].
    destruct (Hrest Hquiet) as (Hms2 & Hc2' & Hpd2').
    rewrite Hty1 in Hty. rewrite Hheld in Hty. injection Hty as ->.
    rewrite Hres. cbn [messages pending]. rewrite Hms2, Hc2', Hpd2', Hms1, Hc1, Hpd1.
    split.
    + rewrite filter_app, filter_fresh_id by (intros n Hn; specialize (Hms n Hn); lia).
      rewrite filter_cons_True by (cbn; lia).
      rewrite filter_cons_False by (cbn; lia). rewrite filter_nil.
      by rewrite <- app_assoc.
    + by apply filter_drop_last.
Qed.

(** The send of the prompt [hello] on the freshly loaded widget; the
    panel is toggled and the next message typed before the answer [hi!]
    comes. *)
Lemma send_then_reply_witness :
  let st := set_inputValue " hello " loaded in
  let st1 := sendMessage None st in
  let st2 := run [ToggleClick; Input "and"] st1 in
  let st3 := sendMessage_resume 0 (Body (JObj [("reply", JStr "hi!")])) st2 in
  fetches (trace st3) =
    [FetchCall "/api/berrybot" "POST" [("Content-Type", "application/json")]
       ("{" +:+ dq +:+ "prompt" +:+ dq +:+ ":" +:+ dq +:+ "hello" +:+ dq +:+ "}")] ∧
  messages st3 =
    [Node 0 "message user" (bubble "hello"); Node 2 "message bot" (bubble "hi!")] ∧
  inputValue st1 = EmptyString.
Proof.
  cbv zeta.
  destruct (send_then_reply (set_inputValue " hello " loaded) None
              [ToggleClick; Input "and"] "hi!")
    as (_ & _ & Hin & _ & _ & _ & Hms).
  - split; cbn; intros ? H; by apply elem_of_nil in H.
  - vm_compute. discriminate.
  - intros o H. repeat (apply elem_of_cons in H as [H|H]; [discriminate H|]).
    by apply elem_of_nil in H.
  - split; [vm_compute; reflexivity|]. split; [|exact Hin].
    apply Hms; [vm_compute; reflexivity|].
    repeat constructor; intros k o; discriminate.
Defined.

(** C3 as the claim words it fails when sends overlap: the first of two
    sends gets its reply after the second has started, the placeholder
    taken out is the second send's, and the first send's own placeholder
    (element 1) stays in the transcript, also after both replies.  It
    fails as well for a send that follows a failed one: the placeholder
    of the failed send (element 1) is still in the transcript after the
    later send got its reply. *)
Lemma overlapping_sends_leave_indicator :
  let reply s := Body (JObj [("reply", JStr s)]) in
  let typing := Node 1 "message bot" (bubble typing_text) in
  let st := run [Input "a"; SendClick; Input "b"; SendClick; Response 0 (reply "x")] loaded in
  typing ∈ messages st ∧
  typing ∈ messages (run [Response 1 (reply "y")] st) ∧
  pending (run [Response 1 (reply "y")] st) = [] ∧
  typing ∈ messages (run [Input "a"; SendClick; Response 0 NetworkError;
                          Input "b"; SendClick; Response 1 (reply "y")] loaded).
Proof.
  cbv zeta. split; [|split; [|split]].
  - apply (bool_decide_unpack _). vm_compute. exact I.
  - apply (bool_decide_unpack _). vm_compute. exact I.
  - vm_compute. reflexivity.
  - apply (bool_decide_unpack _). vm_compute. exact I.
Qed.

(** C4. A send on a blank input is a no-op: when the prompt comes from
    the input field and its value trims to the empty string, or when the
    prompt is an empty voice transcript, [sendMessage] returns the state
    it was given: no request, nothing appended, the input and the rest
    of the widget as they were.  So do the listeners that call it. *)
Theorem blank_send_is_noop (st : chat) (text : option string) :
  (text = None ∧ trim (inputValue st) = EmptyString) ∨ text = Some EmptyString →
  sendMessage text st = st ∧
  (text = None → on_send_click st = st ∧ on_keypress "Enter" st = st).
Proof.
  intros H.
  assert (Hp : prompt_of text st = EmptyString).
  { destruct H as [[-> Ht] | ->]; [exact Ht|reflexivity]. }
  split; [by apply sendMessage_blank|].
  intros ->. unfold on_send_click, on_keypress. rewrite decide_True by done.
  by rewrite sendMessage_blank.
Qed.

(** A blank input and an empty transcript, after an earlier send. *)
Lemma blank_send_is_noop_witness :
  let st := set_inputValue "   " (run [Input "hi"; SendClick] loaded) in
  sendMessage None st = st ∧ sendMessage (Some EmptyString) st = st.
Proof.
  cbv zeta. split.
  - refine (proj1 (blank_send_is_noop _ None _)).
    left. split; [reflexivity|]. vm_compute. reflexivity.
  - refine (proj1 (blank_send_is_noop _ (Some EmptyString) _)).
    right. reflexivity.
Defined.

Lemma held_for_step (n : node) (k : nat) (e : event) (st : chat) :
  (∀ o, e ≠ Response k o) → held_for n k st → held_for n k (step e st).
Proof.
  intros Hne (Hin & Hid & Hty).
  assert (Hsend : ∀ text, held_for n k (sendMessage text st)).
  { intros text. destruct (decide (prompt_of text st = EmptyString)) as [Hp|Hp].
    - by rewrite sendMessage_blank.
    - rewrite sendMessage_run by done. unfold held_for. cbn [messages created typingEl].
      split; [rewrite elem_of_app; by left|]. split; [lia|]. intros [=]. lia. }
  destruct e as [|supported|transcripts| |key|value|j o]; cbn [step].
  - by destruct st.
  - by destruct st, supported.
  - apply Hsend.
  - apply Hsend.
  - unfold on_keypress. destruct (decide (key = "Enter")); [apply Hsend|done].
  - by destruct st.
  - destruct (decide (j ∈ pending st)) as [Hj|Hj]; [|by rewrite resume_not_pending].
    assert (Hheld : typingEl st ≠ Some (node_id n)).
    { intros Heq. apply (Hne o). f_equal. by apply Hty. }
    destruct (resume_fields j o st Hj) as (Hty' & Hpd' & Hms'). cbv zeta in *.
    unfold held_for. rewrite Hty'. split; [|split].
    + destruct Hms' as [[-> _] | (reply & -> & _)]; [done|].
      rewrite elem_of_app. left. destruct (typingEl st) as [id|]; [|done].
      apply list_elem_of_filter. split; [|done]. congruence.
    + destruct Hms' as [[_ ->] | (reply & _ & ->)]; lia.
    + done.
Qed.

Lemma held_for_run (n : node) (k : nat) (es : list event) (st : chat) :
  (∀ o, Response k o ∉ es) → held_for n k st → held_for n k (run es st).
Proof.
  revert st. induction es as [|e es IH]; intros st Hes Hst; [done|].
  cbn [run]. apply IH.
  - intros o Ho. apply (Hes o). by apply list_elem_of_further.
  - apply held_for_step; [|done]. intros o ->. apply (Hes o), list_elem_of_here.
Qed.

(** C5 (as amended). A send whose request fails, or whose body is not
    JSON, rejects with nothing to handle the rejection, whatever events
    came between the send and the failure; the failing send takes
    nothing out of the transcript and appends no bot message.  When no
    other send was waited for as it was invoked, its typing placeholder
    stays in the transcript whatever happens to the widget before and
    after the failure. *)
Theorem failed_send_stays_stuck (st : chat) (text : option string)
    (o : outcome) (between later : list event) :
  prompt_of text st ≠ EmptyString →
  o = NetworkError ∨ o = NotJSON →
  (∀ o', Response (sent st) o' ∉ between) →
  let typing := Node (S (created st)) "message bot" (bubble typing_text) in
  let st1 := sendMessage text st in
  let st2 := run between st1 in
  let st3 := sendMessage_resume (sent st) o st2 in
  typing ∈ messages st1 ∧
  (∃ reason, trace st3 = trace st2 ++ [UnhandledRejection (sent st) reason]) ∧
  messages st3 = messages st2 ∧
  (pending st = [] →
     typing ∈ messages st2 ∧ typing ∈ messages (run later st3)).
Proof.
  intros Hp Ho Hbetween. cbv zeta.
  pose proof (sendMessage_run text st Hp) as Hrun. cbv zeta in Hrun.
  set (st1 := sendMessage text st) in *.
  assert (Hms1 : messages st1 = messages st ++
            [Node (created st) "message user" (bubble (prompt_of text st));
             Node (S (created st)) "message bot" (bubble typing_text)]) by by rewrite Hrun.
  assert (Hc1 : created st1 = S (S (created st))) by by rewrite Hrun.
  assert (Hpd1 : pending st1 = pending st ++ [sent st]) by by rewrite Hrun.
  clearbody st1. clear Hrun.
  assert (Hin1 : Node (S (created st)) "message bot" (bubble typing_text) ∈ messages st1).
  { rewrite Hms1, elem_of_app. right. apply list_elem_of_further, list_elem_of_here. }
  destruct (run_grows between st1) as (_ & _ & Hpd2).
  assert (Hk : sent st ∈ pending (run between st1)).
  { apply Hpd2; [|done]. rewrite Hpd1, elem_of_app. right. apply list_elem_of_here. }
  destruct (sendMessage_resume_failure (sent st) o (run between st1) Hk) as [reason Hres].
  { destruct Ho as [-> | ->]; auto. }
  split; [done|]. split; [exists reason; by rewrite Hres|]. split; [by rewrite Hres|].
  intros Hpd.
  assert (Hheld : held_for (Node (S (created st)) "message bot" (bubble typing_text))
                    (sent st) (run between st1)).
  { apply held_for_run; [done|]. split; [done|]. cbn [node_id]. split; [lia|].
    intros _ j. rewrite Hpd1, Hpd. cbn [app]. by intros ->%list_elem_of_singleton. }
  destruct Hheld as (Hin2 & Hid2 & Hty2). split; [done|].
  apply stuck_run. rewrite Hres. unfold stuck. cbn [messages created typingEl pending].
  split; [done|]. split; [done|]. intros Hty.
  apply SWSpec.filter_none, Forall_forall. intros j Hj Hne. apply Hne. by apply Hty2.
Qed.

(** A send that fails on the freshly loaded widget: a second send starts
    and is answered before the failure of the first, and a third one
    after it. *)
Lemma failed_send_stays_stuck_witness :
  let hi := Body (JObj [("reply", JStr "hi!")]) in
  let st1 := sendMessage None (set_inputValue "hello" loaded) in
  let st2 := run [Input "again"; SendClick; Response 1 hi] st1 in
  let st3 := sendMessage_resume 0 NetworkError st2 in
  Node 1 "message bot" (bubble typing_text) ∈
    messages (run [Input "more"; SendClick; Response 2 hi] st3).
Proof.
  cbv zeta.
  refine (proj2 (proj2 (proj2 (proj2
    (failed_send_stays_stuck (set_inputValue "hello" loaded) None NetworkError
       [Input "again"; SendClick; Response 1 (Body (JObj [("reply", JStr "hi!")]))]
       [Input "more"; SendClick; Response 2 (Body (JObj [("reply", JStr "hi!")]))]
       _ _ _))) eq_refl)).
  - vm_compute. discriminate.
  - left. reflexivity.
  - intros o H. repeat (apply elem_of_cons in H as [H|H]; [discriminate H|]).
    by apply elem_of_nil in H.
Defined.

(** C5 as the claim words it fails when sends overlap: the second of two
    sends fails, the first one then gets its reply, and the placeholder
    the reply takes out is the failed send's (element 3). *)
Lemma failed_send_indicator_removed :
  let typing := Node 3 "message bot" (bubble typing_text) in
  let st := run [Input "b"; SendClick; Input "a"; SendClick; Response 1 NetworkError] loaded in
  typing ∈ messages st ∧
  typing ∉ messages (run [Response 0 (Body (JObj [("reply", JStr "y")]))] st).
Proof.
  cbv zeta. split.
  - apply (bool_decide_unpack _). vm_compute. exact I.
  - apply (bool_decide_unpack _). vm_compute. exact I.
Qed.

(** ** The panel *)

(** C10. A click on the voice button takes [hidden] out of the panel's
    classes and puts [visible] in, whether or not speech recognition is
    supported; in the unsupported branch the only other thing it does is
    the alert.  A click on the toggle button instead flips both classes. *)
Theorem voice_click_shows_panel (st : chat) (supported : bool) :
  let st' := on_voice_click supported st in
  ("hidden" ∉ panel st') ∧
  ("visible" ∈ panel st') ∧
  trace st' =
    trace st ++
      [if supported then StartRecognition "en-US" false
       else Alert "Speech recognition not supported in this browser."] ∧
  messages st' = messages st ∧
  inputValue st' = inputValue st ∧
  pending st' = pending st ∧
  ("hidden" ∈ panel (on_toggle_click st) ↔ "hidden" ∉ panel st) ∧
  ("visible" ∈ panel (on_toggle_click st) ↔ "visible" ∉ panel st).
Proof.
  cbv zeta. destruct st as [p ms iv te c s pd tr].
  unfold on_voice_click, on_toggle_click.
  split; [|split; [|split; [|split; [|split; [|split; [|split]]]]]].
  - destruct supported; chat_unfold;
      rewrite classList_add_spec, classList_remove_spec; intros [[=] | [? _]]; done.
  - destruct supported; chat_unfold; rewrite classList_add_spec; by left.
  - destruct supported; reflexivity.
  - destruct supported; reflexivity.
  - destruct supported; reflexivity.
  - destruct supported; reflexivity.
  - chat_unfold. by rewrite classList_toggle_other, classList_toggle_self.
  - chat_unfold. by rewrite classList_toggle_self, classList_toggle_other.
Qed.

End ChatSpec.

(** * Properties of tab switching *)

Module TabsSpec.
Import DOM Tabs DOMSpec.

(** ** Looking elements up by id *)

Lemma first_with_id_fmap (f : element → element) (key : string) (doc : list element) :
  (∀ e, el_id (f e) = el_id e) →
  first_with_id key (f <$> doc) = first_with_id key doc.
Proof.
  intros Hf. induction doc as [|e doc IH]; [done|].
  rewrite fmap_cons. cbn [first_with_id]. by rewrite Hf, IH.
Qed.

Lemma first_with_id_alter (f : element → element) (key : string) (i : nat)
    (doc : list element) :
  (∀ e, el_id (f e) = el_id e) →
  first_with_id key (alter f i doc) = first_with_id key doc.
Proof.
  intros Hf. revert i. induction doc as [|e doc IH]; intros i; [done|].
  destruct i as [|i]; cbn [alter list_alter first_with_id].
  - by rewrite Hf.
  - by rewrite IH.
Qed.

Lemma getElementById_classes (key : string) (i : nat) (doc : list element) :
  getElementById key (activate i (deactivate_all "tab-content" (deactivate_all "tab-btn" doc)))
  = getElementById key doc.
Proof.
  unfold getElementById, activate, deactivate_all.
  destruct (decide (key = EmptyString)); [done|].
  rewrite first_with_id_alter by done.
  rewrite !first_with_id_fmap; [done|intros e; by destruct (decide _)..].
Qed.

(** ** What the listener makes of one element *)

Lemma lookup_activate (j k : nat) (doc : list element) :
  activate j doc !! k =
    (if decide (j = k) then set_classes (classList_add "active") else id) <$> doc !! k.
Proof.
  unfold activate. rewrite list_lookup_alter.
  destruct (decide (j = k)) as [->|]; [done|]. by destruct (doc !! k).
Qed.

(** The element at position [k] after a click on button [i] whose panel
    is at position [j]. *)
Lemma on_tab_click_lookup (doc : list element) (i j k : nat) (e : element) :
  activate j (activate i (deactivate_all "tab-content" (deactivate_all "tab-btn" doc))) !! k
    = Some e →
  ∃ e0, doc !! k = Some e0 ∧
        el_id e = el_id e0 ∧ data_tab e = data_tab e0 ∧
        (∀ c, c ≠ "active" → c ∈ classes e ↔ c ∈ classes e0) ∧
        (is_active e ↔
           k = i ∨ k = j ∨ (is_active e0 ∧ ¬ is_button e0 ∧ ¬ is_panel e0)).
Proof.
  rewrite !lookup_activate. unfold deactivate_all, is_active, is_button, is_panel.
  rewrite !list_lookup_fmap.
  destruct (doc !! k) as [e0|] eqn:Hk; [|done].
  cbn [fmap option_fmap option_map]. intros [= He]. exists e0. split; [done|].
  symmetry in He.
  subst e. cbn beta.
  destruct (decide ("tab-btn" ∈ classes e0)) as [Hb|Hb];
    cbn [set_classes classes];
    [destruct (decide ("tab-content" ∈ classList_remove "active" (classes e0))) as [Hp|Hp]
    |destruct (decide ("tab-content" ∈ classes e0)) as [Hp|Hp]];
    try (rewrite classList_remove_spec in Hp);
    destruct (decide (i = k)) as [Hi|Hi], (decide (j = k)) as [Hj|Hj];
    cbn [set_classes classes el_id data_tab id];
    (split; [done|]); (split; [done|]);
    (split; [intros c Hc|]);
    rewrite ?classList_add_spec, ?classList_remove_spec;
    intuition (try congruence).
Qed.





(** A click on a button whose [data-tab] names no element throws after
    the button itself was activated. *)
Example tab_click_without_panel :
  on_tab_click 0 [Element None ["tab-btn"] (Some "missing")] =
    (Throws "TypeError: Cannot read properties of null (reading 'classList')",
     [Element None ["tab-btn"; "active"] (Some "missing")]).
Proof. vm_compute. reflexivity. Qed.

End TabsSpec.
(** * Properties of the numbers *)

Module NumberSpec.
Import Number.

Local Open Scope Z_scope.

(** ** Shifting a mantissa *)

Lemma iter_pos_nat {A} (f : A → A) (p : positive) (x : A) :
  iter_pos f p x = Nat.iter (Pos.to_nat p) f x.
Proof.
  revert x. induction p as [p IH|p IH|]; intros x; cbn [iter_pos].
  - rewrite !IH, Pos2Nat.inj_xI. cbn [Nat.mul]. rewrite Nat.add_0_r.
    rewrite Nat.iter_succ_r, Nat.iter_add. done.
  - rewrite !IH, Pos2Nat.inj_xO. cbn [Nat.mul]. rewrite Nat.add_0_r.
    rewrite Nat.iter_add. done.
  - done.
Qed.

Lemma shr_1_shifted (M k : Z) (mrs : shr_record) :
  0 ≤ k → shifted M k mrs → shifted M (k + 1) (shr_1 mrs).
Proof.
  intros Hk (Hm & rem & HM & Hrem & Hloc).
  assert (HP : 0 < 2 ^ k) by (apply Z.pow_pos_nonneg; lia).
  assert (HP' : 2 ^ (k + 1) = 2 * 2 ^ k) by (rewrite Z.pow_add_r by lia; lia).
  destruct mrs as [m r s]. cbn [shr_m] in *.
  assert (Hrs : orb r s = negb (rem =? 0)).
  { unfold loc_of in Hloc. destruct r, s, (Z.eqb_spec rem 0); cbn in Hloc |- *;
      congruence. }
  unfold shifted. rewrite HP'. set (P := 2 ^ k) in *. clearbody P.
  destruct m as [|p|p]; [| |lia].
  - cbn [shr_1 shr_m]. split; [lia|]. exists rem. split; [lia|]. split; [lia|].
    rewrite Hrs. unfold loc_of. cbn [loc_of_shr_record].
    destruct (Z.eqb_spec rem 0); cbn [negb]; [done|].
    destruct (Z.compare_spec (2 * rem) (2 * P)); [lia|done|lia].
  - destruct p as [p|p|]; cbn [shr_1 shr_m].
    + split; [lia|]. exists (rem + P). rewrite Pos2Z.inj_xI in HM.
      split; [lia|]. split; [lia|]. rewrite Hrs. unfold loc_of. cbn [loc_of_shr_record].
      destruct (Z.eqb_spec (rem + P) 0); [lia|].
      destruct (Z.eqb_spec rem 0); cbn [negb].
      * subst rem. destruct (Z.compare_spec (2 * (0 + P)) (2 * P)); [done|lia|lia].
      * destruct (Z.compare_spec (2 * (rem + P)) (2 * P)); [lia|lia|done].
    + split; [lia|]. exists rem. rewrite Pos2Z.inj_xO in HM.
      split; [lia|]. split; [lia|]. rewrite Hrs. unfold loc_of. cbn [loc_of_shr_record].
      destruct (Z.eqb_spec rem 0); cbn [negb]; [done|].
      destruct (Z.compare_spec (2 * rem) (2 * P)); [lia|done|lia].
    + split; [lia|]. exists (rem + P).
      split; [lia|]. split; [lia|]. rewrite Hrs. unfold loc_of. cbn [loc_of_shr_record].
      destruct (Z.eqb_spec (rem + P) 0); [lia|].
      destruct (Z.eqb_spec rem 0); cbn [negb].
      * subst rem. destruct (Z.compare_spec (2 * (0 + P)) (2 * P)); [done|lia|lia].
      * destruct (Z.compare_spec (2 * (rem + P)) (2 * P)); [lia|lia|done].
Qed.

Lemma iter_shr_1_shifted (M : Z) (n : nat) :
  0 ≤ M → shifted M (Z.of_nat n) (Nat.iter n shr_1 (Build_shr_record M false false)).
Proof.
  intros HM. induction n as [|n IH].
  - cbn. split; [done|]. exists 0. cbn. split; [lia|]. split; [lia|done].
  - rewrite Nat2Z.inj_succ, <- Z.add_1_r. cbn [Nat.iter].
    apply shr_1_shifted; [lia|done].
Qed.

Lemma shr_shifted (M : Z) (e : Z) (p : positive) :
  0 ≤ M →
  ∃ mrs, shr (Build_shr_record M false false) e (Z.pos p) = (mrs, e + Z.pos p) ∧
         shifted M (Z.pos p) mrs.
Proof.
  intros HM. eexists. split; [reflexivity|].
  rewrite iter_pos_nat, <- (positive_nat_Z p). by apply iter_shr_1_shifted.
Qed.

Lemma pow2_succ (d : Z) : 0 ≤ d → 2 ^ (d + 1) = 2 * 2 ^ d.
Proof. intros. rewrite Z.pow_add_r by lia. lia. Qed.

Lemma digits2_pos_bounds (m : positive) :
  2 ^ (Z.pos (digits2_pos m) - 1) ≤ Z.pos m < 2 ^ Z.pos (digits2_pos m).
Proof.
  induction m as [m IH|m IH|]; cbn [digits2_pos]; [| |cbn; lia].
  - rewrite Pos2Z.inj_succ, Pos2Z.inj_xI.
    set (d := Z.pos (digits2_pos m)) in *. assert (1 ≤ d) by (unfold d; lia).
    replace (Z.succ d - 1) with (d - 1 + 1) by lia.
    replace (Z.succ d) with (d + 1) by lia.
    rewrite !pow2_succ by lia. lia.
  - rewrite Pos2Z.inj_succ, Pos2Z.inj_xO.
    set (d := Z.pos (digits2_pos m)) in *. assert (1 ≤ d) by (unfold d; lia).
    replace (Z.succ d - 1) with (d - 1 + 1) by lia.
    replace (Z.succ d) with (d + 1) by lia.
    rewrite !pow2_succ by lia. lia.
Qed.

Lemma fexp_53 (e : Z) : fexp prec emax e = Z.max (e - 53) (-1074).
Proof. reflexivity. Qed.

Lemma shr_nonpos (mrs : shr_record) (e n : Z) : n ≤ 0 → shr mrs e n = (mrs, e).
Proof. intros Hn. destruct n; [done|exfalso; lia|done]. Qed.

Lemma round_nearest_even_bounds (q : Z) (l : location) :
  q ≤ round_nearest_even q l ≤ q + 1.
Proof. destruct l as [|[]]; cbn; try lia. destruct (Z.even q); lia. Qed.

Lemma pow2_succ' (d : Z) : 0 ≤ d → 2 ^ (d + 1) = 2 ^ d * 2.
Proof. intros. rewrite pow2_succ by lia. lia. Qed.

Lemma pow2_pos (n : Z) : 0 ≤ n → 0 < 2 ^ n.
Proof. intros. apply Z.pow_pos_nonneg; lia. Qed.

Lemma pow2_le (a b : Z) : 0 ≤ a ≤ b → 2 ^ a ≤ 2 ^ b.
Proof. intros. apply Z.pow_le_mono_r; lia. Qed.

Lemma pow2_lt (a b : Z) : 0 ≤ a < b → 2 ^ a < 2 ^ b.
Proof. intros. apply Z.pow_lt_mono_r; lia. Qed.

(** The product of two mantissas, rounded: when the last place [G] of
    the result is above the exponent [E] of the exact product, the
    result is the quotient of the mantissa by [2 ^ (G - E)], rounded to
    nearest with ties to even, at the exponent [G]. *)
Lemma binary_round_aux_spec (M : positive) (E : Z) :
  let G := Z.max (Z.pos (digits2_pos M) + E - 53) (-1074) in
  E < G → G ≤ 970 →
  ∃ q rem,
    Z.pos M = q * 2 ^ (G - E) + rem ∧ 0 ≤ rem < 2 ^ (G - E) ∧ 0 ≤ q < 2 ^ 53 ∧
    let m1 := round_nearest_even q (loc_of rem (2 ^ (G - E))) in
    binary_round_aux prec emax false (Z.pos M) E loc_Exact =
      if m1 =? 0 then S754_zero false
      else if m1 =? 2 ^ 53 then S754_finite false (Z.to_pos (2 ^ 52)) (G + 1)
      else S754_finite false (Z.to_pos m1) G.
Proof.
  intros G HEG HG.
  pose proof (digits2_pos_bounds M) as Hd.
  set (d := Z.pos (digits2_pos M)) in *.
  assert (Hd1 : 1 ≤ d) by (unfold d; lia).
  unfold binary_round_aux, shr_fexp. cbn [Zdigits2 shr_record_of_loc].
  rewrite fexp_53. fold d. fold G.
  destruct (G - E) as [|p|p] eqn:Hn; [lia| |lia].
  destruct (shr_shifted (Z.pos M) E p) as (mrs & -> & Hq & rem & HM & Hrem & Hloc); [lia|].
  assert (HGE : E + Z.pos p = G) by lia. rewrite HGE.
  set (q := shr_m mrs) in *. exists q, rem.
  assert (HP : 0 < 2 ^ Z.pos p) by (apply pow2_pos; lia).
  assert (Hq53 : q < 2 ^ 53).
  { assert (2 ^ d ≤ 2 ^ (53 + Z.pos p)) by (apply pow2_le; lia).
    rewrite Z.pow_add_r in H by lia. nia. }
  split; [done|]. split; [done|]. split; [lia|]. cbv zeta.
  rewrite Hloc. set (m1 := round_nearest_even q (loc_of rem (2 ^ Z.pos p))).
  pose proof (round_nearest_even_bounds q (loc_of rem (2 ^ Z.pos p))) as Hm1. fold m1 in Hm1.
  destruct (Z.eqb_spec m1 0) as [H0|H0].
  { rewrite H0. cbn [Zdigits2]. rewrite shr_nonpos by (rewrite fexp_53; lia). done. }
  destruct (Z.eqb_spec m1 (2 ^ 53)) as [H53|H53].
  { rewrite H53. change (Zdigits2 (2 ^ 53)) with 54. rewrite fexp_53.
    replace (Z.max (54 + G - 53) (-1074) - G) with 1 by lia.
    cbn [shr iter_pos]. change (shr_1 (shr_record_of_loc (2 ^ 53) loc_Exact))
      with (Build_shr_record (2 ^ 52) false false). cbn [shr_m].
    change (2 ^ 52) with (Z.pos (Z.to_pos (2 ^ 52))).
    cbv beta iota. replace (G + 1 <=? emax - prec) with true; [done|].
    symmetry. apply Z.leb_le. unfold emax, prec. lia. }
  destruct m1 as [|p1|p1] eqn:Hm1eq; [done| |lia].
  pose proof (digits2_pos_bounds p1) as Hd1'.
  cbn [Zdigits2]. set (d1 := Z.pos (digits2_pos p1)) in *.
  assert (d1 ≤ 53).
  { destruct (Z.le_gt_cases d1 53) as [|Hgt]; [done|].
    assert (2 ^ 53 ≤ 2 ^ (d1 - 1)) by (apply pow2_le; lia). lia. }
  rewrite shr_nonpos by (rewrite fexp_53; lia). cbn [shr_record_of_loc shr_m].
  replace (G <=? emax - prec) with true; [done|].
  symmetry. apply Z.leb_le. unfold emax, prec. lia.
Qed.

(** ** The floor of a rounded product *)

Lemma shiftl_neg (a n : Z) : n ≤ 0 → Z.shiftl a n = a / 2 ^ (- n).
Proof.
  intros Hn. rewrite <- Z.shiftr_div_pow2 by lia. unfold Z.shiftr.
  by rewrite Z.opp_involutive.
Qed.

Lemma floor_rounded (G m1 : Z) :
  G < 0 → 0 ≤ m1 →
  floor (if m1 =? 0 then S754_zero false
         else if m1 =? 2 ^ 53 then S754_finite false (Z.to_pos (2 ^ 52)) (G + 1)
         else S754_finite false (Z.to_pos m1) G) = Int (m1 / 2 ^ (- G)).
Proof.
  intros HG Hm1. destruct (Z.eqb_spec m1 0) as [->|H0]; [done|].
  destruct (Z.eqb_spec m1 (2 ^ 53)) as [->|H53]; cbn [floor cond_Zopp].
  - f_equal. rewrite shiftl_neg by lia.
    change (Z.pos (Z.to_pos (2 ^ 52))) with (2 ^ 52).
    replace (- G) with (- (G + 1) + 1) by lia.
    rewrite pow2_succ by lia. change (2 ^ 53) with (2 ^ 52 * 2).
    rewrite (Z.mul_comm 2), Z.div_mul_cancel_r; [done| |lia].
    pose proof (pow2_pos (- (G + 1))). lia.
  - f_equal. rewrite Z2Pos.id by lia. apply shiftl_neg. lia.
Qed.

Lemma div_ge_iff (a b c : Z) : 0 < b → c ≤ a / b ↔ c * b ≤ a.
Proof.
  intros Hb. split.
  - intros Hc. pose proof (Z.mul_div_le a b Hb). nia.
  - intros Hc. apply Z.div_le_lower_bound; lia.
Qed.

(** The rounded product against a number [K = k * 2 ^ κ] whose
    predecessor has the last place [κ]: the rounded product is at least
    [K] exactly when the exact product is at least [K] less half a unit
    of that place. *)
Lemma rounded_ge (M : positive) (E k κ Kz q rem : Z) :
  let G := Z.max (Z.pos (digits2_pos M) + E - 53) (-1074) in
  E < G → G < 0 →
  2 ^ 52 < k ≤ 2 ^ 53 → Z.even k = true → -1074 ≤ κ < 0 → k = Kz * 2 ^ (- κ) →
  E < κ →
  Z.pos M = q * 2 ^ (G - E) + rem → 0 ≤ rem < 2 ^ (G - E) → 0 ≤ q < 2 ^ 53 →
  let m1 := round_nearest_even q (loc_of rem (2 ^ (G - E))) in
  Kz ≤ m1 / 2 ^ (- G) ↔ (2 * k - 1) * 2 ^ (κ - E - 1) ≤ Z.pos M.
Proof.
  intros G HEG HG Hk Heven Hκ HKz HEκ HM Hrem Hq m1.
  pose proof (digits2_pos_bounds M) as Hd.
  set (d := Z.pos (digits2_pos M)) in *.
  assert (Hd1 : 1 ≤ d) by (unfold d; lia).
  pose proof (round_nearest_even_bounds q (loc_of rem (2 ^ (G - E)))) as Hm1.
  fold m1 in Hm1.
  rewrite div_ge_iff by (apply pow2_pos; lia).
  assert (H5352 : 2 ^ 53 = 2 * 2 ^ 52) by reflexivity.
  assert (H52 : 0 < 2 ^ 52) by reflexivity.
  set (H := 2 ^ (κ - E - 1)).
  assert (HH : 0 < H) by (apply pow2_pos; lia).
  destruct (Z.lt_trichotomy G κ) as [Hlt | [Heq | Hgt]].
  - (* the product lies below the places of [K]: neither holds *)
    assert (HG53 : m1 * 2 ^ (- κ) < k * 2 ^ (- G)).
    { assert (2 ^ (- κ) * 2 ≤ 2 ^ (- G)).
      { rewrite <- (pow2_succ' (- κ)) by lia. apply pow2_le. lia. }
      pose proof (pow2_pos (- κ)). nia. }
    assert (HM53 : Z.pos M < 2 ^ 53 * H).
    { unfold H. change (2 ^ 53) with (2 ^ 53). rewrite <- Z.pow_add_r by lia.
      eapply Z.lt_le_trans; [apply Hd|]. apply pow2_le. lia. }
    split.
    + intros Hge. exfalso.
      assert (Kz * 2 ^ (- G) * 2 ^ (- κ) ≤ m1 * 2 ^ (- κ)).
      { pose proof (pow2_pos (- κ)). nia. }
      nia.
    + intros Hge. exfalso. nia.
  - (* the product lies in the places just below [K] *)
    assert (HP : 2 ^ (G - E) = 2 * H).
    { unfold H. rewrite <- pow2_succ by lia. f_equal. lia. }
    assert (HKk : Kz * 2 ^ (- G) = k) by (rewrite Heq; lia).
    rewrite HKk. unfold m1 in *. rewrite HP in *. clear m1 Hm1.
    apply Z.even_spec in Heven as [k' Hk'].
    assert (Hsplit : ∀ b, (k ≤ b ∧ k * H ≤ b * H) ∨ (b + 1 ≤ k ∧ (b + 1) * H ≤ k * H)).
    { intros b. destruct (Z.le_gt_cases k b) as [Hle|Hgt]; [left|right];
        (split; [lia|]); apply Z.mul_le_mono_nonneg_r; lia. }
    unfold loc_of. destruct (Z.eqb_spec rem 0) as [Hr0|Hr0]; cbn [round_nearest_even].
    { destruct (Hsplit q) as [[? ?]|[? ?]]; split; intros; lia. }
    destruct (Z.compare_spec (2 * rem) (2 * H)) as [Hc|Hc|Hc].
    + destruct (Z.even q) eqn:Hq2.
      * apply Z.even_spec in Hq2 as [q' Hq'].
        destruct (Hsplit q) as [[? ?]|[? ?]]; [split; intros; lia|].
        destruct (Hsplit (q + 1)) as [[? ?]|[? ?]]; [lia|]. split; intros; lia.
      * assert (Z.odd q = true) as [q' Hq']%Z.odd_spec
          by (by rewrite <- Z.negb_even, Hq2).
        destruct (Hsplit (q + 1)) as [[? ?]|[? ?]]; split; intros; lia.
    + destruct (Hsplit q) as [[? ?]|[? ?]]; split; intros; lia.
    + destruct (Hsplit (q + 1)) as [[? ?]|[? ?]]; split; intros; lia.
  - (* the product lies above the places of [K]: both hold *)
    assert (G = d + E - 53) by lia.
    assert (Hq52 : 2 ^ 52 ≤ q).
    { assert (2 ^ (d - 1) = 2 ^ 52 * 2 ^ (G - E)).
      { rewrite <- Z.pow_add_r by lia. f_equal. lia. }
      pose proof (pow2_pos (G - E)). nia. }
    split; intros _.
    + assert (2 * k * H ≤ 2 ^ (d - 1)).
      { assert (2 ^ 53 * (2 * H) ≤ 2 ^ (d - 1)).
        { unfold H. rewrite <- pow2_succ, <- Z.pow_add_r by lia. apply pow2_le. lia. }
        nia. }
      nia.
    + assert (Kz * 2 ^ (- G) * 2 ≤ k).
      { rewrite HKz. assert (2 ^ (- G) * 2 ≤ 2 ^ (- κ)).
        { rewrite <- (pow2_succ' (- G)) by lia. apply pow2_le. lia. }
        assert (0 ≤ Kz).
        { pose proof (pow2_pos (- κ)). nia. }
        nia. }
      lia.
Qed.

(** ** Products of a random value *)

Lemma random_value_finite (mx : positive) (ex : Z) :
  random_value (S754_finite false mx ex) →
  -1074 ≤ ex ≤ -53 ∧ Z.pos mx < 2 ^ 53 ∧ Z.pos mx < 2 ^ (- ex) ∧
  (ex = -1074 ∨ 2 ^ 52 ≤ Z.pos mx).
Proof.
  intros [Hvalid [Hex Hmx]]. cbn [valid_binary] in Hvalid. unfold bounded in Hvalid.
  apply andb_prop in Hvalid as [Hcan _]. unfold canonical_mantissa in Hcan.
  apply Z.eqb_eq in Hcan. rewrite fexp_53 in Hcan.
  pose proof (digits2_pos_bounds mx) as Hd.
  set (d := Z.pos (digits2_pos mx)) in *.
  assert (Hd1 : 1 ≤ d) by (unfold d; lia).
  assert (Hd53 : d ≤ 53) by lia.
  assert (H53 : Z.pos mx < 2 ^ 53).
  { eapply Z.lt_le_trans; [apply Hd|]. apply pow2_le. lia. }
  assert (Hcase : ex = -1074 ∨ d = 53) by lia.
  assert (Hex53 : ex ≤ -53).
  { destruct Hcase as [->|Hd']; [lia|].
    destruct (Z.le_gt_cases ex (-53)) as [|Hgt]; [done|].
    assert (2 ^ (- ex) ≤ 2 ^ 52) by (apply pow2_le; lia).
    rewrite Hd' in Hd. change (2 ^ (53 - 1)) with (2 ^ 52) in Hd. lia. }
  split; [lia|]. split; [done|]. split; [done|].
  destruct Hcase as [->|Hd']; [by left|right].
  rewrite Hd' in Hd. apply Hd.
Qed.

(** The product of a random value and a number [cz] between 1 and 2^53,
    held as the mantissa [cz * 2 ^ (- ey)] of 53 digits. *)
Lemma floor_mul_random (mx my : positive) (ex ey cz : Z) :
  random_value (S754_finite false mx ex) →
  -53 ≤ ey < 0 → Z.pos my = cz * 2 ^ (- ey) → 2 ^ 52 ≤ Z.pos my < 2 ^ 53 →
  ∃ z, floor (mul (S754_finite false mx ex) (S754_finite false my ey)) = Int z ∧
       0 ≤ z ∧
       ∀ k κ Kz,
         2 ^ 52 < k ≤ 2 ^ 53 → Z.even k = true → -53 ≤ κ ≤ ey → k = Kz * 2 ^ (- κ) →
         (Kz ≤ z ↔ (2 * k - 1) * 2 ^ (- ex) ≤ Z.pos mx * cz * 2 ^ (1 - κ)).
Proof.
  intros Hr Hey Hmy Hmy53.
  destruct (random_value_finite mx ex Hr) as (Hex & Hmx53 & Hmx & Hnormal).
  unfold mul. cbn [SFmul xorb].
  pose proof (digits2_pos_bounds (mx * my)) as Hd.
  assert (H5352 : 2 ^ 53 = 2 * 2 ^ 52) by reflexivity.
  assert (H52 : 0 < 2 ^ 52) by reflexivity.
  assert (HX : 0 < 2 ^ (- ex)) by (apply pow2_pos; lia).
  set (M := (mx * my)%positive) in *.
  assert (HM : Z.pos M = Z.pos mx * Z.pos my) by (unfold M; lia).
  set (d := Z.pos (digits2_pos M)) in *.
  assert (Hd1 : 1 ≤ d) by (unfold d; lia).
  set (E := ex + ey).
  set (G := Z.max (d + E - 53) (-1074)).
  assert (HG0 : G ≤ ey).
  { assert (Z.pos M < 2 ^ (53 - ex)).
    { replace (53 - ex) with (53 + - ex) by lia. rewrite Z.pow_add_r, HM by lia. nia. }
    assert (d - 1 < 53 - ex).
    { apply (Z.pow_lt_mono_r_iff 2); lia. }
    unfold G, E. lia. }
  assert (HEG : E < G).
  { destruct Hnormal as [->|Hmx52]; [unfold G, E; lia|].
    assert (2 ^ 104 ≤ Z.pos M).
    { change (2 ^ 104) with (2 ^ 52 * 2 ^ 52). rewrite HM. nia. }
    assert (104 < d).
    { apply (Z.pow_lt_mono_r_iff 2); lia. }
    unfold G, E. lia. }
  destruct (binary_round_aux_spec M E) as (q & rem & HMq & Hrem & Hq & Hres);
    [done|unfold G in *; fold d; fold E; lia|].
  cbv zeta in Hres. fold d in Hres, HMq, Hrem. fold G in Hres, HMq, Hrem.
  unfold E in Hres at 3. rewrite Hres.
  set (m1 := round_nearest_even q (loc_of rem (2 ^ (G - E)))) in *.
  pose proof (round_nearest_even_bounds q (loc_of rem (2 ^ (G - E)))) as Hm1.
  fold m1 in Hm1.
  rewrite floor_rounded by lia.
  exists (m1 / 2 ^ (- G)). split; [done|].
  split; [apply Z.div_pos; [lia|apply pow2_pos; lia]|].
  intros k κ Kz Hk Heven Hκ HKz.
  pose proof (rounded_ge M E k κ Kz q rem) as Hge. cbv zeta in Hge.
  fold d in Hge. fold G in Hge. fold m1 in Hge.
  rewrite Hge; [|done|lia|done|done|lia|done|unfold E; lia|done|done|done].
  rewrite HM, Hmy. unfold E.
  set (s := 1 - κ + ey).
  assert (Hs : 0 < 2 ^ s) by (apply pow2_pos; unfold s; lia).
  rewrite (Z.mul_le_mono_pos_r _ _ (2 ^ s)) by done.
  replace ((2 * k - 1) * 2 ^ (κ - (ex + ey) - 1) * 2 ^ s)
    with ((2 * k - 1) * 2 ^ (- ex)).
  2:{ rewrite <- Z.mul_assoc, <- Z.pow_add_r by (unfold s; lia).
      do 2 f_equal. unfold s. lia. }
  replace (Z.pos mx * (cz * 2 ^ (- ey)) * 2 ^ s) with (Z.pos mx * cz * 2 ^ (1 - κ)).
  2:{ rewrite <- !Z.mul_assoc, <- Z.pow_add_r by (unfold s; lia).
      do 3 f_equal. unfold s. lia. }
  done.
Qed.

(** A random value is below 1 by a unit of its last place at least, so
    that its product with [cz] rounds to less than [cz]. *)
Lemma random_value_below (mx : positive) (ex k κ cz : Z) :
  random_value (S754_finite false mx ex) →
  2 ^ 52 < k → κ ≤ 0 → k = cz * 2 ^ (- κ) →
  ¬ (2 * k - 1) * 2 ^ (- ex) ≤ Z.pos mx * cz * 2 ^ (1 - κ).
Proof.
  intros Hr Hk Hκ Hcz.
  destruct (random_value_finite mx ex Hr) as (Hex & Hmx53 & Hmx & _).
  assert (HX : 2 ^ 53 ≤ 2 ^ (- ex)) by (apply pow2_le; lia).
  replace (2 ^ (1 - κ)) with (2 * 2 ^ (- κ))
    by (rewrite <- pow2_succ by lia; f_equal; lia).
  replace (Z.pos mx * cz * (2 * 2 ^ (- κ))) with (2 * k * Z.pos mx) by (rewrite Hcz; ring).
  assert (H5352 : 2 ^ 53 = 2 * 2 ^ 52) by reflexivity.
  assert (H52 : 0 < 2 ^ 52) by reflexivity.
  set (X := 2 ^ (- ex)) in *. nia.
Qed.

End NumberSpec.


(** * Properties of the fortune spinner *)

Module SpinnerSpec.
Import JS Number Spinner NumberSpec.

(** ** The random draws *)

Section Draws.

Local Open Scope Z_scope.

Lemma threshold_le (mx : positive) (ex i k κ : Z) :
  ex < 0 → 1 ≤ i → κ = Z.log2_up i - 53 → κ ≤ 0 → k = i * 2 ^ (- κ) →
  (threshold i <= to_Q (S754_finite false mx ex))%Q ↔
  (2 * k - 1) * 2 ^ (- ex) ≤ Z.pos mx * 5 * 2 ^ (1 - κ).
Proof.
  intros Hex Hi Hκ Hκ0 Hk. unfold threshold, to_Q.
  destruct (Z.leb_spec i 0) as [|_]; [lia|].
  destruct (Z.ltb_spec ex 0) as [_|]; [|lia].
  cbv zeta. cbn [cond_Zopp]. unfold Qle. cbn [Qnum Qden].
  replace (54 - Z.log2_up i) with (1 - κ) by lia.
  assert (0 < 2 ^ (1 - κ)) by (apply pow2_pos; lia).
  assert (0 < 2 ^ (- ex)) by (apply pow2_pos; lia).
  rewrite !Z2Pos.id by lia.
  replace (i * 2 ^ (1 - κ) - 1) with (2 * k - 1).
  2:{ rewrite Hk. replace (1 - κ) with (- κ + 1) by lia. rewrite pow2_succ by lia. lia. }
  by rewrite Z.mul_assoc.
Qed.

Lemma random_below_5 (r : spec_float) :
  random_value r →
  ∃ z, floor (mul r (of_Z 5)) = Int z ∧ 0 ≤ z ≤ 4 ∧
       ∀ i, 0 ≤ i ≤ 4 →
         z = i ↔ (threshold i <= to_Q r)%Q ∧ (to_Q r < threshold (i + 1))%Q.
Proof.
  intros Hr. change (of_Z 5) with (S754_finite false 5629499534213120 (-50)).
  destruct r as [[]| | |[] mx ex]; try (by destruct Hr as [_ []]).
  { exists 0. split; [done|]. split; [lia|]. intros i Hi.
    assert (Hc : i = 0 ∨ i = 1 ∨ i = 2 ∨ i = 3 ∨ i = 4) by lia.
    destruct Hc as [-> | [-> | [-> | [-> | ->]]]];
      (split; [intros H; try discriminate H; split; vm_compute; (reflexivity || discriminate)
              |intros [H1 H2]; try reflexivity; exfalso; vm_compute in H1; by apply H1]). }
  destruct (floor_mul_random mx 5629499534213120 ex (-50) 5 Hr)
    as (z & Hz & Hz0 & Hthr); [lia|reflexivity|split; [discriminate|reflexivity]|].
  destruct (random_value_finite mx ex Hr) as (Hex & _).
  assert (Hge : ∀ i k κ, 1 ≤ i ≤ 5 → κ = Z.log2_up i - 53 → k = i * 2 ^ (- κ) →
            2 ^ 52 < k ≤ 2 ^ 53 → Z.even k = true → -53 ≤ κ ≤ -50 →
            (i ≤ z ↔ (threshold i <= to_Q (S754_finite false mx ex))%Q)).
  { intros i k κ Hi Hκ Hk Hk52 Heven Hκ53.
    rewrite (threshold_le mx ex i k κ) by lia. apply Hthr; [done|done|lia|done]. }
  pose proof (Hge 1 (2 ^ 53) (-53)) as H1.
  pose proof (Hge 2 (2 ^ 53) (-52)) as H2.
  pose proof (Hge 3 (3 * 2 ^ 51) (-51)) as H3.
  pose proof (Hge 4 (2 ^ 53) (-51)) as H4.
  pose proof (Hge 5 (5 * 2 ^ 50) (-50)) as H5.
  assert (Hlt5 : ¬ (threshold 5 <= to_Q (S754_finite false mx ex))%Q).
  { rewrite (threshold_le mx ex 5 (5 * 2 ^ 50) (-50)); [|lia|lia|reflexivity|lia|reflexivity].
    apply (random_value_below mx ex (5 * 2 ^ 50) (-50) 5 Hr); [reflexivity|lia|reflexivity]. }
  clear Hge Hthr.
  specialize (H1 ltac:(lia) eq_refl eq_refl ltac:(split; [reflexivity|discriminate]) eq_refl ltac:(lia)).
  specialize (H2 ltac:(lia) eq_refl eq_refl ltac:(split; [reflexivity|discriminate]) eq_refl ltac:(lia)).
  specialize (H3 ltac:(lia) eq_refl eq_refl ltac:(split; [reflexivity|discriminate]) eq_refl ltac:(lia)).
  specialize (H4 ltac:(lia) eq_refl eq_refl ltac:(split; [reflexivity|discriminate]) eq_refl ltac:(lia)).
  specialize (H5 ltac:(lia) eq_refl eq_refl ltac:(split; [reflexivity|discriminate]) eq_refl ltac:(lia)).
  set (v := to_Q (S754_finite false mx ex)) in *.
  assert (H0 : (threshold 0 <= v)%Q).
  { unfold v, to_Q, threshold. destruct (Z.ltb_spec ex 0); [|exfalso; lia]. cbn. unfold Qle. cbn. rewrite Z.mul_0_l. lia. }
  assert (Hz4 : z ≤ 4).
  { destruct (Z.le_gt_cases 5 z) as [Hge|]; [|lia]. exfalso. by apply Hlt5, H5. }
  exists z. split; [done|]. split; [lia|]. intros i Hi.
  assert (Hlt : ∀ j, (v < threshold j)%Q ↔ ¬ (threshold j <= v)%Q).
  { intros j. split; [apply Qlt_not_le|apply Qnot_le_lt]. }
  assert (Hc : i = 0 ∨ i = 1 ∨ i = 2 ∨ i = 3 ∨ i = 4) by lia.
  destruct Hc as [-> | [-> | [-> | [-> | ->]]]]; rewrite Hlt.
  - change (0 + 1) with 1. rewrite <- H1.
    split; [intros ->; split; [exact H0|lia]|intros [_ ?]; lia].
  - change (1 + 1) with 2. rewrite <- H1, <- H2. lia.
  - change (2 + 1) with 3. rewrite <- H2, <- H3. lia.
  - change (3 + 1) with 4. rewrite <- H3, <- H4. lia.
  - change (4 + 1) with 5. rewrite <- H4, <- H5. lia.
Qed.

Lemma random_below_360 (r : spec_float) :
  random_value r →
  ∃ z, floor (mul r (of_Z 360)) = Int z ∧ 0 ≤ z ≤ 359.
Proof.
  intros Hr. change (of_Z 360) with (S754_finite false 6333186975989760 (-44)).
  destruct r as [[]| | |[] mx ex]; try (by destruct Hr as [_ []]).
  { exists 0. split; [done|lia]. }
  destruct (floor_mul_random mx 6333186975989760 ex (-44) 360 Hr)
    as (z & Hz & Hz0 & Hthr); [lia|reflexivity|split; [discriminate|reflexivity]|].
  exists z. split; [done|]. split; [done|].
  destruct (Z.le_gt_cases 360 z) as [Hge|]; [|lia]. exfalso.
  apply (Hthr (360 * 2 ^ 44) (-44) 360) in Hge;
    [|split; [reflexivity|discriminate]|reflexivity|lia|reflexivity].
  revert Hge. apply (random_value_below mx ex (360 * 2 ^ 44) (-44) 360 Hr);
    [reflexivity|lia|reflexivity].
Qed.

Lemma threshold_near (i : Z) :
  0 ≤ i ≤ 5 →
  (threshold i <= i # 5)%Q ∧ ((i # 5) <= threshold i + (1 # 2 ^ 53))%Q.
Proof.
  intros Hi. assert (Hc : i = 0 ∨ i = 1 ∨ i = 2 ∨ i = 3 ∨ i = 4 ∨ i = 5) by lia.
  destruct Hc as [-> | [-> | [-> | [-> | [-> | ->]]]]]; split; vm_compute; discriminate.
Qed.

End Draws.

(** ** The callbacks *)

Lemma take_task_last (t : task) (ts : list task) :
  ∃ rest, take_task t (ts ++ [t]) = Some rest.
Proof.
  induction ts as [|t' ts [rest IH]]; cbn [app take_task].
  - rewrite decide_True by done. by eexists.
  - destruct (decide (t' = t)); [by eexists|]. rewrite IH. by eexists.
Qed.

Lemma fortunes_index (k : Z) :
  (0 ≤ k < 5)%Z →
  ∃ msg, fortunes !! Z.to_nat k = Some msg ∧ index fortunes (Int k) = Some msg.
Proof.
  intros Hk. unfold index. rewrite decide_True by lia.
  assert (Hc : (k = 0 ∨ k = 1 ∨ k = 2 ∨ k = 3 ∨ k = 4)%Z) by lia.
  destruct Hc as [-> | [-> | [-> | [-> | ->]]]]; eexists; split; reflexivity.
Qed.

(** C8 (as amended). For every pair of values of the random source, a
    spin first resets the wheel's rotation to zero; the animation frame
    then turns it to three full turns plus a whole offset from 0 to 359
    and waits two seconds; the timeout then shows one message of the
    list of five.  The products are products of binary64 numbers, which
    round: message [i] is shown exactly when the random value lies
    between [threshold i] and [threshold (i + 1)], and each threshold
    lies below [i/5] by less than 2^-53.  The five intervals have the
    same length up to that rounding, not exactly. *)
Theorem spin_shows_one_fortune (st : spinner) (r1 r2 : spec_float) :
  random_value r1 → random_value r2 →
  let st1 := spinWheel st in
  let st2 := on_frame r1 st1 in
  let st3 := on_timeout r2 st2 in
  transition st1 = "none" ∧
  transform st1 = "rotate(0deg)" ∧
  (∃ offset,
     random_below r1 360 = Int offset ∧
     (0 ≤ offset ≤ 359)%Z ∧
     transform st2 = "rotate(" +:+ pretty (3 * 360 + offset)%Z +:+ "deg)") ∧
  transition st2 = "transform 2s ease-out" ∧
  Timeout 2000 ∈ waiting st2 ∧
  length fortunes = 5 ∧
  (∃ k msg,
     random_below r2 5 = Int k ∧
     (0 ≤ k ≤ 4)%Z ∧
     fortunes !! Z.to_nat k = Some msg ∧
     resultHTML st3 = "<h3>" +:+ msg +:+ "</h3>" ∧
     ∀ i, (0 ≤ i ≤ 4)%Z →
       k = i ↔ (threshold i <= to_Q r2)%Q ∧ (to_Q r2 < threshold (i + 1))%Q) ∧
  (∀ i, (0 ≤ i ≤ 5)%Z →
     (threshold i <= i # 5)%Q ∧ (i # 5 <= threshold i + (1 # 2 ^ 53))%Q).
Proof.
  intros Hr1 Hr2. cbv zeta.
  destruct (random_below_360 r1 Hr1) as (offset & Hoff & Hoff359).
  destruct (random_below_5 r2 Hr2) as (k & Hk & Hk4 & Hiff).
  unfold on_frame, spinWheel. cbn [waiting].
  destruct (take_task_last AnimationFrame (waiting st)) as [rest ->].
  cbn [transition transform waiting].
  unfold on_timeout. cbn [waiting].
  destruct (take_task_last (Timeout 2000) rest) as [rest' ->].
  cbn [resultHTML].
  split; [done|]. split; [done|]. split.
  { exists offset. split; [done|]. split; [done|].
    unfold random_below. rewrite Hoff. reflexivity. }
  split; [done|].
  split; [rewrite elem_of_app; right; apply list_elem_of_here|].
  split; [done|]. split; [|apply threshold_near].
  change (Z.of_nat (length fortunes)) with 5%Z.
  destruct (fortunes_index k) as (msg & Hmsg & Hindex); [lia|].
  exists k, msg. split; [done|]. split; [done|]. split; [done|].
  split; [|done]. unfold random_below in *. by rewrite Hk, Hindex.
Qed.

(** A spin with the random values [287729976193115 / 2^52] and
    [5404319552844595 / 2^53], the number written [0.6]. *)
Lemma spin_shows_one_fortune_witness :
  let r1 := S754_finite false 4603679619089840 (-56) in
  let r2 := S754_finite false 5404319552844595 (-53) in
  let st3 := on_timeout r2 (on_frame r1 (spinWheel at_rest)) in
  transform (on_frame r1 (spinWheel at_rest)) = "rotate(1103deg)" ∧
  resultHTML st3 = "<h3>🍍 Tip: Pineapple helps with digestion!</h3>".
Proof.
  cbv zeta.
  destruct (spin_shows_one_fortune at_rest
              (S754_finite false 4603679619089840 (-56))
              (S754_finite false 5404319552844595 (-53)))
    as (_ & _ & (offset & Hoff & _ & Htr) & _ & _ & _ & (k & msg & Hk & _ & Hmsg & Hres & _) & _).
  - split; [reflexivity|]. split; reflexivity.
  - split; [reflexivity|]. split; reflexivity.
  - split.
    + rewrite Htr. vm_compute in Hoff. injection Hoff as <-. vm_compute. reflexivity.
    + rewrite Hres. vm_compute in Hk. injection Hk as <-.
      vm_compute in Hmsg. injection Hmsg as <-. reflexivity.
Defined.

(** C8 as the claim words it fails at the number written [0.6]: it is
    less than 3/5, and its product with 5 rounds to 3, so that the
    fourth message is shown.  The random values that show the fourth
    message are not those from 3/5 to 4/5, and the interval of the third
    message is shorter than that of the fourth: the five messages do not
    have intervals of the same length. *)
Lemma spin_not_in_equal_fifths :
  let r := S754_finite false 5404319552844595 (-53) in
  random_value r ∧
  (to_Q r < 3 # 5)%Q ∧
  random_below r 5 = Int 3 ∧
  resultHTML (on_timeout r (on_frame r (spinWheel at_rest))) =
    "<h3>🍍 Tip: Pineapple helps with digestion!</h3>" ∧
  (threshold 3 - threshold 2 < threshold 4 - threshold 3)%Q.
Proof.
  cbv zeta. split; [|split; [|split; [|split]]].
  - split; [reflexivity|]. split; reflexivity.
  - reflexivity.
  - vm_compute. reflexivity.
  - vm_compute. reflexivity.
  - vm_compute. reflexivity.
Qed.

End SpinnerSpec.

(** * Properties of page initialisation *)

Module PageSpec.
Import JS DOM Page.

(** ** Scripts that only add effects *)

Lemma emits_emit (e : effect) : emits (emit e) [e].
Proof. by intros done. Qed.

Lemma emits_nothing : emits nothing [].
Proof. intros done. unfold nothing. by rewrite app_nil_r. Qed.

Lemma emits_seq (s1 s2 : script) (l1 l2 : list effect) :
  emits s1 l1 → emits s2 l2 → emits (s1 >>> s2) (l1 ++ l2).
Proof.
  intros H1 H2 done. unfold seq_. rewrite H1, H2. by rewrite app_assoc.
Qed.

Lemma emits_for_each {A} (f : A → effect) (xs : list A) :
  emits (for_each xs (λ x, emit (f x))) (f <$> xs).
Proof.
  induction xs as [|x xs IH]; cbn [for_each].
  - apply emits_nothing.
  - rewrite fmap_cons. apply (emits_seq _ _ [f x]); [apply emits_emit|apply IH].
Qed.

Lemma emits_listen_if_present (p : page) (e : elem) (event : string) :
  emits (listen_if_present p e event)
    (if present p e then [AddListener (Elem e) event] else []).
Proof.
  unfold listen_if_present. destruct (present p e);
    [apply emits_emit|apply emits_nothing].
Qed.

Lemma emits_render_grid :
  emits render_grid
    (SetInnerHTML ProduceChart EmptyString :: (AppendCard ∘ card_of <$> produceList)).
Proof.
  unfold render_grid.
  apply (emits_seq _ _ [SetInnerHTML ProduceChart EmptyString]);
    [apply emits_emit|].
  apply (emits_for_each (AppendCard ∘ card_of)).
Qed.

(** What initialisation does, spelled out. *)
Lemma init_run (p : page) :
  init p =
    (if present p ChartToggle then Normal
     else Throws "TypeError: Cannot read properties of null (reading 'addEventListener')",
     ([ConsoleLog "main.js loaded"] ++
      ((λ i, AddListener (TabButton i) "click") <$> seq 0 (tabButtons p)) ++
      (if present p ImageInput then [AddListener (Elem ImageInput) "change"] else []) ++
      [DefineGlobal "openCamera"] ++
      [DefineGlobal "captureImage"] ++
      (if present p SpinBtn then [AddListener (Elem SpinBtn) "click"] else []) ++
      (if present p BerrybotToggle then [AddListener (Elem BerrybotToggle) "click"] else []) ++
      (if present p VoiceBtn then [AddListener (Elem VoiceBtn) "click"] else []) ++
      (if present p BerrybotSend then [AddListener (Elem BerrybotSend) "click"] else []) ++
      (if present p BerrybotText then [AddListener (Elem BerrybotText) "keypress"] else [])) ++
     (if present p ChartToggle then
        AddListener (Elem ChartToggle) "click" ::
        (if present p ProduceChart then
           SetInnerHTML ProduceChart EmptyString :: (AppendCard ∘ card_of <$> produceList)
         else [])
      else [])).
Proof.
  unfold init.
  match goal with
  | |- (?pre >>> listen p ChartToggle "click" >>> ?grid) [] = _ =>
      eassert (Hpre : emits pre _)
  end.
  { repeat apply emits_seq;
      first [ apply emits_listen_if_present
            | apply emits_emit
            | apply (emits_for_each (λ i, AddListener (TabButton i) "click")) ]. }
  unfold seq_ at 1 2. rewrite Hpre. unfold listen.
  destruct (present p ChartToggle).
  - unfold emit at 1. cbn beta iota.
    destruct (present p ProduceChart).
    + rewrite emits_render_grid. f_equal. rewrite app_nil_l, <- !app_assoc. reflexivity.
    + unfold nothing. f_equal. rewrite app_nil_l, <- !app_assoc. reflexivity.
  - unfold throw. cbn beta iota. f_equal.
    rewrite app_nil_l, app_nil_r, <- !app_assoc. reflexivity.
Qed.

Lemma elem_of_if_present (b : bool) (x y : effect) :
  x ∈ (if b then [y] else []) ↔ b = true ∧ x = y.
Proof.
  destruct b.
  - rewrite list_elem_of_singleton. tauto.
  - rewrite elem_of_nil. split; [done|]. by intros [? _].
Qed.

Lemma not_tab_listener (x : effect) (tabs : list nat) :
  (∀ i, x ≠ AddListener (TabButton i) "click") →
  x ∉ (λ i, AddListener (TabButton i) "click") <$> tabs.
Proof. intros Hx. rewrite list_elem_of_fmap. intros (i & -> & _). by apply (Hx i). Qed.

Lemma not_appended_card (x : effect) (items : list produce) :
  (∀ c, x ≠ AppendCard c) → x ∉ AppendCard ∘ card_of <$> items.
Proof. intros Hx. rewrite list_elem_of_fmap. intros (i & -> & _). by apply (Hx (card_of i)). Qed.

Lemma cards_app (l1 l2 : list effect) : cards (l1 ++ l2) = cards l1 ++ cards l2.
Proof. apply omap_app. Qed.

Lemma cards_if_present (b : bool) (t : target) (event : string) :
  cards (if b then [AddListener t event] else []) = [].
Proof. by destruct b. Qed.

Lemma cards_tab_listeners (tabs : list nat) :
  cards ((λ i, AddListener (TabButton i) "click") <$> tabs) = [].
Proof. induction tabs as [|i tabs IH]; [done|]. rewrite fmap_cons. exact IH. Qed.

Lemma cards_appended (items : list produce) :
  cards (AppendCard ∘ card_of <$> items) = card_of <$> items.
Proof.
  induction items as [|item items IH]; [done|].
  rewrite !fmap_cons. unfold cards in *. cbn [omap list_omap compose]. by rewrite IH.
Qed.

(** C9. Initialisation throws exactly when the chart toggle control is
    absent: every other widget registers its listener behind an
    existence check, so its listener is there exactly when its element
    is, and nothing is thrown for an absent one.  The chart paths do not
    match each other: the toggle is registered without a check and its
    absence throws (the grid is then never drawn); the grid is drawn
    behind a check, one card per entry of the list when the panel is
    there and nothing when it is not; the toggle's click listener uses
    the panel without a check and throws when the panel is absent. *)
Theorem init_guards (p : page) :
  ((init p).1 = Normal ↔ present p ChartToggle = true) ∧
  (∀ e event, (e, event) ∈ guarded →
     (AddListener (Elem e) event ∈ (init p).2 ↔ present p e = true)) ∧
  (present p ChartToggle = false →
     (init p).1 =
       Throws "TypeError: Cannot read properties of null (reading 'addEventListener')" ∧
     Forall (λ x, is_grid_effect x = false) (init p).2) ∧
  (present p ChartToggle = true →
     AddListener (Elem ChartToggle) "click" ∈ (init p).2 ∧
     (SetInnerHTML ProduceChart EmptyString ∈ (init p).2 ↔ present p ProduceChart = true) ∧
     cards (init p).2 =
       (if present p ProduceChart then card_of <$> produceList else [])) ∧
  length produceList = 17 ∧
  (∀ classes,
     on_chartToggle_click (Some classes) =
       (Normal, Some (classList_toggle "revealed" classes), true)) ∧
  on_chartToggle_click None =
    (Throws "TypeError: Cannot read properties of null (reading 'classList')",
     None, false).
Proof.
  rewrite init_run. cbn [fst snd].
  split; [|split; [|split; [|split; [|split; [|split]]]]]; try reflexivity.
  - destruct (present p ChartToggle); split; done.
  - intros e event He. unfold guarded in He.
    assert (Htab := not_tab_listener (AddListener (Elem e) event) (seq 0 (tabButtons p))
                      ltac:(done)).
    assert (Hcard := not_appended_card (AddListener (Elem e) event) produceList
                       ltac:(done)).
    destruct (present p ChartToggle), (present p ProduceChart);
      rewrite !elem_of_app, ?elem_of_cons, !elem_of_if_present, ?elem_of_nil;
      repeat (apply elem_of_cons in He as [[= -> ->] | He]);
      try (by apply elem_of_nil in He); intuition congruence.
  - intros ->. split; [done|]. rewrite app_nil_r.
    rewrite !Forall_app. repeat split;
      try (by repeat constructor);
      try (by destruct (present p _); repeat constructor).
    apply Forall_fmap, Forall_true. done.
  - intros ->. split; [|split].
    + rewrite elem_of_app. right. apply list_elem_of_here.
    + assert (Htab := not_tab_listener (SetInnerHTML ProduceChart EmptyString)
                        (seq 0 (tabButtons p)) ltac:(done)).
      assert (Hcard := not_appended_card (SetInnerHTML ProduceChart EmptyString)
                         produceList ltac:(done)).
      destruct (present p ProduceChart);
        rewrite !elem_of_app, ?elem_of_cons, !elem_of_if_present, ?elem_of_nil;
        intuition congruence.
    + rewrite !cards_app, !cards_if_present, cards_tab_listeners. cbn [app].
      destruct (present p ProduceChart); [|done].
      unfold cards at 1. cbn [omap list_omap]. apply cards_appended.
Qed.


(** C9 as the claim words it fails for the produce grid: on a page with
    the chart toggle and without the chart panel, initialisation ends
    normally; the grid is skipped and nothing is thrown. *)
Lemma grid_skipped_without_panel :
  let p := page_with [ChartToggle] 0 in
  present p ProduceChart = false ∧
  init p =
    (Normal,
     [ ConsoleLog "main.js loaded";
       DefineGlobal "openCamera";
       DefineGlobal "captureImage";
       AddListener (Elem ChartToggle) "click" ]).
Proof. cbv zeta. split; vm_compute; reflexivity. Qed.

(** A page with nothing but tab buttons: every guarded widget is
    skipped, and the unguarded chart toggle ends the listener. *)
Example init_on_bare_page :
  init (page_with [] 2) =
    (Throws "TypeError: Cannot read properties of null (reading 'addEventListener')",
     [ ConsoleLog "main.js loaded";
       AddListener (TabButton 0) "click";
       AddListener (TabButton 1) "click";
       DefineGlobal "openCamera";
       DefineGlobal "captureImage" ]).
Proof. vm_compute. reflexivity. Qed.

(** The full page draws one card per entry of the list. *)
Example init_draws_every_card :
  length (cards (init (page_with [ChartToggle; ProduceChart] 0)).2) = 17.
Proof. vm_compute. reflexivity. Qed.

End PageSpec.

(** * The service worker's listeners, one after the other *)

Module SWLife.
Import SW SWSpec.

(** ** What each listener leaves *)

Lemma on_fetch_caches (net : request → option response) (q : request) (w : world) :
  caches (on_fetch net q w).2 = caches w.
Proof.
  unfold on_fetch, caches_match, and_then, log. cbn [caches oplog].
  destruct (storage_match q (caches w)) as [r|]; [done|].
  by rewrite fetch_run.
Qed.

Lemma on_activate_run (w : world) :
  ∃ bs,
    on_activate w =
      (Fulfilled bs,
       World (filter (λ e, e.1 = CACHE_NAME) (caches w))
             (oplog w ++ OpKeys ::
                (OpDelete <$> filter (λ n, n ≠ CACHE_NAME) (caches w).*1))).
Proof.
  unfold on_activate, caches_keys, and_then, log, promise_all. cbn [caches oplog].
  destruct (start_all_delete (filter (λ n, n ≠ CACHE_NAME) (caches w).*1)
              (World (caches w) (oplog w ++ [OpKeys]))) as [bs ->].
  exists bs. rewrite all_settled_fulfilled. cbn [caches oplog].
  rewrite foldl_storage_delete, <- app_assoc. do 2 f_equal.
  apply filter_iff_on. intros e He. rewrite list_elem_of_filter. split.
  - intros Hn. destruct (decide (e.1 = CACHE_NAME)) as [|Hne]; [done|].
    destruct Hn. split; [done|]. by apply list_elem_of_fmap_2.
  - intros -> [Hne _]. done.
Qed.

(** ** The names of the caches *)

Lemma storage_update_names (name : string) (f : cache → cache) (cs : cache_storage) :
  (storage_update name f cs).*1 = cs.*1.
Proof.
  unfold storage_update. rewrite <- list_fmap_compose. apply list_fmap_ext.
  intros _ [n c] _. cbn. by destruct (decide (n = name)).
Qed.

Lemma storage_open_NoDup (name : string) (cs : cache_storage) :
  NoDup cs.*1 → NoDup (storage_open name cs).*1.
Proof.
  intros Hnd. unfold storage_open, has_cache. case_bool_decide as Hin; [done|].
  rewrite fmap_app. apply NoDup_app. split; [done|]. split; [|apply NoDup_singleton].
  intros x Hx. cbn. rewrite list_elem_of_singleton. by intros ->.
Qed.

Lemma filter_name_NoDup (name : string) (cs : cache_storage) :
  NoDup cs.*1 → NoDup (filter (λ e, e.1 = name) cs).*1.
Proof.
  induction cs as [|[n c] cs IH]; [done|]. rewrite fmap_cons. cbn [fst].
  intros [Hn Hnd]%NoDup_cons. rewrite filter_cons. cbn [fst].
  destruct (decide (n = name)); [|by apply IH].
  rewrite fmap_cons. apply NoDup_cons. split; [|by apply IH].
  cbn [fst]. rewrite list_elem_of_fmap. intros ([n' c'] & -> & [_ Hin]%list_elem_of_filter).
  apply Hn. rewrite list_elem_of_fmap. by exists (n', c').
Qed.

(** X1. The three listeners keep the names of the caches distinct. *)
Theorem listeners_keep_names_distinct (net : request → option response)
    (q : request) (w : world) :
  NoDup (caches w).*1 →
  NoDup (caches (on_install net w).2).*1 ∧
  NoDup (caches (on_activate w).2).*1 ∧
  NoDup (caches (on_fetch net q w).2).*1.
Proof.
  intros Hnd. split; [|split].
  - destruct (on_install_run net w) as [Hyes Hno].
    destruct (decide (Forall (accepted net) urlsToCache)) as [Hall|Hall].
    + destruct (Hyes Hall) as (es & _ & ->). cbn [snd caches].
      rewrite storage_update_names. by apply storage_open_NoDup.
    + destruct (Hno Hall) as (e & ->). cbn [snd caches]. by apply storage_open_NoDup.
  - destruct (on_activate_run w) as (bs & ->). cbn [snd caches].
    by apply filter_name_NoDup.
  - by rewrite on_fetch_caches.
Qed.

Lemma listeners_keep_names_distinct_witness :
  let w := World [("fruitveg-cache-v1", []); (CACHE_NAME, [])] [] in
  NoDup (caches (on_install (λ _, None) w).2).*1 ∧
  NoDup (caches (on_activate w).2).*1 ∧
  NoDup (caches (on_fetch (λ _, None) (GET "/") w).2).*1.
Proof.
  cbv zeta. apply listeners_keep_names_distinct.
  apply (bool_decide_unpack _). vm_compute. exact I.
Defined.

(** ** Activating again *)

Lemma filter_other_names_of_current (cs : cache_storage) :
  filter (λ n, n ≠ CACHE_NAME) (filter (λ e, e.1 = CACHE_NAME) cs).*1 = [].
Proof.
  induction cs as [|[n c] cs IH]; [done|].
  rewrite filter_cons. cbn [fst]. destruct (decide (n = CACHE_NAME)) as [->|]; [|done].
  rewrite fmap_cons, filter_cons_False by (cbn; tauto). exact IH.
Qed.

(** X2. A second activation finds nothing to delete: it only lists the
    caches and leaves the storage as the first activation left it. *)
Theorem activate_again_deletes_nothing (w : world) :
  let w1 := (on_activate w).2 in
  on_activate w1 = (Fulfilled [], World (caches w1) (oplog w1 ++ [OpKeys])).
Proof.
  cbv zeta. destruct (on_activate_run w) as (bs & ->). cbn [snd].
  unfold on_activate, caches_keys, and_then, log, promise_all. cbn [caches oplog].
  rewrite filter_other_names_of_current. reflexivity.
Qed.

(** ** Requests that are not GET *)

Lemma cache_match_not_GET (q : request) (c : cache) :
  req_method q ≠ "GET" → cache_match q c = None.
Proof.
  intros Hm. induction c as [|[stored r] c IH]; [done|]. cbn [cache_match].
  rewrite decide_False; [done|]. by intros [? _].
Qed.

Lemma storage_match_not_GET (q : request) (cs : cache_storage) :
  req_method q ≠ "GET" → storage_match q cs = None.
Proof.
  intros Hm. induction cs as [|[n c] cs IH]; [done|]. cbn [storage_match].
  by rewrite cache_match_not_GET.
Qed.

(** X3. A request whose method is not GET is never answered from a
    cache: whatever the caches hold, the fetch listener sends it to the
    network once and hands on what the network gave. *)
Theorem non_GET_goes_to_network (net : request → option response)
    (q : request) (w : world) :
  req_method q ≠ "GET" →
  ∃ res,
    on_fetch net q w = (res, World (caches w) (oplog w ++ [OpMatch q; OpFetch q])) ∧
    match net q with
    | Some r => res = Fulfilled r
    | None => ∃ e, res = Rejected e
    end.
Proof.
  intros Hm. unfold on_fetch, caches_match, and_then, log. cbn [caches oplog].
  rewrite storage_match_not_GET by done. rewrite fetch_run. cbn [caches oplog].
  rewrite <- app_assoc. eexists. split; [reflexivity|].
  destruct (net q); eauto.
Qed.

Lemma non_GET_goes_to_network_witness :
  let post := Request "POST" "/api/berrybot" [] in
  let w := World [(CACHE_NAME, [(GET "/api/berrybot", Response 200 [] "stale")])] [] in
  let net q := Some (Response 200 [] "fresh") in
  ∃ res,
    on_fetch net post w = (res, World (caches w) (oplog w ++ [OpMatch post; OpFetch post])) ∧
    res = Fulfilled (Response 200 [] "fresh").
Proof.
  cbv zeta.
  destruct (non_GET_goes_to_network (λ _, Some (Response 200 [] "fresh"))
              (Request "POST" "/api/berrybot" [])
              (World [(CACHE_NAME, [(GET "/api/berrybot", Response 200 [] "stale")])] []))
    as (res & Hrun & Hres).
  - cbn. discriminate.
  - exists res. split; [exact Hrun|exact Hres].
Defined.

(** ** What an install stores *)

Lemma stored_entries_unique (net : request → option response)
    (urls : list string) (es es' : list (request * response)) :
  Forall2 (λ url e, e.1 = GET url ∧ net (GET url) = Some e.2 ∧ addAll_accepts e.2)
    urls es →
  Forall2 (λ url e, e.1 = GET url ∧ net (GET url) = Some e.2 ∧ addAll_accepts e.2)
    urls es' →
  es = es'.
Proof.
  intros H. revert es'. induction H as [|u [q r] urls es (Hq & Hr & _) Hes IH];
    intros es' H'; inversion H' as [|? [q' r'] ? es'' (Hq' & Hr' & _) Hes']; subst; [done|].
  cbn in *. f_equal; [|by apply IH]. congruence.
Qed.

(** The stored entries are matched by the requests that stored them. *)
Lemma stored_entries_replaced (net : request → option response)
    (urls : list string) (es : list (request * response)) :
  Forall2 (λ url e, e.1 = GET url ∧ net (GET url) = Some e.2 ∧ addAll_accepts e.2)
    urls es →
  filter (λ x, Forall (λ url, ¬ matches_cached_item (GET url) x) urls) es = [].
Proof.
  intros H. apply filter_none.
  induction H as [|u [q r] urls es (Hq & Hr & Hacc) Hes IH]; [done|].
  cbn in Hq, Hacc. subst q. constructor.
  - intros [Hu _]%Forall_cons. by apply Hu, matches_own.
  - eapply Forall_impl; [exact IH|]. intros x Hx [_ Hall]%Forall_cons. by apply Hx.
Qed.

(** X4. After an install in which every listed URL got a response that
    [cache.addAll] accepts, the versioned cache holds the pairs it held
    before that none of the listed requests matches, followed by one
    pair per listed URL, in the order of the list, each with the
    response the network gave: the pairs the listed requests match are
    replaced, not doubled. *)
Theorem install_cache_contents (net : request → option response) (w : world) :
  (∀ url, url ∈ urlsToCache → ∃ r, net (GET url) = Some r ∧ addAll_accepts r) →
  ∃ es,
    Forall2 (λ url e, e.1 = GET url ∧ net (GET url) = Some e.2) urlsToCache es ∧
    storage_lookup CACHE_NAME (caches (on_install net w).2) =
      Some (filter (λ x, Forall (λ url, ¬ matches_cached_item (GET url) x) urlsToCache)
              (default [] (storage_lookup CACHE_NAME (caches w))) ++ es).
Proof.
  intros Hall. destruct (on_install_run net w) as [Hyes _].
  destruct Hyes as (es & Hes & ->); [by apply Forall_forall|].
  exists es. split.
  - eapply Forall2_impl; [exact Hes|]. intros u e (? & ? & _). done.
  - cbn [snd caches]. by apply (installed_cache net).
Qed.

(** The pair of [/] is replaced, the pair of [/about] is kept, and so is
    a pair of [/login] whose response varies on a header that its
    request carries and the request of the install does not. *)
Lemma install_cache_contents_witness :
  let net q := Some (Response 200 [] (req_url q)) in
  let html := (Request "GET" "/login" [("Accept", "text/html")],
               Response 200 ["accept"] "login page") in
  let w := World [(CACHE_NAME, [(GET "/", Response 200 [] "old home");
                                (GET "/about", Response 200 [] "about");
                                html])] [] in
  ∃ es,
    Forall2 (λ url e, e.1 = GET url ∧ net (GET url) = Some e.2) urlsToCache es ∧
    storage_lookup CACHE_NAME (caches (on_install net w).2) =
      Some ((GET "/about", Response 200 [] "about") :: html :: es).
Proof.
  cbv zeta.
  destruct (install_cache_contents (λ q, Some (Response 200 [] (req_url q)))
              (World [(CACHE_NAME, [(GET "/", Response 200 [] "old home");
                                    (GET "/about", Response 200 [] "about");
                                    (Request "GET" "/login" [("Accept", "text/html")],
                                     Response 200 ["accept"] "login page")])] []))
    as (es & Hes & Hlook).
  - intros url _. eexists. split; [reflexivity|].
    apply (bool_decide_unpack _). vm_compute. exact I.
  - exists es. split; [exact Hes|]. rewrite Hlook. f_equal.
Defined.

Lemma storage_open_twice (name : string) (cs : cache_storage) :
  storage_open name (storage_open name cs) = storage_open name cs.
Proof.
  unfold storage_open at 1. unfold has_cache at 1. rewrite bool_decide_true; [done|].
  unfold storage_open, has_cache. case_bool_decide as Hin; [done|].
  rewrite fmap_app, elem_of_app. right. apply list_elem_of_here.
Qed.

(** X5. Installing again over the same network changes nothing in the
    cache storage, whether the install succeeds or not. *)
Theorem install_again_same_storage (net : request → option response) (w : world) :
  caches (on_install net (on_install net w).2).2 = caches (on_install net w).2.
Proof.
  destruct (on_install_run net (on_install net w).2) as [Hyes2 Hno2].
  destruct (on_install_run net w) as [Hyes Hno].
  destruct (decide (Forall (accepted net) urlsToCache)) as [Hall|Hall].
  - destruct (Hyes2 Hall) as (es2 & Hes2 & ->).
    destruct (Hyes Hall) as (es & Hes & ->). cbn [snd caches].
    rewrite (stored_entries_unique net urlsToCache es2 es Hes2 Hes).
    assert (Hopen : storage_open CACHE_NAME
              (storage_update CACHE_NAME (λ c, foldl (λ c e, cache_put e.1 e.2 c) c es)
                 (storage_open CACHE_NAME (caches w)))
            = storage_update CACHE_NAME (λ c, foldl (λ c e, cache_put e.1 e.2 c) c es)
                 (storage_open CACHE_NAME (caches w))).
    { unfold storage_open at 1. unfold has_cache at 1.
      rewrite storage_update_names, bool_decide_true; [done|].
      unfold storage_open, has_cache. case_bool_decide as Hin; [done|].
      rewrite fmap_app, elem_of_app. right. apply list_elem_of_here. }
    rewrite Hopen, storage_update_compose. unfold storage_update.
    apply list_fmap_ext. intros _ [n c] _. cbn [fst snd].
    destruct (decide (n = CACHE_NAME)); [|done]. f_equal. cbn [compose].
    rewrite !(foldl_cache_put net urlsToCache es Hes urlsToCache_NoDup).
    rewrite filter_app, (stored_entries_replaced net urlsToCache es Hes), app_nil_r.
    f_equal. apply list_filter_filter_l. done.
  - destruct (Hno2 Hall) as (e2 & ->). destruct (Hno Hall) as (e & ->).
    cbn [snd caches]. apply storage_open_twice.
Qed.

(** An install on top of an older cache, twice, over a network that
    answers every URL and over one that is down. *)
Example install_again_examples :
  let net q := Some (Response 200 [] (req_url q)) in
  let down (q : request) : option response := None in
  let w := World [("fruitveg-cache-v1", [(GET "/", Response 200 [] "v1 home")])] [] in
  length (caches (on_install net (on_install net w).2).2) = 2 ∧
  caches (on_install down (on_install down w).2).2 =
    [("fruitveg-cache-v1", [(GET "/", Response 200 [] "v1 home")]); (CACHE_NAME, [])].
Proof. cbv zeta. split; vm_compute; reflexivity. Qed.

(** ** Served offline *)

Lemma urlsToCache_no_fragment (url : string) :
  url ∈ urlsToCache → url_without_fragment url = url.
Proof.
  revert url. apply Forall_forall.
  apply (bool_decide_unpack _). vm_compute. exact I.
Qed.

Lemma header_get_nil (field : string) : header_get field [] = None.
Proof. reflexivity. Qed.

(** The stored pair of a listed URL answers a query for that URL that
    carries none of the headers its response varies on. *)
Lemma cache_match_stored_query (net : request → option response)
    (urls : list string) (es : list (request * response)) (q : request) :
  Forall2 (λ url e, e.1 = GET url ∧ net (GET url) = Some e.2 ∧ addAll_accepts e.2)
    urls es →
  NoDup (url_without_fragment <$> urls) →
  req_method q = "GET" →
  ∀ url, url ∈ urls →
    url_without_fragment (req_url q) = url_without_fragment url →
    (∀ r field, net (GET url) = Some r → field ∈ resp_vary r →
       header_get field (req_headers q) = None) →
    ∃ r, net (GET url) = Some r ∧ cache_match q es = Some r.
Proof.
  intros Hes Hnd Hq.
  induction Hes as [|u [q' r] urls es (Hq' & Hr & Hacc) Hes IH]; intros url Hurl Hfrag Hvary.
  { by apply elem_of_nil in Hurl. }
  rewrite fmap_cons in Hnd. apply NoDup_cons in Hnd as [Hu Hnd].
  cbn in Hq', Hr, Hacc. subst q'. cbn [cache_match].
  destruct (decide (url = u)) as [->|Hne].
  - exists r. split; [done|]. rewrite decide_True; [done|].
    split; [done|]. split; [done|]. split; [done|]. cbn [fst snd].
    destruct Hacc as (_ & _ & Hstar).
    apply Forall_forall. intros field Hfield. split; [by intros ->|].
    rewrite header_get_nil. symmetry. by apply (Hvary r).
  - apply elem_of_cons in Hurl as [|Hurl]; [done|].
    destruct (IH Hnd url Hurl Hfrag Hvary) as (r' & Hr' & Hm).
    exists r'. split; [done|].
    rewrite decide_False; [done|]. intros (_ & _ & Heq & _). cbn in Heq.
    apply Hu. rewrite <- Heq, Hfrag. by apply list_elem_of_fmap_2.
Qed.

Lemma filter_name_lookup (name : string) (c : cache) (cs : cache_storage) :
  NoDup cs.*1 →
  storage_lookup name cs = Some c →
  filter (λ e, e.1 = name) cs = [(name, c)].
Proof.
  induction cs as [|[n c'] cs IH]; [done|]. rewrite fmap_cons. cbn [fst].
  intros [Hn Hnd]%NoDup_cons. cbn [storage_lookup]. rewrite filter_cons. cbn [fst].
  destruct (decide (n = name)) as [->|Hne].
  - intros [= ->]. f_equal.
    clear IH Hnd. induction cs as [|[n' c''] cs IHcs]; [done|].
    rewrite fmap_cons, not_elem_of_cons in Hn. destruct Hn as [Hne Hn]. cbn in Hne.
    rewrite filter_cons_False by (cbn; congruence). by apply IHcs.
  - by apply IH.
Qed.

(** X6. After an install in which every listed URL got a response that
    [cache.addAll] accepts, followed by the activation, a GET request
    for a listed URL (with or without a fragment) is answered from the
    cache with the response fetched at install time, with no call to the
    network, whatever the network would give then (also when it is
    down).  This holds for a request that carries none of the headers
    the stored response varies on, when the pairs the versioned cache
    held before for that request are among those the install replaces. *)
Theorem listed_url_served_offline (net net' : request → option response)
    (w : world) (q : request) (url : string) :
  NoDup (caches w).*1 →
  (∀ u, u ∈ urlsToCache → ∃ r, net (GET u) = Some r ∧ addAll_accepts r) →
  url ∈ urlsToCache →
  req_method q = "GET" →
  url_without_fragment (req_url q) = url →
  (∀ r field, net (GET url) = Some r → field ∈ resp_vary r →
     header_get field (req_headers q) = None) →
  (∀ c e, storage_lookup CACHE_NAME (caches w) = Some c → e ∈ c →
     request_matches q e → matches_cached_item (GET url) e) →
  let w2 := (on_activate (on_install net w).2).2 in
  ∃ r,
    net (GET url) = Some r ∧
    on_fetch net' q w2 =
      (Fulfilled r, World (caches w2) (oplog w2 ++ [OpMatch q])).
Proof.
  intros Hnd Hall Hurl Hq Hfrag Hvary Hold. cbv zeta.
  destruct (on_install_run net w) as [Hyes _].
  destruct Hyes as (es & Hes & Hrun); [by apply Forall_forall|].
  assert (Hnd1 : NoDup (caches (on_install net w).2).*1).
  { rewrite Hrun. cbn [snd caches].
    rewrite storage_update_names. by apply storage_open_NoDup. }
  assert (Hlook : storage_lookup CACHE_NAME (caches (on_install net w).2) =
            Some (filter (λ x, Forall (λ url, ¬ matches_cached_item (GET url) x) urlsToCache)
                    (default [] (storage_lookup CACHE_NAME (caches w))) ++ es)).
  { rewrite Hrun. cbn [snd caches]. by apply (installed_cache net). }
  destruct (cache_match_stored_query net urlsToCache es q Hes urlsToCache_NoDup Hq url Hurl)
    as (r & Hr & Hmatch); [by rewrite (urlsToCache_no_fragment url Hurl)|done|].
  destruct (on_activate_run (on_install net w).2) as (bs & ->). cbn [snd].
  exists r. split; [done|].
  unfold on_fetch, caches_match, and_then, log, resolve. cbn [caches oplog].
  rewrite (filter_name_lookup CACHE_NAME _ _ Hnd1 Hlook). cbn [storage_match].
  rewrite cache_match_app, cache_match_miss, Hmatch; [done|].
  apply Forall_forall. intros x [Hx Hin]%list_elem_of_filter Hm.
  rewrite Forall_forall in Hx. apply (Hx url Hurl).
  destruct (storage_lookup CACHE_NAME (caches w)) as [c|] eqn:Hc;
    [|by apply elem_of_nil in Hin].
  by apply (Hold c x).
Qed.

(** The page asks for [/login#top] with an [Accept] header; the stored
    response varies on [Accept-Encoding], which the request does not
    carry; the network is down. *)
Lemma listed_url_served_offline_witness :
  let net q := Some (Response 200 ["Accept-Encoding"] (req_url q)) in
  let down (q : request) : option response := None in
  let w := World [("fruitveg-cache-v1", [(GET "/login", Response 200 [] "v1 login")])] [] in
  let q := Request "GET" "/login#top" [("Accept", "text/html")] in
  let w2 := (on_activate (on_install net w).2).2 in
  (caches w2).*1 = [CACHE_NAME] ∧
  (on_fetch down q w2).1 = Fulfilled (Response 200 ["Accept-Encoding"] "/login").
Proof.
  cbv zeta. split; [vm_compute; reflexivity|].
  destruct (listed_url_served_offline
              (λ q, Some (Response 200 ["Accept-Encoding"] (req_url q))) (λ _, None)
              (World [("fruitveg-cache-v1", [(GET "/login", Response 200 [] "v1 login")])] [])
              (Request "GET" "/login#top" [("Accept", "text/html")])
              "/login") as (r & Hr & ->).
  - apply (bool_decide_unpack _). vm_compute. exact I.
  - intros u _. eexists. split; [reflexivity|].
    apply (bool_decide_unpack _). vm_compute. exact I.
  - apply (bool_decide_unpack _). vm_compute. exact I.
  - reflexivity.
  - reflexivity.
  - intros r field [= <-] Hfield. cbn in Hfield.
    apply list_elem_of_singleton in Hfield as ->. reflexivity.
  - intros c e Hc. vm_compute in Hc. discriminate Hc.
  - cbn [fst]. cbn in Hr. by injection Hr as <-.
Defined.

(** ** The other caches during an install *)

Lemma storage_lookup_update_ne (name other : string) (f : cache → cache)
    (cs : cache_storage) :
  other ≠ name →
  storage_lookup other (storage_update name f cs) = storage_lookup other cs.
Proof.
  intros Hne. induction cs as [|[n c] cs IH]; [done|]. cbn.
  destruct (decide (n = name)) as [->|]; cbn.
  - by rewrite !decide_False by done.
  - destruct (decide (n = other)); [done|exact IH].
Qed.

Lemma storage_lookup_open_ne (name other : string) (cs : cache_storage) :
  other ≠ name →
  storage_lookup other (storage_open name cs) = storage_lookup other cs.
Proof.
  intros Hne. unfold storage_open. destruct (has_cache name cs); [done|].
  induction cs as [|[n c] cs IH]; cbn.
  - by rewrite decide_False.
  - destruct (decide (n = other)); [done|exact IH].
Qed.

Lemma storage_match_first (q : request) (r : response) (name : string)
    (c : cache) (cs : cache_storage) :
  cache_match q c = Some r → storage_match q ((name, c) :: cs) = Some r.
Proof. intros H. cbn [storage_match]. by rewrite H. Qed.

(** X19. An install leaves every cache but the versioned one as it was,
    whether it succeeds or not.  So an older version's cache that was
    created first keeps answering the requests it holds after the new
    version is installed, until the activation deletes it. *)
Theorem install_leaves_other_caches (net net' : request → option response)
    (old : string) (c_old : cache) (rest : cache_storage) (oplog0 : list op)
    (q : request) (r : response) :
  old ≠ CACHE_NAME →
  cache_match q c_old = Some r →
  let w := World ((old, c_old) :: rest) oplog0 in
  let w1 := (on_install net w).2 in
  (∀ other, other ≠ CACHE_NAME →
     storage_lookup other (caches w1) = storage_lookup other (caches w)) ∧
  (on_fetch net' q w1).1 = Fulfilled r.
Proof.
  intros Hold Hq. cbv zeta.
  assert (Hcaches : ∃ f, caches (on_install net (World ((old, c_old) :: rest) oplog0)).2
                         = storage_update CACHE_NAME f
                             (storage_open CACHE_NAME ((old, c_old) :: rest))).
  { destruct (on_install_run net (World ((old, c_old) :: rest) oplog0)) as [Hyes Hno].
    destruct (decide (Forall (accepted net) urlsToCache)) as [Hall|Hall].
    - destruct (Hyes Hall) as (es & _ & ->). by eexists.
    - destruct (Hno Hall) as (e & ->). exists (λ c, c). cbn [snd caches].
      by rewrite storage_update_id. }
  destruct Hcaches as [f Hcaches]. split.
  - intros other Hother. rewrite Hcaches. cbn [caches].
    by rewrite storage_lookup_update_ne, storage_lookup_open_ne.
  - unfold on_fetch, caches_match, and_then, log, resolve. cbn [caches oplog].
    rewrite Hcaches.
    assert (Hhead : ∃ tail, storage_update CACHE_NAME f
                              (storage_open CACHE_NAME ((old, c_old) :: rest))
                            = (old, c_old) :: tail).
    { unfold storage_open. destruct (has_cache CACHE_NAME _);
        unfold storage_update; rewrite ?fmap_app, fmap_cons; cbn [fst snd];
        rewrite decide_False by done; by eexists. }
    destruct Hhead as [tail ->]. by rewrite (storage_match_first q r old c_old tail Hq).
Qed.

Lemma install_leaves_other_caches_witness :
  let net q := Some (Response 200 [] ("v2 " +:+ req_url q)) in
  let w := World [("fruitveg-cache-v1", [(GET "/", Response 200 [] "v1 home")])] [] in
  let w1 := (on_install net w).2 in
  storage_lookup "fruitveg-cache-v1" (caches w1) = Some [(GET "/", Response 200 [] "v1 home")] ∧
  (on_fetch net (GET "/") w1).1 = Fulfilled (Response 200 [] "v1 home").
Proof.
  cbv zeta.
  destruct (install_leaves_other_caches
              (λ q, Some (Response 200 [] ("v2 " +:+ req_url q)))
              (λ q, Some (Response 200 [] ("v2 " +:+ req_url q)))
              "fruitveg-cache-v1" [(GET "/", Response 200 [] "v1 home")] [] []
              (GET "/") (Response 200 [] "v1 home")) as [Hframe Hfetch].
  - vm_compute. discriminate.
  - reflexivity.
  - split; [|exact Hfetch].
    rewrite (Hframe "fruitveg-cache-v1"); [reflexivity|vm_compute; discriminate].
Defined.

End SWLife.

(** * The chat widget over sequences of events *)

Module ChatLife.
Import JS DOM Chat DOMSpec ChatSpec.

(** ** What can leave the transcript *)

Lemma kept_sendMessage (n : node) (text : option string) (st : chat) :
  n ∈ messages st ∧ node_id n < created st ∧ typingEl st ≠ Some (node_id n) →
  let st' := sendMessage text st in
  n ∈ messages st' ∧ node_id n < created st' ∧ typingEl st' ≠ Some (node_id n).
Proof.
  intros (Hin & Hid & Hty). cbv zeta.
  destruct (decide (prompt_of text st = EmptyString)) as [Hp|Hp].
  { by rewrite sendMessage_blank. }
  rewrite sendMessage_run by done. cbn [messages created typingEl].
  split; [rewrite elem_of_app; by left|]. split; [lia|]. intros [=]. lia.
Qed.

Lemma kept_resume (n : node) (k : nat) (o : outcome) (st : chat) :
  n ∈ messages st ∧ node_id n < created st ∧ typingEl st ≠ Some (node_id n) →
  let st' := sendMessage_resume k o st in
  n ∈ messages st' ∧ node_id n < created st' ∧ typingEl st' ≠ Some (node_id n).
Proof.
  intros (Hin & Hid & Hty). cbv zeta.
  destruct (decide (k ∈ pending st)) as [Hk|Hk];
    [|unfold sendMessage_resume; by rewrite decide_False].
  assert (Hsame : ∀ st', messages st' = messages st → created st' = created st →
            typingEl st' = typingEl st →
            n ∈ messages st' ∧ node_id n < created st' ∧ typingEl st' ≠ Some (node_id n)).
  { intros st' -> -> ->. done. }
  destruct o as [| |v].
  - destruct (sendMessage_resume_failure k NetworkError st Hk) as [r ->]; auto.
  - destruct (sendMessage_resume_failure k NotJSON st Hk) as [r ->]; auto.
  - destruct (destructure_reply v) as [reply|] eqn:Hv.
    + rewrite (sendMessage_resume_reply k v reply st Hk Hv).
      cbn [messages created typingEl]. split; [|split; [lia|done]].
      rewrite elem_of_app. left. destruct (typingEl st) as [id|]; [|done].
      apply list_elem_of_filter. split; [|done]. congruence.
    + destruct (sendMessage_resume_failure k (Body v) st Hk) as [r ->]; eauto.
Qed.

(** X7. Only the element the variable [typingEl] holds can leave the
    transcript: any other element of the transcript is still there after
    every sequence of events, so user messages and bot replies are never
    lost. *)
Theorem only_typing_placeholder_leaves (n : node) (es : list event) (st : chat) :
  n ∈ messages st →
  node_id n < created st →
  typingEl st ≠ Some (node_id n) →
  n ∈ messages (run es st).
Proof.
  intros Hin Hid Hty.
  enough (n ∈ messages (run es st) ∧ node_id n < created (run es st) ∧
          typingEl (run es st) ≠ Some (node_id n)) as [? _] by done.
  assert (H : n ∈ messages st ∧ node_id n < created st ∧
              typingEl st ≠ Some (node_id n)) by done.
  clear Hin Hid Hty. revert st H.
  induction es as [|e es IH]; intros st H; [done|].
  cbn [run]. apply IH.
  destruct e as [|supported|transcripts| |key|value|k o]; cbn [step].
  - by destruct st.
  - by destruct st, supported.
  - by apply kept_sendMessage.
  - by apply kept_sendMessage.
  - unfold on_keypress. destruct (decide (key = "Enter")); [by apply kept_sendMessage|done].
  - by destruct st.
  - by apply kept_resume.
Qed.

Lemma only_typing_placeholder_leaves_witness :
  let reply s := Body (JObj [("reply", JStr s)]) in
  let st := run [Input "a"; SendClick; Response 0 (reply "x")] loaded in
  let later := [Input "b"; SendClick; Input "c"; SendClick; Response 2 NetworkError;
                Response 1 (reply "y"); ToggleClick] in
  Node 0 "message user" (bubble "a") ∈ messages (run later st) ∧
  Node 2 "message bot" (bubble "x") ∈ messages (run later st).
Proof.
  cbv zeta. split.
  - apply only_typing_placeholder_leaves.
    + apply (bool_decide_unpack _). vm_compute. exact I.
    + vm_compute. lia.
    + vm_compute. discriminate.
  - apply only_typing_placeholder_leaves.
    + apply (bool_decide_unpack _). vm_compute. exact I.
    + vm_compute. lia.
    + vm_compute. discriminate.
Defined.

(** ** The requests the widget sends *)

Lemma fetches_step (e : event) (st : chat) :
  ∃ new, fetches (trace (step e st)) = fetches (trace st) ++ new ∧
         (length new ≤ 1)%nat ∧
         Forall (λ c, ∃ prompt, prompt ≠ EmptyString ∧ c = berrybot_call prompt) new.
Proof.
  assert (Hsend : ∀ text, ∃ new,
    fetches (trace (sendMessage text st)) = fetches (trace st) ++ new ∧
    (length new ≤ 1)%nat ∧
    Forall (λ c, ∃ prompt, prompt ≠ EmptyString ∧ c = berrybot_call prompt) new).
  { intros text. rewrite fetches_sendMessage.
    destruct (decide (prompt_of text st = EmptyString)) as [Hp|Hp].
    - exists []. split; [done|]. split; [cbn; lia|constructor].
    - eexists. split; [done|]. split; [cbn; lia|]. repeat constructor. by eexists. }
  assert (Hnone : ∀ st', fetches (trace st') = fetches (trace st) → ∃ new,
    fetches (trace st') = fetches (trace st) ++ new ∧
    (length new ≤ 1)%nat ∧
    Forall (λ c, ∃ prompt, prompt ≠ EmptyString ∧ c = berrybot_call prompt) new).
  { intros st' ->. exists []. rewrite app_nil_r. split; [done|]. split; [cbn; lia|constructor]. }
  destruct e as [|supported|transcripts| |key|value|k o]; cbn [step].
  - apply Hnone. by destruct st.
  - apply Hnone. destruct st, supported; cbn; by rewrite fetches_app, app_nil_r.
  - apply Hsend.
  - apply Hsend.
  - unfold on_keypress. destruct (decide (key = "Enter")); [apply Hsend|by apply Hnone].
  - apply Hnone. by destruct st.
  - apply Hnone, fetches_resume.
Qed.

(** X8. Whatever happens to the widget, every request it sends is the
    POST of a prompt that is not empty to [/api/berrybot], and an event
    sends at most one request. *)
Theorem every_request_posts_a_prompt (es : list event) :
  Forall (λ c, ∃ prompt, prompt ≠ EmptyString ∧
               c = FetchCall "/api/berrybot" "POST"
                     [("Content-Type", "application/json")] (stringify_prompt prompt))
    (fetches (trace (run es loaded))) ∧
  (length (fetches (trace (run es loaded))) ≤ length es)%nat.
Proof.
  change (Forall (λ c, ∃ prompt, prompt ≠ EmptyString ∧ c = berrybot_call prompt)
            (fetches (trace (run es loaded))) ∧
          (length (fetches (trace (run es loaded))) ≤
             length (fetches (trace loaded)) + length es)%nat).
  assert (H0 : Forall (λ c, ∃ prompt, prompt ≠ EmptyString ∧ c = berrybot_call prompt)
                 (fetches (trace loaded))) by constructor.
  revert H0. generalize loaded as st. induction es as [|e es IH]; intros st H0.
  - cbn [run length]. split; [done|lia].
  - cbn [run length]. destruct (fetches_step e st) as (new & Hnew & Hlen & Hall).
    destruct (IH (step e st)) as [IH1 IH2].
    { rewrite Hnew. by apply Forall_app. }
    split; [done|]. rewrite Hnew, length_app in IH2. lia.
Qed.

(** ** Voice input and the input field *)

(** X9. A voice result never changes the input field.  When the joined
    transcripts are blank it changes nothing at all; otherwise it sends
    one request, for the joined transcripts without their surrounding
    white space. *)
Theorem voice_result_keeps_input (transcripts : list string) (st : chat) :
  let st' := on_voice_result transcripts st in
  let said := trim (join_empty transcripts) in
  inputValue st' = inputValue st ∧
  (said = EmptyString → st' = st) ∧
  (said ≠ EmptyString →
     fetches (trace st') = fetches (trace st) ++ [berrybot_call said]).
Proof.
  cbv zeta. unfold on_voice_result.
  set (said := trim (join_empty transcripts)).
  split; [|split].
  - destruct (decide (said = EmptyString)) as [Hs|Hs].
    + by rewrite sendMessage_blank.
    + by rewrite sendMessage_run.
  - intros Hs. by apply sendMessage_blank.
  - intros Hs. rewrite fetches_sendMessage. cbn [prompt_of]. by rewrite decide_False.
Qed.

(** X10. Pressing the send button twice sends once: the first click
    empties the input field, so the second click changes nothing. *)
Theorem send_click_twice (st : chat) :
  on_send_click (on_send_click st) = on_send_click st ∧
  on_keypress "Enter" (on_keypress "Enter" st) = on_keypress "Enter" st.
Proof.
  assert (H : sendMessage None (sendMessage None st) = sendMessage None st).
  { destruct (decide (prompt_of None st = EmptyString)) as [Hp|Hp].
    - rewrite (sendMessage_blank None st Hp). exact (sendMessage_blank None st Hp).
    - apply sendMessage_blank. rewrite sendMessage_run by done. reflexivity. }
  split; [exact H|]. unfold on_keypress. by rewrite decide_True.
Qed.

(** ** The panel *)

Lemma panel_sendMessage (text : option string) (st : chat) :
  panel (sendMessage text st) = panel st.
Proof.
  destruct (decide (prompt_of text st = EmptyString)) as [Hp|Hp].
  - by rewrite sendMessage_blank.
  - by rewrite sendMessage_run.
Qed.

Lemma panel_resume (k : nat) (o : outcome) (st : chat) :
  panel (sendMessage_resume k o st) = panel st.
Proof.
  destruct (decide (k ∈ pending st)) as [Hk|Hk];
    [|unfold sendMessage_resume; by rewrite decide_False].
  destruct o as [| |v].
  - by destruct (sendMessage_resume_failure k NetworkError st Hk) as [r ->]; auto.
  - by destruct (sendMessage_resume_failure k NotJSON st Hk) as [r ->]; auto.
  - destruct (destructure_reply v) as [reply|] eqn:Hv.
    + by rewrite (sendMessage_resume_reply k v reply st Hk Hv).
    + by destruct (sendMessage_resume_failure k (Body v) st Hk) as [r ->]; eauto.
Qed.

(** X11. When the panel starts with exactly one of the classes [hidden]
    and [visible], it has exactly one of them after every sequence of
    events: the toggle button swaps them, the voice button leaves
    [visible], and nothing else touches them. *)
Theorem panel_hidden_or_visible (es : list event) (st : chat) :
  ("hidden" ∈ panel st ↔ "visible" ∉ panel st) →
  ("hidden" ∈ panel (run es st) ↔ "visible" ∉ panel (run es st)).
Proof.
  revert st. induction es as [|e es IH]; intros st Hst; [done|].
  cbn [run]. apply IH.
  destruct e as [|supported|transcripts| |key|value|k o]; cbn [step].
  - destruct st as [p ms iv te c s pd tr]. cbn [panel] in Hst.
    unfold on_toggle_click, then_, set_panel. cbn [panel].
    rewrite classList_toggle_other, !classList_toggle_self, classList_toggle_other by done.
    destruct (decide ("hidden" ∈ p)), (decide ("visible" ∈ p)); tauto.
  - destruct st as [p ms iv te c s pd tr].
    assert (Hp : "hidden" ∈ classList_add "visible" (classList_remove "hidden" p)
                 ↔ "visible" ∉ classList_add "visible" (classList_remove "hidden" p)).
    { rewrite !classList_add_spec, !classList_remove_spec.
      split; [intros [[=] | [? _]]; done|]. intros Hn. destruct Hn. by left. }
    by destruct supported.
  - unfold on_voice_result. by rewrite panel_sendMessage.
  - unfold on_send_click. by rewrite panel_sendMessage.
  - unfold on_keypress. destruct (decide (key = "Enter")); [|done].
    by rewrite panel_sendMessage.
  - by destruct st.
  - by rewrite panel_resume.
Qed.

Lemma panel_hidden_or_visible_witness :
  let st := run [ToggleClick; VoiceClick false; VoiceClick true; ToggleClick;
                 Input "hi"; SendClick; ToggleClick] loaded in
  "hidden" ∈ panel st ↔ "visible" ∉ panel st.
Proof.
  cbv zeta. apply panel_hidden_or_visible.
  change (panel loaded) with ["hidden"]. split.
  - intros _ H. apply elem_of_cons in H as [[=] | H]. by apply elem_of_nil in H.
  - intros _. apply list_elem_of_here.
Defined.

(** ** Replies of other shapes *)

(** X12. A body that is JSON but has no [reply] is shown as the text
    [undefined]: the typing placeholder held in [typingEl] is taken out
    and a bot message with that text is appended.  A body that is JSON
    [null] cannot be destructured: the send rejects with nothing to
    handle it and the transcript is left as it was. *)
Theorem reply_of_another_shape (k : nat) (v : json) (st : chat) :
  k ∈ pending st →
  let st' := sendMessage_resume k (Body v) st in
  (v = JNull →
     messages st' = messages st ∧
     ∃ reason, trace st' = trace st ++ [UnhandledRejection k reason]) ∧
  (v ≠ JNull → (∀ fields, v = JObj fields → field "reply" fields = None) →
     messages st' =
       match typingEl st with
       | None => messages st
       | Some id => filter (λ n, node_id n ≠ id) (messages st)
       end ++ [Node (created st) "message bot" (bubble "undefined")]).
Proof.
  intros Hk. cbv zeta. split.
  - intros ->.
    destruct (sendMessage_resume_failure k (Body JNull) st Hk) as [reason ->].
    { right. right. by exists JNull. }
    split; [done|]. by exists reason.
  - intros Hnull Hfields.
    assert (Hv : destructure_reply v = Some None).
    { destruct v as [|b|t|s|items|fields]; try done. cbn. by rewrite (Hfields fields). }
    by rewrite (sendMessage_resume_reply k v None st Hk Hv).
Qed.

Lemma reply_of_another_shape_witness :
  let st := run [Input "hi"; SendClick] loaded in
  messages (sendMessage_resume 0 (Body (JObj [("error", JStr "quota")])) st) =
    [Node 0 "message user" (bubble "hi"); Node 2 "message bot" (bubble "undefined")] ∧
  messages (sendMessage_resume 0 (Body JNull) st) = messages st.
Proof.
  cbv zeta. split.
  - refine (proj2 (reply_of_another_shape 0 (JObj [("error", JStr "quota")]) _ _) _ _).
    + apply (bool_decide_unpack _). vm_compute. exact I.
    + discriminate.
    + intros fields [= <-]. reflexivity.
  - refine (proj1 (proj1 (reply_of_another_shape 0 JNull _ _) _)).
    + apply (bool_decide_unpack _). vm_compute. exact I.
    + reflexivity.
Defined.

End ChatLife.

(** * Tab switching: a missing panel, and clicking again *)

Module TabsLife.
Import DOM Tabs DOMSpec TabsSpec.

Lemma activate_out_of_range (doc : list element) :
  activate (length doc) doc = doc.
Proof.
  unfold activate. apply list_eq. intros k. rewrite list_lookup_alter.
  destruct (decide (length doc = k)) as [<-|]; [|done].
  by rewrite (lookup_ge_None_2 doc (length doc)).
Qed.

(** X13. A click on a tab button whose [data-tab] names no element
    throws, and it throws late: every button and panel has been
    deactivated and the clicked button activated, so the page is left
    with that one active button and no active panel. *)
Theorem tab_click_without_target (doc : list element) (i : nat) (btn : element) :
  doc !! i = Some btn → is_button btn → ¬ is_panel btn →
  getElementById (dataset_tab btn) doc = None →
  ∃ error doc',
    on_tab_click i doc = (Throws error, doc') ∧
    (∀ k e, doc' !! k = Some e → is_button e → (is_active e ↔ k = i)) ∧
    (∀ k e, doc' !! k = Some e → is_panel e → ¬ is_active e).
Proof.
  intros Hi Hbtn Hnp Hnone. unfold on_tab_click. rewrite Hi. cbv zeta.
  rewrite getElementById_classes, Hnone. do 2 eexists. split; [reflexivity|].
  set (doc3 := activate i _).
  assert (Hlook : ∀ k e, doc3 !! k = Some e →
            ∃ e0, doc !! k = Some e0 ∧
                  (∀ c, c ≠ "active" → c ∈ classes e ↔ c ∈ classes e0) ∧
                  (is_active e ↔ k = i ∨ (is_active e0 ∧ ¬ is_button e0 ∧ ¬ is_panel e0))).
  { intros k e Hk.
    assert (Hlen : length doc3 = length doc).
    { unfold doc3, activate, deactivate_all. by rewrite length_alter, !length_fmap. }
    pose proof (lookup_lt_Some _ _ _ Hk) as Hlt.
    rewrite <- (activate_out_of_range doc3), Hlen in Hk.
    destruct (on_tab_click_lookup doc i (length doc) k e Hk)
      as (e0 & Hk0 & _ & _ & Hcls & Hact).
    exists e0. split; [done|]. split; [done|]. rewrite Hact.
    split; [intros [? | [? | ?]]; [by left|lia|by right]|intros [? | ?]; tauto]. }
  split.
  - intros k e Hk Hb. destruct (Hlook k e Hk) as (e0 & _ & Hcls & Hact).
    assert (is_button e0) by (by apply Hcls).
    rewrite Hact. split; [|by left]. intros [? | (_ & ? & _)]; done.
  - intros k e Hk Hp. destruct (Hlook k e Hk) as (e0 & Hk0 & Hcls & Hact).
    assert (Hp0 : is_panel e0) by (by apply Hcls).
    rewrite Hact. intros [-> | (_ & _ & ?)]; [|done].
    rewrite Hi in Hk0. injection Hk0 as ->. done.
Qed.

Lemma tab_click_without_target_witness :
  let doc :=
    [ Element None ["tab-btn"] (Some "upload");
      Element None ["tab-btn"; "active"] (Some "camera");
      Element (Some "camera") ["tab-content"; "active"] None ] in
  ∃ error doc',
    on_tab_click 0 doc = (Throws error, doc') ∧
    filter (λ e, is_panel e ∧ is_active e) doc' = [].
Proof.
  cbv zeta.
  destruct (tab_click_without_target
              [ Element None ["tab-btn"] (Some "upload");
                Element None ["tab-btn"; "active"] (Some "camera");
                Element (Some "camera") ["tab-content"; "active"] None ]
              0 (Element None ["tab-btn"] (Some "upload")))
    as (error & doc' & Hrun & _ & _).
  - reflexivity.
  - apply (bool_decide_unpack _). vm_compute. exact I.
  - apply (bool_decide_unpack _). vm_compute. exact I.
  - reflexivity.
  - exists error, doc'. split; [exact Hrun|].
    vm_compute in Hrun. injection Hrun as _ <-. vm_compute. reflexivity.
Defined.

(** ** Clicking the same tab again *)

Lemma classList_remove_twice (c : string) (l : list string) :
  classList_remove c (classList_remove c l) = classList_remove c l.
Proof. unfold classList_remove. by apply list_filter_filter_l. Qed.

Lemma classList_remove_add (c : string) (l : list string) :
  classList_remove c (classList_add c l) = classList_remove c l.
Proof.
  unfold classList_add, classList_remove. destruct (decide (c ∈ l)); [done|].
  by rewrite filter_app, filter_cons_False, filter_nil, app_nil_r by (cbn; tauto).
Qed.

Lemma classList_add_twice (c : string) (l : list string) :
  classList_add c (classList_add c l) = classList_add c l.
Proof.
  unfold classList_add at 1. rewrite decide_True; [done|].
  apply classList_add_spec. by left.
Qed.

Lemma classList_remove_absent (c : string) (l : list string) :
  c ∉ l → classList_remove c l = l.
Proof.
  intros Hc. unfold classList_remove. induction l as [|x l IH]; [done|].
  rewrite not_elem_of_cons in Hc. destruct Hc as [Hne Hc].
  rewrite filter_cons_True by (cbn; congruence). by rewrite IH.
Qed.

(** What the two deactivation passes make of one element. *)
Lemma deactivate_both (e : element) :
  (λ e, if decide ("tab-content" ∈ classes e)
        then set_classes (classList_remove "active") e else e)
    ((λ e, if decide ("tab-btn" ∈ classes e)
           then set_classes (classList_remove "active") e else e) e)
  = if decide ("tab-btn" ∈ classes e ∨ "tab-content" ∈ classes e)
    then set_classes (classList_remove "active") e else e.
Proof.
  cbv beta. destruct e as [i cl d]. unfold set_classes. cbn [classes el_id data_tab].
  destruct (decide ("tab-btn" ∈ cl)) as [Hb|Hb]; cbn [classes el_id data_tab].
  - rewrite (decide_True (P := _ ∨ _)) by (by left).
    destruct (decide ("tab-content" ∈ classList_remove "active" cl)); [|done].
    by rewrite classList_remove_twice.
  - destruct (decide ("tab-content" ∈ cl)) as [Hp|Hp].
    + by rewrite (decide_True (P := _ ∨ _)) by (by right).
    + by rewrite (decide_False (P := _ ∨ _)) by tauto.
Qed.

(** What a click does to one element: [on] tells whether the element is
    the clicked button or its panel.  Doing it twice is doing it once. *)
Lemma click_on_element_twice (on : bool) (e : element) :
  let f e :=
    (if on then set_classes (classList_add "active") else id)
      (if decide ("tab-btn" ∈ classes e ∨ "tab-content" ∈ classes e)
       then set_classes (classList_remove "active") e else e) in
  f (f e) = f e.
Proof.
  cbv zeta. destruct e as [i cl d]. unfold set_classes. cbn [classes el_id data_tab].
  assert (Hrm : ∀ c l, c ≠ "active" → c ∈ classList_remove "active" l ↔ c ∈ l).
  { intros c l Hc. rewrite classList_remove_spec. tauto. }
  assert (Hadd : ∀ c l, c ≠ "active" → c ∈ classList_add "active" l ↔ c ∈ l).
  { intros c l Hc. rewrite classList_add_spec. tauto. }
  destruct (decide ("tab-btn" ∈ cl ∨ "tab-content" ∈ cl)) as [Hk|Hk];
    destruct on; cbn [id classes el_id data_tab].
  - rewrite decide_True by (by rewrite !Hadd, !Hrm).
    cbn [classes el_id data_tab].
    by rewrite classList_remove_add, classList_remove_twice.
  - rewrite decide_True by (by rewrite !Hrm).
    cbn [classes el_id data_tab]. by rewrite classList_remove_twice.
  - rewrite decide_False by (by rewrite !Hadd).
    cbn [classes el_id data_tab]. by rewrite classList_add_twice.
  - by rewrite decide_False.
Qed.

(** The three steps before the panel is looked up, on one element. *)
Lemma lookup_before_panel (doc : list element) (i k : nat) :
  activate i (deactivate_all "tab-content" (deactivate_all "tab-btn" doc)) !! k =
    (λ e, (if bool_decide (i = k) then set_classes (classList_add "active") else id)
            (if decide ("tab-btn" ∈ classes e ∨ "tab-content" ∈ classes e)
             then set_classes (classList_remove "active") e else e)) <$> doc !! k.
Proof.
  rewrite lookup_activate. unfold deactivate_all. rewrite !list_lookup_fmap.
  destruct (doc !! k) as [e|]; [|done]. cbn [fmap option_fmap option_map].
  rewrite deactivate_both. f_equal. by case_bool_decide; case_decide.
Qed.

Lemma lookup_after_panel (doc : list element) (i j k : nat) :
  activate j (activate i (deactivate_all "tab-content" (deactivate_all "tab-btn" doc))) !! k =
    (λ e, (if bool_decide (i = k) || bool_decide (j = k)
           then set_classes (classList_add "active") else id)
            (if decide ("tab-btn" ∈ classes e ∨ "tab-content" ∈ classes e)
             then set_classes (classList_remove "active") e else e)) <$> doc !! k.
Proof.
  rewrite lookup_activate, lookup_before_panel.
  destruct (doc !! k) as [e|]; [|done]. cbn [fmap option_fmap option_map]. f_equal.
  destruct (decide (j = k)) as [->|Hj].
  - rewrite (bool_decide_true (k = k)) by done. rewrite orb_true_r.
    case_bool_decide; [|done]. cbn [id].
    destruct (decide _); unfold set_classes; cbn [classes el_id data_tab];
      by rewrite classList_add_twice.
  - rewrite (bool_decide_false (j = k)) by done. by rewrite orb_false_r.
Qed.

Lemma dataset_tab_kept (on : bool) (e : element) :
  dataset_tab ((if on then set_classes (classList_add "active") else id)
                 (if decide ("tab-btn" ∈ classes e ∨ "tab-content" ∈ classes e)
                  then set_classes (classList_remove "active") e else e))
  = dataset_tab e.
Proof. by destruct on, (decide _). Qed.

Lemma getElementById_activate (key : string) (j : nat) (doc : list element) :
  getElementById key (activate j doc) = getElementById key doc.
Proof.
  unfold getElementById, activate. destruct (decide (key = EmptyString)); [done|].
  by rewrite first_with_id_alter.
Qed.

(** X14. Clicking the same tab button twice is the same as clicking it
    once: the second click leaves every element as the first click left
    it, and ends the same way (also when it throws). *)
Theorem tab_click_twice (doc : list element) (i : nat) :
  on_tab_click i (on_tab_click i doc).2 = on_tab_click i doc.
Proof.
  unfold on_tab_click at 2 3.
  destruct (doc !! i) as [btn|] eqn:Hi; cbv zeta.
  2:{ cbn [snd]. unfold on_tab_click. by rewrite Hi. }
  rewrite getElementById_classes.
  destruct (getElementById (dataset_tab btn) doc) as [j|] eqn:Hj; cbn [snd].
  - unfold on_tab_click. rewrite lookup_after_panel, Hi.
    cbn [fmap option_fmap option_map]. cbv zeta.
    rewrite dataset_tab_kept, getElementById_classes, getElementById_activate,
      getElementById_classes, Hj.
    f_equal. apply list_eq. intros k.
    rewrite lookup_after_panel, lookup_after_panel.
    destruct (doc !! k) as [e|]; [|done]. cbn [fmap option_fmap option_map]. f_equal.
    apply (click_on_element_twice (bool_decide (i = k) || bool_decide (j = k))).
  - unfold on_tab_click. rewrite lookup_before_panel, Hi.
    cbn [fmap option_fmap option_map]. cbv zeta.
    rewrite dataset_tab_kept, getElementById_classes, getElementById_classes, Hj.
    f_equal. apply list_eq. intros k.
    rewrite lookup_before_panel, lookup_before_panel.
    destruct (doc !! k) as [e|]; [|done]. cbn [fmap option_fmap option_map]. f_equal.
    apply (click_on_element_twice (bool_decide (i = k))).
Qed.

End TabsLife.

(** * Properties of the image preview *)

Module PreviewSpec.
Import DOM Preview DOMSpec.

Lemma selections_app (sels1 sels2 : list (list file)) (st : preview) :
  selections (sels1 ++ sels2) st = selections sels2 (selections sels1 st).
Proof. revert st. induction sels1 as [|f sels1 IH]; intros st; [done|]. apply IH. Qed.

Lemma selections_objectURLs (sels : list (list file)) (st : preview) :
  objectURLs (selections sels st) = objectURLs st ++ omap head sels ∧
  confettiCalls (selections sels st) = confettiCalls st + length (omap head sels) ∧
  ∀ c, c ≠ "has-image" →
       (c ∈ boxClasses (selections sels st) ↔ c ∈ boxClasses st).
Proof.
  revert st. induction sels as [|files sels IH]; intros st.
  - cbn. rewrite app_nil_r. split; [done|]. split; [lia|done].
  - cbn [selections]. destruct (IH (on_change files st)) as (IH1 & IH2 & IH3).
    rewrite IH1, IH2.
    destruct files as [|file files]; unfold on_change;
      cbn [head omap list_omap objectURLs confettiCalls].
    + split; [done|]. split; [done|]. intros c Hc. rewrite IH3 by done.
      unfold on_change. cbn [head boxClasses]. rewrite classList_remove_spec. tauto.
    + rewrite <- app_assoc. split; [done|]. split; [cbn; lia|].
      intros c Hc. rewrite IH3 by done. unfold on_change. cbn [head boxClasses].
      rewrite classList_add_spec. tauto.
Qed.

(** X15. After any sequence of selections the preview shows the last
    one: the box has the class [has-image] and the image a source
    exactly when the last selection holds a file.  Whatever was selected
    before, the other classes of the box are as they were, [confetti] was
    called once per selection that held a file, and an object URL was
    made for the first file of each such selection and none was ever
    released. *)
Theorem preview_follows_last_selection (sels : list (list file))
    (last : list file) (st : preview) :
  let st' := selections (sels ++ [last]) st in
  ("has-image" ∈ boxClasses st' ↔ last ≠ []) ∧
  (src st' = EmptyString ↔ last = []) ∧
  (∀ c, c ≠ "has-image" → (c ∈ boxClasses st' ↔ c ∈ boxClasses st)) ∧
  objectURLs st' = objectURLs st ++ omap head (sels ++ [last]) ∧
  confettiCalls st' = confettiCalls st + length (omap head (sels ++ [last])).
Proof.
  cbv zeta.
  destruct (selections_objectURLs (sels ++ [last]) st) as (Hurls & Hconf & Hcls).
  split; [|split; [|by split]].
  - rewrite selections_app. cbn [selections]. unfold on_change.
    destruct last as [|file files]; cbn [head boxClasses].
    + rewrite classList_remove_spec. split; [intros [? _]; done|done].
    + rewrite classList_add_spec. split; [done|]. intros _. by left.
  - rewrite selections_app. cbn [selections]. unfold on_change.
    destruct last as [|file files]; cbn [head src]; [done|].
    unfold createObjectURL. split; [|done]. intros H. discriminate H.
Qed.

End PreviewSpec.

(** * More on the string helpers *)

Module JSMore.
Import JS JSSpec.

(** ** Reversal and concatenation of strings *)

Lemma append_cons (a : ascii) (s t : string) : String a s +:+ t = String a (s +:+ t).
Proof. reflexivity. Qed.

Lemma append_nil_r (s : string) : s +:+ EmptyString = s.
Proof. induction s as [|a s IH]; [done|]. by rewrite append_cons, IH. Qed.

Lemma append_assoc (s t u : string) : (s +:+ t) +:+ u = s +:+ (t +:+ u).
Proof. induction s as [|a s IH]; [done|]. by rewrite !append_cons, IH. Qed.

Lemma rev_app_append (s t : string) :
  String.rev_app s t = String.rev_app s EmptyString +:+ t.
Proof.
  revert t. induction s as [|a s IH]; intros t; [done|].
  cbn [String.rev_app]. rewrite (IH (String a t)), (IH (String a EmptyString)).
  by rewrite append_assoc.
Qed.

Lemma rev_append (s t : string) : String.rev (s +:+ t) = String.rev t +:+ String.rev s.
Proof.
  unfold String.rev. revert t. induction s as [|a s IH]; intros t.
  - change (EmptyString +:+ t) with t. by rewrite append_nil_r.
  - rewrite append_cons. cbn [String.rev_app].
    rewrite (rev_app_append (s +:+ t)), IH, (rev_app_append s (String a EmptyString)).
    by rewrite append_assoc.
Qed.

Lemma rev_involutive (s : string) : String.rev (String.rev s) = s.
Proof.
  induction s as [|a s IH]; [done|].
  change (String a s) with (String a EmptyString +:+ s) at 1.
  by rewrite rev_append, rev_append, IH.
Qed.

Lemma rev_length (s : string) : String.length (String.rev s) = String.length s.
Proof.
  induction s as [|a s IH]; [done|].
  change (String a s) with (String a EmptyString +:+ s) at 1.
  rewrite rev_append, string_length_app, IH. cbn. lia.
Qed.

(** ** Stripping white space *)

Lemma strip_prefix_Some (p s rest : string) :
  strip_prefix p s = Some rest → s = p +:+ rest.
Proof.
  revert s. induction p as [|a p IH]; intros s; cbn [strip_prefix].
  - by intros [= ->].
  - destruct s as [|b s]; [done|]. destruct (decide (a = b)) as [->|]; [|done].
    intros H. by rewrite append_cons, <- (IH s H).
Qed.

Lemma strip_prefix_append (p s rest t : string) :
  strip_prefix p s = Some rest → strip_prefix p (s +:+ t) = Some (rest +:+ t).
Proof.
  intros H. apply strip_prefix_Some in H as ->. rewrite append_assoc.
  induction p as [|a p IH]; [done|].
  rewrite append_cons. cbn [strip_prefix]. by rewrite decide_True.
Qed.

Lemma strip_one_Some (ws : list string) (s rest : string) :
  Forall (λ p, (1 ≤ String.length p)%nat) ws →
  strip_one ws s = Some rest →
  ∃ p, s = p +:+ rest ∧ (String.length rest < String.length s)%nat.
Proof.
  induction 1 as [|p ws Hp _ IH]; [done|]. cbn [strip_one].
  destruct (strip_prefix p s) as [rest'|] eqn:Hs; [|exact IH].
  intros [= ->]. exists p. apply strip_prefix_Some in Hs as ->.
  split; [done|]. rewrite string_length_app. lia.
Qed.

Lemma strip_one_append (ws : list string) (s t rest : string) :
  strip_one ws s = Some rest → is_Some (strip_one ws (s +:+ t)).
Proof.
  induction ws as [|p ws IH]; [done|]. cbn [strip_one].
  destruct (strip_prefix p (s +:+ t)) as [r|] eqn:Hst; [by eexists|].
  destruct (strip_prefix p s) as [r|] eqn:Hs; [|exact IH].
  by rewrite (strip_prefix_append p s r t Hs) in Hst.
Qed.

Lemma strip_leading_result (ws : list string) (fuel : nat) (s : string) :
  Forall (λ p, (1 ≤ String.length p)%nat) ws →
  (String.length s ≤ fuel)%nat →
  strip_one ws (strip_leading ws fuel s) = None ∧
  ∃ pre, s = pre +:+ strip_leading ws fuel s.
Proof.
  intros Hws. revert s. induction fuel as [|fuel IH]; intros s Hlen.
  - destruct s as [|a s]; [|cbn in Hlen; lia]. cbn [strip_leading].
    split; [|by exists EmptyString].
    destruct (strip_one ws EmptyString) as [rest|] eqn:Hs; [|done].
    destruct (strip_one_Some ws EmptyString rest Hws Hs) as (_ & _ & Hlt).
    cbn in Hlt. lia.
  - cbn [strip_leading]. destruct (strip_one ws s) as [rest|] eqn:Hs.
    + destruct (strip_one_Some ws s rest Hws Hs) as (p & -> & Hlt).
      destruct (IH rest) as [Hnone [pre Hpre]]; [lia|].
      split; [done|]. exists (p +:+ pre). by rewrite append_assoc, <- Hpre.
    + split; [done|]. by exists EmptyString.
Qed.

Lemma strip_leading_nothing (ws : list string) (fuel : nat) (s : string) :
  strip_one ws s = None → strip_leading ws fuel s = s.
Proof. intros Hs. destruct fuel; [done|]. cbn [strip_leading]. by rewrite Hs. Qed.

Lemma whitespace_lengths : Forall (λ p, (1 ≤ String.length p)%nat) whitespace.
Proof. apply Forall_forall. intros p Hp. by apply whitespace_nonempty. Qed.

Lemma reversed_whitespace_lengths :
  Forall (λ p, (1 ≤ String.length p)%nat) (String.rev <$> whitespace).
Proof.
  apply Forall_fmap. eapply Forall_impl; [exact whitespace_lengths|].
  intros p Hp. cbn. by rewrite rev_length.
Qed.

(** X16. The result of [trim] neither starts nor ends with a white space
    character, and trimming it again changes nothing: the prompt taken
    from the input field, and the transcript of a voice result, are sent
    without surrounding white space. *)
Theorem trim_strips_both_ends (s : string) :
  strip_one whitespace (trim s) = None ∧
  strip_one (String.rev <$> whitespace) (String.rev (trim s)) = None ∧
  trim (trim s) = trim s.
Proof.
  assert (Hstart : strip_one whitespace (trimStart s) = None).
  { unfold trimStart. by apply strip_leading_result; [apply whitespace_lengths|]. }
  assert (Hend : ∀ t,
    strip_one (String.rev <$> whitespace) (String.rev (trimEnd t)) = None ∧
    ∃ suffix, t = trimEnd t +:+ suffix).
  { intros t. unfold trimEnd.
    destruct (strip_leading_result (String.rev <$> whitespace) (String.length t)
                (String.rev t) reversed_whitespace_lengths) as [Hnone [pre Hpre]].
    { by rewrite rev_length. }
    rewrite rev_involutive. split; [done|]. exists (String.rev pre).
    by rewrite <- rev_append, <- Hpre, rev_involutive. }
  assert (H1 : strip_one whitespace (trim s) = None).
  { unfold trim. destruct (Hend (trimStart s)) as [_ [suffix Hsuf]].
    destruct (strip_one whitespace (trimEnd (trimStart s))) as [rest|] eqn:Hs; [|done].
    destruct (strip_one_append whitespace _ suffix rest Hs) as [r Hr].
    rewrite <- Hsuf, Hstart in Hr. done. }
  assert (H2 : strip_one (String.rev <$> whitespace) (String.rev (trim s)) = None).
  { unfold trim. apply Hend. }
  split; [done|]. split; [done|].
  unfold trim at 1. unfold trimStart, trimEnd.
  rewrite (strip_leading_nothing whitespace _ (trim s) H1).
  by rewrite (strip_leading_nothing _ _ _ H2), rev_involutive.
Qed.

(** ** The request body determines the prompt *)

Definition hex_value (a : ascii) : nat :=
  let n := nat_of_ascii a in
  if decide (n < 58) then n - 48 else n - 87.

(** Reads one escaped character back; used to tell escaped strings apart. *)
Definition unescape_one (s : string) : option (ascii * string) :=
  match s with
  | EmptyString => None
  | String c rest =>
      if decide (nat_of_ascii c = 92) then
        match rest with
        | EmptyString => None
        | String d rest' =>
            let n := nat_of_ascii d in
            if decide (n = 98) then Some (ascii_of_nat 8, rest')
            else if decide (n = 102) then Some (ascii_of_nat 12, rest')
            else if decide (n = 110) then Some (ascii_of_nat 10, rest')
            else if decide (n = 114) then Some (ascii_of_nat 13, rest')
            else if decide (n = 116) then Some (ascii_of_nat 9, rest')
            else if decide (n = 117) then
              match rest' with
              | String _ (String _ (String h1 (String h0 rest''))) =>
                  Some (ascii_of_nat (16 * hex_value h1 + hex_value h0), rest'')
              | _ => None
              end
            else Some (d, rest')
        end
      else Some (c, rest)
  end.

Lemma unescape_one_escape (a : ascii) (rest : string) :
  unescape_one (json_escape a +:+ rest) = Some (a, rest).
Proof. destruct a as [[] [] [] [] [] [] [] []]; vm_compute; reflexivity. Qed.

Lemma json_escape_all_inj (s1 s2 : string) :
  json_escape_all s1 = json_escape_all s2 → s1 = s2.
Proof.
  revert s2. induction s1 as [|a s1 IH]; intros [|b s2]; cbn [json_escape_all]; intros H.
  - done.
  - apply (f_equal unescape_one) in H. rewrite unescape_one_escape in H. done.
  - apply (f_equal unescape_one) in H. rewrite unescape_one_escape in H. done.
  - apply (f_equal unescape_one) in H. rewrite !unescape_one_escape in H.
    injection H as -> H. by rewrite (IH s2 H).
Qed.

Lemma append_inj_r (s1 s2 t : string) : s1 +:+ t = s2 +:+ t → s1 = s2.
Proof.
  intros H. apply (f_equal String.rev) in H. rewrite !rev_append in H.
  apply (inj (String.app _)) in H. apply (f_equal String.rev) in H.
  by rewrite !rev_involutive in H.
Qed.

(** X17. Different prompts give different request bodies: whatever
    quotes, backslashes or control characters a prompt holds, the body
    [JSON.stringify({ prompt })] determines the prompt. *)
Theorem stringify_prompt_tells_prompts_apart (p1 p2 : string) :
  p1 ≠ p2 → stringify_prompt p1 ≠ stringify_prompt p2.
Proof.
  intros Hne H. apply Hne. unfold stringify_prompt, json_quote in H.
  do 3 apply (inj (String.app _)) in H.
  apply append_inj_r in H. apply (inj (String.app _)) in H.
  apply append_inj_r in H. by apply json_escape_all_inj.
Qed.

Lemma stringify_prompt_tells_prompts_apart_witness :
  stringify_prompt ("hi" +:+ dq +:+ "," +:+ dq +:+ "admin" +:+ dq +:+ ":" +:+ dq +:+ "1")
  ≠ stringify_prompt "hi".
Proof.
  apply stringify_prompt_tells_prompts_apart. vm_compute. discriminate.
Defined.

End JSMore.

(** * What a throw at start-up cannot skip *)

Module PageLife.
Import JS DOM Page PageSpec.

Lemma tab_listener_registered (i n : nat) :
  AddListener (TabButton i) "click" ∈
    (λ j, AddListener (TabButton j) "click") <$> seq 0 n ↔ i < n.
Proof.
  rewrite list_elem_of_fmap. split.
  - intros (j & [= ->] & Hj). apply elem_of_seq in Hj. lia.
  - intros Hi. exists i. split; [done|]. apply elem_of_seq. lia.
Qed.

(** X18. Every tab button gets its click listener and both camera
    functions are defined on every page, also on a page where start-up
    throws: the chart toggle is looked at after them. *)
Theorem tabs_and_camera_always_set_up (p : page) (i : nat) :
  (AddListener (TabButton i) "click" ∈ (init p).2 ↔ i < tabButtons p) ∧
  DefineGlobal "openCamera" ∈ (init p).2 ∧
  DefineGlobal "captureImage" ∈ (init p).2.
Proof.
  rewrite init_run. cbn [snd].
  split; [|split].
  - pose proof (not_appended_card (AddListener (TabButton i) "click") produceList
                  ltac:(done)) as Hcard.
    rewrite !elem_of_app, tab_listener_registered.
    destruct (present p ChartToggle), (present p ProduceChart);
      rewrite ?elem_of_cons, !elem_of_if_present, ?elem_of_nil;
      intuition congruence.
  - rewrite !elem_of_app, !list_elem_of_singleton. tauto.
  - rewrite !elem_of_app, !list_elem_of_singleton. tauto.
Qed.

End PageLife.
